(** * A polyphonic Web Audio synthesizer: [Voice.js] and [synth.js]

    The development embeds the two source files of the synthesizer:

    - [Voice.js]: the class [Voice] with its constructor and the methods
      [start], [stop] and [dispose];
    - [synth.js]: the frequency conversion [mtof], the registry object
      [activeVoices] and the two handlers [startNote] and [stopNote].

    JavaScript numbers are modelled by the real numbers of the Standard
    Library (the mathematical idealisation of IEEE doubles), object
    references by indices into finite maps, and the methods by a state and
    exception monad over one world: the audio context, the JavaScript heap
    of [Voice] objects and the registry.  Where the numerical value of a
    frequency matters, [mtof] is also evaluated in the arithmetic of the
    script engine, of which only its accuracy is assumed.

    The host audio subsystem (the Web Audio [AudioContext]) is not part of
    the repository.  It is modelled here by a recording double: a table of
    audio nodes with their automation timelines and outgoing connections,
    a clock, and the trace of every host call.  The keyboard wiring of
    [synth.js] ([noteMap] and the two event listeners) only selects the
    note passed to [startNote] and [stopNote]; what happens to a loaded
    page is modelled by lists of actions: a call of [startNote], a call of
    [stopNote], or the clock moving on. *)

From Stdlib Require Import Reals Lra ZArith.
From stdpp Require Import base option list gmap.

(** ** JavaScript values, exceptions and the result of a call *)

(** A property holding either nothing yet ([undefined]), [null], or a
    reference to an object of a heap. *)
Inductive JsRef : Type :=
  | Undefined
  | Null
  | Obj (id : nat).

Inductive exn : Type :=
  | TypeError
  | InvalidStateError.

Inductive result (A : Type) : Type :=
  | Ok (a : A)
  | Throw (e : exn).
Arguments Ok {A} a.
Arguments Throw {A} e.

(** ** The host: automation timelines of an [AudioParam] *)

Open Scope R_scope.

Inductive event : Type :=
  | SetValue (v t : R)
  | LinearRamp (v t : R).

Definition ev_time (e : event) : R :=
  match e with SetValue _ t => t | LinearRamp _ t => t end.

Definition ev_value (e : event) : R :=
  match e with SetValue v _ => v | LinearRamp v _ => v end.

Definition same_kind (e1 e2 : event) : bool :=
  match e1, e2 with
  | SetValue _ _, SetValue _ _ => true
  | LinearRamp _ _, LinearRamp _ _ => true
  | _, _ => false
  end.

(** [value] is the slot read by the [value] getter; [events] is the
    timeline, kept in the order of the event times. *)
Record AudioParam : Type := mkParam {
  value : R;
  events : list event
}.

(** A new event goes after the events that are not later than it; an event
    of the same kind at the same time is replaced. *)
Fixpoint insert_event (e : event) (es : list event) : list event :=
  match es with
  | [] => [e]
  | x :: xs =>
      if Rlt_dec (ev_time e) (ev_time x) then e :: x :: xs
      else if Req_dec_T (ev_time e) (ev_time x) then
        (if same_kind e x then e :: xs else x :: insert_event e xs)
      else x :: insert_event e xs
  end.

(** [cancelScheduledValues(t)] drops every event at time [t] or later. *)
Fixpoint cancel_from (t : R) (es : list event) : list event :=
  match es with
  | [] => []
  | x :: xs =>
      if Rlt_dec (ev_time x) t then x :: cancel_from t xs else cancel_from t xs
  end.

(** Linear interpolation between [(t0, v0)] and [(t1, v1)]. *)
Definition interpolate (v0 t0 v1 t1 t : R) : R :=
  v0 + (v1 - v0) * ((t - t0) / (t1 - t0)).

(** The value of a timeline at time [t], given the value [v0] reached at
    the preceding event time [t0]: a ramp event is approached linearly, a
    set-value event is a step, and the last value is held. *)
Fixpoint value_from (v0 t0 : R) (es : list event) (t : R) : R :=
  match es with
  | [] => v0
  | e :: es' =>
      if Rlt_dec t (ev_time e) then
        match e with
        | LinearRamp v1 t1 => interpolate v0 t0 v1 t1 t
        | SetValue _ _ => v0
        end
      else value_from (ev_value e) (ev_time e) es' t
  end.

(** The intrinsic value of a parameter at time [t]: the slot while no event
    has been reached, the timeline afterwards. *)
Definition param_value_at (p : AudioParam) (t : R) : R :=
  match events p with
  | [] => value p
  | e :: es =>
      if Rlt_dec t (ev_time e) then value p
      else value_from (ev_value e) (ev_time e) es t
  end.

Definition schedule (e : event) (p : AudioParam) : AudioParam :=
  mkParam (value p) (insert_event e (events p)).

Definition cancel (t : R) (p : AudioParam) : AudioParam :=
  mkParam (value p) (cancel_from t (events p)).

(** Rendering up to time [t] stores the intrinsic value in the slot.  A
    real host updates the slot once per rendering quantum, so that the
    getter may still return an older value; the statements about what
    [stop] schedules are made for every value of the slot. *)
Definition render_param (t : R) (p : AudioParam) : AudioParam :=
  mkParam (param_value_at p t) (events p).

Close Scope R_scope.

(** ** The host: audio nodes, the context and the trace of host calls *)

Inductive node_kind : Type := DestinationNode | OscillatorNode | GainNode.

Inductive wave : Type := Sine | Sawtooth.

(** An [ended] handler is always [dispose] bound to a [Voice]; it is
    represented by the reference of that voice. *)
Record AudioNode : Type := mkNode {
  kind : node_kind;
  param : AudioParam;          (* [frequency] of a source, [gain] of a gain stage *)
  type : wave;
  started : bool;
  stopTime : option R;
  ended : bool;
  onended : option nat;
  outputs : list nat
}.

Definition new_oscillator : AudioNode :=
  mkNode OscillatorNode (mkParam 440%R []) Sine false None false None [].

Definition new_gain : AudioNode :=
  mkNode GainNode (mkParam 1%R []) Sine false None false None [].

Definition destination_node : AudioNode :=
  mkNode DestinationNode (mkParam 0%R []) Sine false None false None [].

Definition map_param (f : AudioParam → AudioParam) (n : AudioNode) : AudioNode :=
  mkNode (kind n) (f (param n)) (type n) (started n) (stopTime n) (ended n)
         (onended n) (outputs n).

Definition set_wave (ty : wave) (n : AudioNode) : AudioNode :=
  mkNode (kind n) (param n) ty (started n) (stopTime n) (ended n)
         (onended n) (outputs n).

Definition set_started (n : AudioNode) : AudioNode :=
  mkNode (kind n) (param n) (type n) true (stopTime n) (ended n)
         (onended n) (outputs n).

Definition set_stopTime (t : R) (n : AudioNode) : AudioNode :=
  mkNode (kind n) (param n) (type n) (started n) (Some t) (ended n)
         (onended n) (outputs n).

Definition set_ended (n : AudioNode) : AudioNode :=
  mkNode (kind n) (param n) (type n) (started n) (stopTime n) true
         (onended n) (outputs n).

Definition set_handler (h : nat) (n : AudioNode) : AudioNode :=
  mkNode (kind n) (param n) (type n) (started n) (stopTime n) (ended n)
         (Some h) (outputs n).

Definition add_output (d : nat) (n : AudioNode) : AudioNode :=
  mkNode (kind n) (param n) (type n) (started n) (stopTime n) (ended n)
         (onended n) (outputs n ++ [d]).

Definition clear_outputs (n : AudioNode) : AudioNode :=
  mkNode (kind n) (param n) (type n) (started n) (stopTime n) (ended n)
         (onended n) [].

(** The calls received by the host. *)
Inductive call : Type :=
  | CreateOscillator (id : nat)
  | CreateGain (id : nat)
  | SetValueAtTime (id : nat) (v t : R)
  | LinearRampToValueAtTime (id : nat) (v t : R)
  | CancelScheduledValues (id : nat) (t : R)
  | Connect (src dst : nat)
  | Disconnect (id : nat)
  | StartSource (id : nat)
  | StopSource (id : nat) (t : R).

(** ** The script heap: [Voice] objects *)

(** The properties of a [Voice].  [context] is left out: there is one audio
    context, the one of the world.  [output] is the node the voice is
    connected to. *)

Record Voice : Type := mkVoice {
  frequency : R;
  maxAmp : R;
  output : nat;
  attack : R;
  decay : R;
  sustain : R;
  release : R;
  osc : JsRef;
  osc2 : JsRef;
  osc2scale : JsRef;
  osc3 : JsRef;
  osc3scale : JsRef;
  ampEnv : JsRef
}.

Definition set_osc (r : JsRef) (v : Voice) : Voice :=
  mkVoice (frequency v) (maxAmp v) (output v) (attack v) (decay v) (sustain v)
          (release v) r (osc2 v) (osc2scale v) (osc3 v) (osc3scale v) (ampEnv v).
Definition set_osc2 (r : JsRef) (v : Voice) : Voice :=
  mkVoice (frequency v) (maxAmp v) (output v) (attack v) (decay v) (sustain v)
          (release v) (osc v) r (osc2scale v) (osc3 v) (osc3scale v) (ampEnv v).
Definition set_osc2scale (r : JsRef) (v : Voice) : Voice :=
  mkVoice (frequency v) (maxAmp v) (output v) (attack v) (decay v) (sustain v)
          (release v) (osc v) (osc2 v) r (osc3 v) (osc3scale v) (ampEnv v).
Definition set_osc3 (r : JsRef) (v : Voice) : Voice :=
  mkVoice (frequency v) (maxAmp v) (output v) (attack v) (decay v) (sustain v)
          (release v) (osc v) (osc2 v) (osc2scale v) r (osc3scale v) (ampEnv v).
Definition set_osc3scale (r : JsRef) (v : Voice) : Voice :=
  mkVoice (frequency v) (maxAmp v) (output v) (attack v) (decay v) (sustain v)
          (release v) (osc v) (osc2 v) (osc2scale v) (osc3 v) r (ampEnv v).
Definition set_ampEnv (r : JsRef) (v : Voice) : Voice :=
  mkVoice (frequency v) (maxAmp v) (output v) (attack v) (decay v) (sustain v)
          (release v) (osc v) (osc2 v) (osc2scale v) (osc3 v) (osc3scale v) r.

(** ** The world *)

(** One audio context ([mySynthCtx]: clock, nodes, trace), the heap of
    [Voice] objects, the registry [activeVoices], the values [Math.random]
    will return, and the exceptions escaping from event handlers. *)
Record World : Type := mkWorld {
  currentTime : R;
  nodes : gmap nat AudioNode;
  nextNode : nat;
  trace : list call;
  voices : gmap nat Voice;
  nextVoice : nat;
  activeVoices : gmap Z nat;
  randoms : nat → R;
  draws : nat;
  uncaught : list exn
}.

Definition with_time (t : R) (w : World) : World :=
  mkWorld t (nodes w) (nextNode w) (trace w) (voices w) (nextVoice w)
          (activeVoices w) (randoms w) (draws w) (uncaught w).
Definition with_nodes (f : gmap nat AudioNode → gmap nat AudioNode) (w : World) : World :=
  mkWorld (currentTime w) (f (nodes w)) (nextNode w) (trace w) (voices w)
          (nextVoice w) (activeVoices w) (randoms w) (draws w) (uncaught w).
Definition with_nextNode (n : nat) (w : World) : World :=
  mkWorld (currentTime w) (nodes w) n (trace w) (voices w) (nextVoice w)
          (activeVoices w) (randoms w) (draws w) (uncaught w).
Definition with_trace (f : list call → list call) (w : World) : World :=
  mkWorld (currentTime w) (nodes w) (nextNode w) (f (trace w)) (voices w)
          (nextVoice w) (activeVoices w) (randoms w) (draws w) (uncaught w).
Definition with_voices (f : gmap nat Voice → gmap nat Voice) (w : World) : World :=
  mkWorld (currentTime w) (nodes w) (nextNode w) (trace w) (f (voices w))
          (nextVoice w) (activeVoices w) (randoms w) (draws w) (uncaught w).
Definition with_nextVoice (n : nat) (w : World) : World :=
  mkWorld (currentTime w) (nodes w) (nextNode w) (trace w) (voices w) n
          (activeVoices w) (randoms w) (draws w) (uncaught w).
Definition with_activeVoices (f : gmap Z nat → gmap Z nat) (w : World) : World :=
  mkWorld (currentTime w) (nodes w) (nextNode w) (trace w) (voices w)
          (nextVoice w) (f (activeVoices w)) (randoms w) (draws w) (uncaught w).
Definition with_draws (n : nat) (w : World) : World :=
  mkWorld (currentTime w) (nodes w) (nextNode w) (trace w) (voices w)
          (nextVoice w) (activeVoices w) (randoms w) n (uncaught w).
Definition with_uncaught (f : list exn → list exn) (w : World) : World :=
  mkWorld (currentTime w) (nodes w) (nextNode w) (trace w) (voices w)
          (nextVoice w) (activeVoices w) (randoms w) (draws w) (f (uncaught w)).

(** ** The monad of script code: state and exceptions *)

(** A JavaScript exception does not roll the heap back: the world reached
    when the exception is thrown is kept. *)
Definition M (A : Type) : Type := World → result A * World.

Definition ret {A} (a : A) : M A := λ w, (Ok a, w).

Definition bind {A B} (m : M A) (k : A → M B) : M B :=
  λ w, match m w with
       | (Ok a, w') => k a w'
       | (Throw e, w') => (Throw e, w')
       end.

Definition throw {A} (e : exn) : M A := λ w, (Throw e, w).
Definition gets {A} (f : World → A) : M A := λ w, (Ok (f w), w).
Definition modify (f : World → World) : M unit := λ w, (Ok tt, f w).

Notation "'let*' x ':=' m 'in' k" := (bind m (λ x, k))
  (at level 10, x name, m at level 100, k at level 200).
Notation "m '>>' k" := (bind m (λ _, k))
  (at level 90, right associativity).

Definition log (c : call) : M unit := modify (with_trace (λ tr, tr ++ [c])).
Definition update_node (id : nat) (f : AudioNode → AudioNode) : M unit :=
  modify (with_nodes (alter f id)).

(** Reading a property of an object: a [TypeError] on [undefined] or
    [null], and on a reference that designates no node. *)
Definition node_of (r : JsRef) : M (nat * AudioNode) :=
  match r with
  | Obj id =>
      let* on := gets (λ w, nodes w !! id) in
      match on with
      | Some n => ret (id, n)
      | None => throw TypeError
      end
  | _ => throw TypeError
  end.

(** ** The host interface used by the script *)

Definition createOscillator : M nat :=
  let* id := gets nextNode in
  modify (with_nodes (insert id new_oscillator)) >>
  modify (with_nextNode (S id)) >>
  log (CreateOscillator id) >>
  ret id.

Definition createGain : M nat :=
  let* id := gets nextNode in
  modify (with_nodes (insert id new_gain)) >>
  modify (with_nextNode (S id)) >>
  log (CreateGain id) >>
  ret id.

Definition setValueAtTime (id : nat) (v t : R) : M unit :=
  log (SetValueAtTime id v t) >>
  update_node id (map_param (schedule (SetValue v t))).

Definition linearRampToValueAtTime (id : nat) (v t : R) : M unit :=
  log (LinearRampToValueAtTime id v t) >>
  update_node id (map_param (schedule (LinearRamp v t))).

Definition cancelScheduledValues (id : nat) (t : R) : M unit :=
  log (CancelScheduledValues id t) >>
  update_node id (map_param (cancel t)).

(** The getter of [param.value]. *)
Definition get_value (id : nat) : M R :=
  let* n := node_of (Obj id) in
  ret (value (param n.2)).

(** The setter of [param.value]: the slot is assigned and the value is
    scheduled at the current time. *)
Definition set_value (id : nat) (v : R) : M unit :=
  let* now := gets currentTime in
  update_node id (map_param (λ p, schedule (SetValue v now) (mkParam v (events p)))).

Definition set_type (id : nat) (ty : wave) : M unit :=
  update_node id (set_wave ty).

Definition set_onended (id : nat) (handler : nat) : M unit :=
  update_node id (set_handler handler).

Definition connect (src dst : nat) : M unit :=
  log (Connect src dst) >>
  update_node src (add_output dst).

(** [disconnect()] without argument removes every outgoing connection. *)
Definition disconnect (id : nat) : M unit :=
  log (Disconnect id) >>
  update_node id clear_outputs.

(** A source is started at most once. *)
Definition start_source (id : nat) : M unit :=
  let* n := node_of (Obj id) in
  if started n.2 then throw InvalidStateError
  else log (StartSource id) >> update_node id set_started.

(** Stopping needs a started source; the last stop time given before the
    source has ended is the one that applies. *)
Definition halt (t : R) (n : AudioNode) : AudioNode :=
  if ended n then n else set_stopTime t n.

Definition stop_source (id : nat) (t : R) : M unit :=
  let* n := node_of (Obj id) in
  if started n.2 then
    log (StopSource id t) >>
    update_node id (halt t)
  else throw InvalidStateError.

(** ** [Voice.js] *)

Section VoiceMethods.
Variable this : nat.

Definition this_get {A} (proj : Voice → A) : M A :=
  let* ov := gets (λ w, voices w !! this) in
  match ov with
  | Some v => ret (proj v)
  | None => throw TypeError
  end.

Definition this_set (setter : Voice → Voice) : M unit :=
  modify (with_voices (alter setter this)).

(** [this.f.…]: the node referenced by the property [f]. *)
Definition field (proj : Voice → JsRef) : M nat :=
  let* r := this_get proj in
  let* n := node_of r in
  ret n.1.

Open Scope R_scope.

(** [start()] *)
Definition start : M unit :=
  let* now := gets currentTime in
  (* main oscillator *)
  let* n := createOscillator in
  this_set (set_osc (Obj n)) >>
  let* o := field osc in
  let* f := this_get frequency in
  setValueAtTime o f now >>
  let* o := field osc in
  set_onended o this >>
  (* second oscillator, sawtooth at twice the frequency *)
  let* n := createOscillator in
  this_set (set_osc2 (Obj n)) >>
  let* o := field osc2 in
  let* f := this_get frequency in
  setValueAtTime o (f * 2) now >>
  let* o := field osc2 in
  set_type o Sawtooth >>
  let* n := createGain in
  this_set (set_osc2scale (Obj n)) >>
  let* g := field osc2scale in
  set_value g 0.5 >>
  (* third oscillator, sawtooth at three times the frequency *)
  let* n := createOscillator in
  this_set (set_osc3 (Obj n)) >>
  let* o := field osc3 in
  let* f := this_get frequency in
  setValueAtTime o (f * 3) now >>
  let* o := field osc3 in
  set_type o Sawtooth >>
  let* n := createGain in
  this_set (set_osc3scale (Obj n)) >>
  let* g := field osc3scale in
  set_value g 0.5 >>
  (* amplitude envelope, silent at first *)
  let* n := createGain in
  this_set (set_ampEnv (Obj n)) >>
  let* e := field ampEnv in
  setValueAtTime e 0 now >>
  (* signal routing *)
  let* o := field osc in
  let* e := field ampEnv in
  connect o e >>
  let* o := field osc2 in
  let* g := field osc2scale in
  connect o g >>
  let* g := field osc2scale in
  let* e := field ampEnv in
  connect g e >>
  let* o := field osc3 in
  let* g := field osc3scale in
  connect o g >>
  let* g := field osc3scale in
  let* e := field ampEnv in
  connect g e >>
  let* e := field ampEnv in
  let* out := this_get output in
  connect e out >>
  (* start the oscillators *)
  let* o := field osc in
  start_source o >>
  let* o := field osc2 in
  start_source o >>
  let* o := field osc3 in
  start_source o >>
  (* envelope: attack, then decay *)
  let* e := field ampEnv in
  let* a := this_get maxAmp in
  let* att := this_get attack in
  linearRampToValueAtTime e a (now + att) >>
  let* e := field ampEnv in
  let* s := this_get sustain in
  let* a := this_get maxAmp in
  let* att := this_get attack in
  let* dec := this_get decay in
  linearRampToValueAtTime e (s * a) (now + att + dec).

(** [stop()] *)
Definition stop : M unit :=
  let* now := gets currentTime in
  (* cancel any scheduled ramps *)
  let* e := field ampEnv in
  cancelScheduledValues e now >>
  (* set the gain to its current value *)
  let* e := field ampEnv in
  let* e' := field ampEnv in
  let* v := get_value e' in
  setValueAtTime e v now >>
  (* release: ramp down to 0 *)
  let* e := field ampEnv in
  let* rel := this_get release in
  linearRampToValueAtTime e 0 (now + rel) >>
  (* stop all oscillators slightly after the release ends *)
  let* o := field osc in
  let* rel := this_get release in
  stop_source o (now + rel + 0.01) >>
  let* o := field osc2 in
  let* rel := this_get release in
  stop_source o (now + rel + 0.01) >>
  let* o := field osc3 in
  let* rel := this_get release in
  stop_source o (now + rel + 0.01).

(** [dispose()] *)
Definition dispose : M unit :=
  (* disconnect everything *)
  let* o := field osc in
  disconnect o >>
  let* o := field osc2 in
  disconnect o >>
  let* o := field osc3 in
  disconnect o >>
  let* g := field osc2scale in
  disconnect g >>
  let* g := field osc3scale in
  disconnect g >>
  let* e := field ampEnv in
  disconnect e >>
  (* null the references *)
  this_set (set_osc Null) >>
  this_set (set_osc2 Null) >>
  this_set (set_osc3 Null) >>
  this_set (set_osc2scale Null) >>
  this_set (set_osc3scale Null) >>
  this_set (set_ampEnv Null).

Close Scope R_scope.
End VoiceMethods.

(** [new Voice(ctx, freq, maxAmp, out)]: there is one audio context, the
    one of the world; the new object is returned by reference. *)
Definition constructor (freq maxAmp : R) (out : nat) : M nat :=
  let* vid := gets nextVoice in
  modify (with_voices (insert vid
    (mkVoice freq maxAmp out 0.02%R 0.01%R 0.5%R 0.5%R
             Undefined Undefined Undefined Undefined Undefined Undefined))) >>
  modify (with_nextVoice (S vid)) >>
  ret vid.

(** ** [synth.js] *)

(** The context before the module body runs: the clock at 0 and the
    destination node, numbered 0. *)
Definition destination : nat := 0.

Definition fresh_context (rnd : nat → R) : World :=
  mkWorld 0%R {[destination := destination_node]} 1 [] ∅ 0 ∅ rnd 0 [].

(** [masterGain]: created, set to 0.125 and connected to the destination
    when the module is loaded. *)
Definition load_module : M nat :=
  let* g := createGain in
  set_value g 0.125%R >>
  connect g destination >>
  ret g.

Definition masterGain : nat := 1.

Definition initial (rnd : nat → R) : World := (load_module (fresh_context rnd)).2.

(** [Math.random()]: the next value of the sequence of the world. *)
Definition Math_random : M R :=
  let* k := gets draws in
  let* r := gets (λ w, randoms w k) in
  modify (with_draws (S k)) >>
  ret r.

(** [mtof(midi)], over the real numbers. *)
Definition mtof (midi : R) : R := (440 * Rpower 2 ((midi - 69) / 12))%R.

(** The script engine computes [mtof] with IEEE doubles, and with a
    [Math.pow] that is only required to approximate the power.  The four
    operations of [mtof], as an engine implements them: *)
Record Arith : Type := mkArith {
  js_sub : R → R → R;
  js_div : R → R → R;
  js_mul : R → R → R;
  Math_pow : R → R → R
}.

(** [mtof(midi)], evaluated in the arithmetic [A] in the order of the
    source: [440 * Math.pow(2, (midi - 69) / 12)]. *)
Definition mtof_in (A : Arith) (midi : R) : R :=
  js_mul A 440%R (Math_pow A 2%R (js_div A (js_sub A midi 69%R) 12%R)).

(** The arithmetic without rounding; [mtof] is [mtof_in exact]. *)
Definition exact : Arith := mkArith Rminus Rdiv Rmult Rpower.

(** An arithmetic with rounding errors: every quotient is too large and
    every power too small, by the relative error 10^-8. *)
Definition skewed : Arith :=
  mkArith Rminus
          (λ x y, x / y * (1 + / 100000000))%R
          Rmult
          (λ x y, if Req_dec_T y 0 then 1 else Rpower x y * (1 - / 100000000))%R.

(** [x] approximates [r] with the relative error [u]. *)
Definition near (u x r : R) : Prop := (Rabs (x - r) <= u * Rabs r)%R.

(** A result that is 0 or of moderate size, far from the smallest and from
    the largest double: there a double operation returns the double nearest
    to the exact result. *)
Definition moderate (r : R) : Prop :=
  (r = 0 ∨ 1 / 1000 <= Rabs r <= 100000)%R.

(** The integers every double represents exactly. *)
Definition safe_integer (n : Z) : Prop := (Z.abs n ≤ 2 ^ 53)%Z.

(** What is assumed of the arithmetic of the engine, [u] being its relative
    error: subtraction and multiplication are exact on safe integers when
    the result is one; a quotient, a product and a power of 2 of moderate
    size are returned with a relative error of at most [u]; and
    [Math.pow(2, 0)] is 1.  IEEE doubles satisfy the first three items with
    [u = 2^-53]; [Math.pow(x, 0)] is 1 by the language standard; the
    accuracy of [Math.pow] is left to the engine by the standard. *)
Record Accurate (u : R) (A : Arith) : Prop := {
  acc_sub : ∀ m k : Z, safe_integer m → safe_integer k → safe_integer (m - k) →
    js_sub A (IZR m) (IZR k) = IZR (m - k);
  acc_mul_int : ∀ m k : Z, safe_integer m → safe_integer k → safe_integer (m * k) →
    js_mul A (IZR m) (IZR k) = IZR (m * k);
  acc_div : ∀ x y : R, y ≠ 0%R → moderate (x / y) → near u (js_div A x y) (x / y);
  acc_mul : ∀ x y : R, moderate (x * y) → near u (js_mul A x y) (x * y);
  acc_pow_zero : Math_pow A 2%R 0%R = 1%R;
  acc_pow : ∀ y : R, moderate (Rpower 2 y) → near u (Math_pow A 2%R y) (Rpower 2 y)
}.

(** [activeVoices[note]] as a method call target. *)
Definition active_voice (note : Z) : M nat :=
  let* e := gets (λ w, activeVoices w !! note) in
  match e with
  | Some vid => ret vid
  | None => throw TypeError
  end.

(** [startNote(note)].  The keys of [activeVoices] are note numbers; a
    stored [Voice] is an object, hence truthy.  [console.log] has no effect
    on the world. *)
Definition startNote (note : Z) : M unit :=
  let* e := gets (λ w, activeVoices w !! note) in
  match e with
  | Some _ => ret tt
  | None =>
      let* r := Math_random in
      let* someVoice := constructor (mtof (IZR note)) r masterGain in
      modify (with_activeVoices (insert note someVoice)) >>
      let* v := active_voice note in
      start v
  end.

(** [stopNote(note)] *)
Definition stopNote (note : Z) : M unit :=
  let* e := gets (λ w, activeVoices w !! note) in
  match e with
  | Some _ =>
      let* v := active_voice note in
      stop v >>
      modify (with_activeVoices (delete note))
  | None => ret tt
  end.

(** ** The host clock *)

(** A started source whose stop time has been reached ends. *)
Definition is_due (t : R) (st : option R) : bool :=
  match st with
  | Some s => if Rle_dec s t then true else false
  | None => false
  end.

Definition due (t : R) (n : AudioNode) : bool :=
  started n && negb (ended n) && is_due t (stopTime n).

Definition render_node (t : R) (n : AudioNode) : AudioNode :=
  let n' := map_param (render_param t) n in
  if due t n then set_ended n' else n'.

Definition ending (t : R) (w : World) : list nat :=
  List.filter (λ id, match nodes w !! id with
                     | Some n => due t n
                     | None => false
                     end) (seq 0 (nextNode w)).

(** The [ended] event of a node: its handler, if any, runs; an exception
    escaping from the handler is reported and goes no further. *)
Definition fire_ended (id : nat) : M unit :=
  let* on := gets (λ w, nodes w !! id) in
  match on ≫= onended with
  | Some vid =>
      λ w, match dispose vid w with
           | (Ok _, w') => (Ok tt, w')
           | (Throw e, w') => (Ok tt, with_uncaught (λ l, l ++ [e]) w')
           end
  | None => ret tt
  end.

Fixpoint for_each {A} (f : A → M unit) (l : list A) : M unit :=
  match l with
  | [] => ret tt
  | x :: l' => f x >> for_each f l'
  end.

(** The clock advances by [dt]: every parameter is rendered at the new
    time, the sources that are due end, and their [ended] events are
    delivered in the order of the node numbers. *)
Definition advance (dt : R) : M unit :=
  let* now := gets currentTime in
  let* ids := gets (ending (now + dt)%R) in
  modify (with_time (now + dt)%R) >>
  modify (with_nodes (fmap (render_node (now + dt)%R))) >>
  for_each fire_ended ids.

(** What happens to a loaded page: keys go down and up, time passes. *)
Inductive action : Type :=
  | StartNote (note : Z)
  | StopNote (note : Z)
  | Advance (dt : R).

Definition perform (a : action) : M unit :=
  match a with
  | StartNote n => startNote n
  | StopNote n => stopNote n
  | Advance dt => advance dt
  end.

(** The world after a list of actions; an exception of one action does not
    prevent the next ones. *)
Definition run (acts : list action) (w : World) : World :=
  foldl (λ w a, (perform a w).2) w acts.

(** ** What the methods do, in closed form *)

(** The six nodes a started voice refers to are numbered consecutively
    from a base [b], in the order in which [start] creates them. *)
Definition holding (b : nat) (v : Voice) : Prop :=
  osc v = Obj b ∧ osc2 v = Obj (1 + b) ∧ osc2scale v = Obj (2 + b) ∧
  osc3 v = Obj (3 + b) ∧ osc3scale v = Obj (4 + b) ∧ ampEnv v = Obj (5 + b).

Definition with_refs (o o2 o2s o3 o3s e : JsRef) (v : Voice) : Voice :=
  mkVoice (frequency v) (maxAmp v) (output v) (attack v) (decay v) (sustain v)
          (release v) o o2 o2s o3 o3s e.

Definition held (b : nat) (v : Voice) : Voice :=
  with_refs (Obj b) (Obj (1 + b)) (Obj (2 + b)) (Obj (3 + b)) (Obj (4 + b))
            (Obj (5 + b)) v.

Definition nulled (v : Voice) : Voice :=
  with_refs Null Null Null Null Null Null v.

Definition all_null (v : Voice) : Prop :=
  osc v = Null ∧ osc2 v = Null ∧ osc2scale v = Null ∧
  osc3 v = Null ∧ osc3scale v = Null ∧ ampEnv v = Null.

(** The constants fixed by the constructor. *)
Definition adsr (v : Voice) : Prop :=
  attack v = 0.02%R ∧ decay v = 0.01%R ∧ sustain v = 0.5%R ∧ release v = 0.5%R.

(** The timeline [start] leaves on the envelope gain. *)
Definition attack_decay (v : Voice) (now : R) : list event :=
  insert_event (LinearRamp (sustain v * maxAmp v) (now + attack v + decay v))
    (insert_event (LinearRamp (maxAmp v) (now + attack v)) [SetValue 0 now])%R.

Definition source_node (f now : R) (ty : wave) (h : option nat) (dst : nat) : AudioNode :=
  mkNode OscillatorNode (mkParam 440%R [SetValue f now]) ty true None false h [dst].

Definition scale_node (now : R) (dst : nat) : AudioNode :=
  mkNode GainNode (mkParam 0.5%R [SetValue 0.5%R now]) Sine false None false None [dst].

Definition envelope_node (v : Voice) (now : R) : AudioNode :=
  mkNode GainNode (mkParam 1%R (attack_decay v now)) Sine false None false None [output v].

Definition start_calls (v : Voice) (now : R) (b : nat) : list call :=
  [CreateOscillator b; SetValueAtTime b (frequency v) now;
   CreateOscillator (1 + b); SetValueAtTime (1 + b) (frequency v * 2) now;
   CreateGain (2 + b);
   CreateOscillator (3 + b); SetValueAtTime (3 + b) (frequency v * 3) now;
   CreateGain (4 + b);
   CreateGain (5 + b); SetValueAtTime (5 + b) 0 now;
   Connect b (5 + b); Connect (1 + b) (2 + b); Connect (2 + b) (5 + b);
   Connect (3 + b) (4 + b); Connect (4 + b) (5 + b); Connect (5 + b) (output v);
   StartSource b; StartSource (1 + b); StartSource (3 + b);
   LinearRampToValueAtTime (5 + b) (maxAmp v) (now + attack v);
   LinearRampToValueAtTime (5 + b) (sustain v * maxAmp v) (now + attack v + decay v)]%R.

Definition start_effect (this : nat) (v : Voice) (w : World) : World :=
  let now := currentTime w in
  let b := nextNode w in
  mkWorld now
    (<[5 + b := envelope_node v now]>
      (<[4 + b := scale_node now (5 + b)]>
        (<[3 + b := source_node (frequency v * 3) now Sawtooth None (4 + b)]>
          (<[2 + b := scale_node now (5 + b)]>
            (<[1 + b := source_node (frequency v * 2) now Sawtooth None (2 + b)]>
              (<[b := source_node (frequency v) now Sine (Some this) (5 + b)]>
                (nodes w)))))))
    (6 + b)
    (trace w ++ start_calls v now b)
    (<[this := held b v]> (voices w))
    (nextVoice w) (activeVoices w) (randoms w) (draws w) (uncaught w).

(** The timeline [stop] leaves on the envelope gain, [v0] being the value
    read from the slot. *)
Definition release_env (v0 now rel : R) (p : AudioParam) : AudioParam :=
  schedule (LinearRamp 0 (now + rel)) (schedule (SetValue v0 now) (cancel now p)).

Definition stop_calls (b : nat) (rel v0 now : R) : list call :=
  [CancelScheduledValues (5 + b) now; SetValueAtTime (5 + b) v0 now;
   LinearRampToValueAtTime (5 + b) 0 (now + rel);
   StopSource b (now + rel + 0.01); StopSource (1 + b) (now + rel + 0.01);
   StopSource (3 + b) (now + rel + 0.01)]%R.

Definition stop_effect (b : nat) (rel v0 : R) (w : World) : World :=
  let now := currentTime w in
  let s := (now + rel + 0.01)%R in
  with_trace (λ tr, tr ++ stop_calls b rel v0 now)
    (with_nodes (λ m, alter (halt s) (3 + b) (alter (halt s) (1 + b) (alter (halt s) b
                   (alter (map_param (release_env v0 now rel)) (5 + b) m)))) w).

Definition dispose_calls (b : nat) : list call :=
  [Disconnect b; Disconnect (1 + b); Disconnect (3 + b);
   Disconnect (2 + b); Disconnect (4 + b); Disconnect (5 + b)].

Definition dispose_effect (this b : nat) (w : World) : World :=
  with_voices (alter nulled this)
    (with_trace (λ tr, tr ++ dispose_calls b)
      (with_nodes (λ m, alter clear_outputs (5 + b) (alter clear_outputs (4 + b)
                     (alter clear_outputs (3 + b) (alter clear_outputs (2 + b)
                       (alter clear_outputs (1 + b) (alter clear_outputs b m)))))) w)).

(** ** Symbolic evaluation of script code *)

Ltac hred :=
  lazy beta iota zeta delta [bind ret gets modify throw log update_node node_of
      createOscillator createGain setValueAtTime linearRampToValueAtTime
      cancelScheduledValues get_value set_value set_type set_onended connect
      disconnect start_source stop_source this_get this_set field
      with_time with_nodes with_nextNode with_trace with_voices with_nextVoice
      with_activeVoices with_draws with_uncaught
      currentTime nodes nextNode trace voices nextVoice activeVoices randoms
      draws uncaught fst snd started ended stopTime onended outputs kind param type
      new_oscillator new_gain map_param set_wave set_started set_handler add_output
      osc osc2 osc2scale osc3 osc3scale ampEnv
      set_osc set_osc2 set_osc2scale set_osc3 set_osc3scale set_ampEnv
      frequency maxAmp attack decay sustain release output value events].

Ltac hstep :=
  first
  [ rewrite lookup_insert_eq
  | rewrite lookup_insert_ne by lia
  | rewrite alter_insert_eq
  | rewrite alter_insert_ne by lia
  | rewrite insert_insert_eq
  | progress hred ].

Ltac wsimpl :=
  cbn [with_time with_nodes with_nextNode with_trace with_voices with_nextVoice
       with_activeVoices with_draws with_uncaught
       currentTime nodes nextNode trace voices nextVoice activeVoices randoms
       draws uncaught].

Ltac lookups :=
  repeat first
  [ rewrite lookup_insert_eq
  | rewrite lookup_insert_ne by lia
  | rewrite lookup_alter_eq
  | rewrite lookup_alter_ne by lia ].

(** ** The life cycle of a voice, read from the world *)

(** How often [disconnect()] has been called on a node. *)
Definition is_disconnect (id : nat) (c : call) : bool :=
  match c with
  | Disconnect j => Nat.eqb j id
  | _ => false
  end.

Definition disconnects (id : nat) (tr : list call) : nat :=
  length (List.filter (is_disconnect id) tr).

(** A signal source that has been started, with its [ended] handler [h],
    whether it has ended, and the stop time scheduled for it. *)
Definition source_state (w : World) (id : nat) (h : option nat) (e : bool)
    (st : option R) : Prop :=
  ∃ n, nodes w !! id = Some n ∧ started n = true ∧ ended n = e ∧
       stopTime n = st ∧ onended n = h.

Definition gain_state (w : World) (id : nat) : Prop :=
  ∃ n, nodes w !! id = Some n ∧ started n = false ∧ onended n = None.

(** The voice [vid] refers to the six nodes from [b] on, none of which has
    been disconnected; its three sources share the stop time [st] and the
    flag [e]. *)
Record owns (w : World) (vid b : nat) (e : bool) (st : option R) : Prop := {
  owns_voice : ∃ v, voices w !! vid = Some v ∧ holding b v ∧ adsr v;
  owns_bound : 6 + b ≤ nextNode w;
  owns_osc : source_state w b (Some vid) e st;
  owns_osc2 : source_state w (1 + b) None e st;
  owns_osc3 : source_state w (3 + b) None e st;
  owns_osc2scale : gain_state w (2 + b);
  owns_osc3scale : gain_state w (4 + b);
  owns_ampEnv : gain_state w (5 + b);
  owns_quiet : ∀ k, k < 6 → disconnects (k + b) (trace w) = 0
}.

(** Started and not disposed: sounding when no stop is scheduled
    ([st = None]), releasing until the scheduled stop time otherwise. *)
Definition Live (w : World) (vid b : nat) (st : option R) : Prop :=
  owns w vid b false st ∧ ∀ s, st = Some s → (currentTime w < s)%R.

(** The state of the world between two actions, and, with a list [rem] of
    nodes whose [ended] event is still to be delivered, during the delivery
    of the events of one clock step. *)
Record InvP (rem : list nat) (w : World) : Prop := {
  inv_voices : ∀ vid v, voices w !! vid = Some v →
    vid < nextVoice w ∧
    (all_null v ∨
     (∃ b, Live w vid b None ∧ ∃ n, activeVoices w !! n = Some vid) ∨
     (∃ b s, Live w vid b (Some s)) ∨
     (∃ b s, owns w vid b true (Some s) ∧ b ∈ rem));
  inv_registry : ∀ n vid, activeVoices w !! n = Some vid →
    ∃ b v, Live w vid b None ∧ voices w !! vid = Some v ∧
           frequency v = mtof (IZR n);
  inv_injective : ∀ n1 n2 vid,
    activeVoices w !! n1 = Some vid → activeVoices w !! n2 = Some vid → n1 = n2;
  inv_disjoint : ∀ vid1 vid2 v1 v2 b1 b2,
    voices w !! vid1 = Some v1 → voices w !! vid2 = Some v2 →
    holding b1 v1 → holding b2 v2 → vid1 ≠ vid2 →
    6 + b1 ≤ b2 ∨ 6 + b2 ≤ b1;
  inv_handlers : ∀ id n vid, nodes w !! id = Some n → onended n = Some vid →
    (ended n = false → ∃ st, Live w vid id st) ∧
    (id ∈ rem → ∃ s, owns w vid id true (Some s));
  inv_fresh : ∀ id, nextNode w ≤ id → disconnects id (trace w) = 0;
  inv_rem : NoDup rem;
  inv_uncaught : uncaught w = []
}.

Definition Inv (w : World) : Prop := InvP [] w.

(** The footprint of a voice is left alone between [w] and [w']. *)
Definition agree (vid b : nat) (w w' : World) : Prop :=
  voices w' !! vid = voices w !! vid ∧
  (∀ k, k < 6 → nodes w' !! (k + b) = nodes w !! (k + b)) ∧
  nextNode w ≤ nextNode w' ∧
  (∀ k, k < 6 → disconnects (k + b) (trace w') = disconnects (k + b) (trace w)).

(** What [startNote] does for a note without an entry, and what [stopNote]
    does for a note whose voice refers to the nodes from [b] on. *)
Definition new_voice (note : Z) (w : World) : Voice :=
  mkVoice (mtof (IZR note)) (randoms w (draws w)) masterGain
          0.02%R 0.01%R 0.5%R 0.5%R
          Undefined Undefined Undefined Undefined Undefined Undefined.

Definition registered (note : Z) (w : World) : World :=
  with_activeVoices (insert note (nextVoice w))
    (with_nextVoice (S (nextVoice w))
      (with_voices (insert (nextVoice w) (new_voice note w))
        (with_draws (S (draws w)) w))).

Definition startNote_effect (note : Z) (w : World) : World :=
  start_effect (nextVoice w) (new_voice note w) (registered note w).

Definition stopNote_effect (note : Z) (b : nat) (rel v0 : R) (w : World) : World :=
  with_activeVoices (delete note) (stop_effect b rel v0 w).

(** The world rendered at time [t], before the [ended] events are
    delivered. *)
Definition ticked (t : R) (w : World) : World :=
  with_nodes (fmap (render_node t)) (with_time t w).

(** ** Disposal *)

(** No voice refers to a node of the six from [b] on. *)
Definition apart (w : World) (b : nat) : Prop :=
  ∀ vid v b', voices w !! vid = Some v → holding b' v → 6 + b ≤ b' ∨ 6 + b' ≤ b.

(** A node without outgoing connection that will not end (again). *)
Definition spent (n : AudioNode) : Prop :=
  outputs n = [] ∧ (ended n = true ∨ started n = false).

(** The voice [vid], which referred to the six nodes from [b] on, has been
    disposed: its references are null, every one of its nodes has been
    disconnected exactly once and has no outgoing connection left. *)
Record Disposed (w : World) (vid b : nat) : Prop := {
  disposed_voice : ∃ v, voices w !! vid = Some v ∧ all_null v;
  disposed_bound : 6 + b ≤ nextNode w;
  disposed_nodes : ∀ k, k < 6 → ∃ n, nodes w !! (k + b) = Some n ∧ spent n;
  disposed_once : ∀ k, k < 6 → disconnects (k + b) (trace w) = 1;
  disposed_apart : apart w b
}.

(** A voice whose stop is scheduled at [s], while the [ended] events of the
    nodes [rem] are still to be delivered: releasing before [s]; ended and
    waiting for its handler; or disposed. *)
Definition TrackedP (rem : list nat) (w : World) (vid b : nat) (s : R) : Prop :=
  Live w vid b (Some s) ∨
  (owns w vid b true (Some s) ∧ b ∈ rem ∧ (s <= currentTime w)%R) ∨
  (Disposed w vid b ∧ (s <= currentTime w)%R).

Definition Tracked (w : World) (vid b : nat) (s : R) : Prop :=
  Live w vid b (Some s) ∨ (Disposed w vid b ∧ (s <= currentTime w)%R).

(** Time does not run backwards. *)
Definition forward (a : action) : Prop :=
  match a with
  | Advance dt => (0 <= dt)%R
  | _ => True
  end.

(** ** What the host accepts *)

(** The value given to a method of an [AudioParam] is converted to a 32-bit
    float, and the host raises a [TypeError] for a number that does not fit;
    the largest float is about 3.4028e38.  The model of the host above
    accepts every number. *)
Definition fits_float (x : R) : Prop := (Rabs x <= 3.4e38)%R.

(** The arguments of the host calls of [start] for the voice [v] at the
    time [now] are accepted by the host: the values fit a float, and no
    time is negative (the host raises a [RangeError] for a negative time). *)
Definition accepted (v : Voice) (now : R) : Prop :=
  fits_float (frequency v) ∧ fits_float (frequency v * 2) ∧
  fits_float (frequency v * 3) ∧
  fits_float (maxAmp v) ∧ fits_float (sustain v * maxAmp v) ∧
  (0 <= now ∧ 0 <= now + attack v ∧ 0 <= now + attack v + decay v)%R.

(** ** Calls and observations used in the statements *)

(** The call [startNote(noteId, frequency, amplitude)]: [startNote]
    declares one parameter, and the surplus arguments of a JavaScript call
    are dropped. *)
Definition noteOn (noteId : Z) (frequency amplitude : R) : M unit :=
  startNote noteId.

(** A random source that always returns the same value. *)
Definition constantly (r : R) : nat → R := λ _, r.

(** A world with one sounding voice, for note 60. *)
Definition one_note : World := run [StartNote 60] (initial (constantly 0.25%R)).


(** The envelope of the voice whose nodes start at [b], as scheduled in the
    world [w]: the intrinsic value of the gain of its envelope stage at
    time [t]. *)
Definition envelope_at (w : World) (b : nat) (t : R) : R :=
  match nodes w !! (5 + b) with
  | Some n => param_value_at (param n) t
  | None => 0%R
  end.

(** The timeline left by [start] at time [t0] for the peak amplitude [a]. *)
Definition start_events (a t0 : R) : list event :=
  [SetValue 0 t0; LinearRamp a (t0 + 0.02); LinearRamp (0.5 * a) (t0 + 0.02 + 0.01)]%R.

(** The voice [vid] of [note], started at time [t0] with the peak amplitude
    [a], is sounding: it is registered, no stop is scheduled, its envelope
    timeline is the one left by [start], and the slot of the envelope gain
    holds the value rendered last, or still the default 1 of a new gain
    stage when nothing has been rendered since the start. *)
Record Sounding (w : World) (note : Z) (vid b : nat) (a t0 : R) : Prop := {
  sounding_registry : activeVoices w !! note = Some vid;
  sounding_live : Live w vid b None;
  sounding_time : (t0 <= currentTime w)%R;
  sounding_envelope : ∃ n,
    nodes w !! (5 + b) = Some n ∧
    events (param n) = start_events a t0 ∧
    ((value (param n) = 1%R ∧ currentTime w = t0) ∨
     value (param n) = param_value_at (param n) (currentTime w))
}.


(** ** The keyboard of [synth.js] *)

From stdpp Require Import strings.

(** [noteMap]: the own properties of the object, the keys of the keyboard
    with their note numbers. *)
Definition noteMap : gmap string Z :=
  list_to_map
    [("a", 60); ("w", 61); ("s", 62); ("e", 63); ("d", 64); ("f", 65);
     ("t", 66); ("g", 67); ("y", 68); ("h", 69); ("u", 70); ("j", 71);
     ("k", 72); ("o", 73); ("l", 74); ("p", 75); (";", 76)]%Z.

(** [noteMap] is an object literal: besides its own properties it answers
    the names every object inherits from [Object.prototype]. *)
Definition Object_prototype : list string :=
  ["constructor"; "__defineGetter__"; "__defineSetter__"; "hasOwnProperty";
   "__lookupGetter__"; "__lookupSetter__"; "isPrototypeOf";
   "propertyIsEnumerable"; "toString"; "valueOf"; "__proto__";
   "toLocaleString"].

(** The value of [noteMap[key]]: the note of an own property; [undefined]
    for a name that is neither own nor inherited; for an inherited name a
    function or an object, which is truthy and no note. *)
Inductive property : Type :=
  | Note (n : Z)
  | Missing
  | Inherited.

Definition noteMap_get (key : string) : property :=
  match noteMap !! key with
  | Some n => Note n
  | None => if bool_decide (key ∈ Object_prototype) then Inherited else Missing
  end.

(** A number is truthy unless it is 0. *)
Definition truthy (n : Z) : bool := negb (Z.eqb n 0).

(** The listener of [keydown], for the value [key] of [e.key].  For an
    inherited name the listener calls [startNote] with a value that is not
    a note number; this call is outside the development, and the listener
    is left undefined there ([None]). *)
Definition keydown (key : string) : option (M unit) :=
  match noteMap_get key with
  | Note n => Some (if truthy n then startNote n else ret tt)
  | Missing => Some (ret tt)
  | Inherited => None
  end.

(** The listener of [keyup], likewise. *)
Definition keyup (key : string) : option (M unit) :=
  match noteMap_get key with
  | Note n => Some (if truthy n then stopNote n else ret tt)
  | Missing => Some (ret tt)
  | Inherited => None
  end.

(** What a player does: keys go down and up, time passes. *)
Inductive input : Type :=
  | KeyDown (key : string)
  | KeyUp (key : string)
  | Wait (dt : R).

Definition handle (i : input) : option (M unit) :=
  match i with
  | KeyDown key => keydown key
  | KeyUp key => keyup key
  | Wait dt => Some (advance dt)
  end.

(** The world after a list of inputs, as far as the listeners are defined;
    an exception of one listener does not prevent the next ones. *)
Fixpoint play (inputs : list input) (w : World) : option World :=
  match inputs with
  | [] => Some w
  | i :: rest =>
      match handle i with
      | Some m => play rest (m w).2
      | None => None
      end
  end.

(** An input of a keyboard: the value of [e.key] is a character or the name
    of a named key, not the name of an inherited member. *)
Definition ordinary (i : input) : Prop :=
  match i with
  | KeyDown key | KeyUp key => key ∉ Object_prototype
  | Wait _ => True
  end.

(** The calls of [startNote] and [stopNote] made for a list of inputs. *)
Definition action_of (i : input) : option action :=
  match i with
  | KeyDown key => StartNote <$> noteMap !! key
  | KeyUp key => StopNote <$> noteMap !! key
  | Wait dt => Some (Advance dt)
  end.

(** ** The master gain *)

(** [masterGain] as the module leaves it: gain 0.125, connected to the
    destination. *)
Definition master_node : AudioNode :=
  mkNode GainNode (mkParam 0.125%R [SetValue 0.125%R 0%R]) Sine
         false None false None [destination].

(** Nothing but the module itself refers to the first two nodes: the
    destination and the master gain are as the module left them, and every
    voice is connected to the master gain. *)
Record Wired (w : World) : Prop := {
  wired_master : nodes w !! masterGain = Some master_node;
  wired_destination : nodes w !! destination = Some destination_node;
  wired_next : 2 ≤ nextNode w;
  wired_voices : ∀ vid v, voices w !! vid = Some v → output v = masterGain;
  wired_bases : ∀ vid v b, voices w !! vid = Some v → holding b v → 2 ≤ b
}.

(** One voice per call of the constructor, six nodes and one random number
    per voice. *)
Definition Counted (w : World) : Prop :=
  nextNode w = 2 + 6 * nextVoice w ∧ draws w = nextVoice w ∧
  ∀ vid, is_Some (voices w !! vid) ↔ vid < nextVoice w.

(** The notes of the keyboard. *)
Definition keyboard_notes : list Z := seqZ 60 17.

(** * Proofs *)

(** ** The closed forms *)

Lemma constructor_eq freq amp out w :
  constructor freq amp out w =
  (Ok (nextVoice w),
   with_nextVoice (S (nextVoice w))
     (with_voices (insert (nextVoice w)
        (mkVoice freq amp out 0.02%R 0.01%R 0.5%R 0.5%R
                 Undefined Undefined Undefined Undefined Undefined Undefined)) w)).
Proof. reflexivity. Qed.

Lemma start_eq this v w :
  voices w !! this = Some v →
  start this w = (Ok tt, start_effect this v w).
Proof.
  intros Hv. destruct w as [t N b tr V nv AV rnd d u]. simpl in Hv.
  destruct v as [f a out att dec sus rel o o2 o2s o3 o3s e].
  unfold start_effect, start_calls, held, with_refs, envelope_node, attack_decay,
    source_node, scale_node; simpl.
  rewrite <- (insert_insert_eq V this _ (mkVoice f a out att dec sus rel o o2 o2s o3 o3s e)).
  rewrite (insert_id V this _ Hv) at 1.
  rewrite <- (insert_id V this _ Hv) at 1.
  unfold start.
  repeat hstep.
  rewrite <- !app_assoc. simpl.
  reflexivity.
Qed.

Lemma stop_eq this b v w n0 n1 n3 ne :
  voices w !! this = Some v → holding b v →
  nodes w !! b = Some n0 → started n0 = true →
  nodes w !! (1 + b) = Some n1 → started n1 = true →
  nodes w !! (3 + b) = Some n3 → started n3 = true →
  nodes w !! (5 + b) = Some ne →
  stop this w = (Ok tt, stop_effect b (release v) (value (param ne)) w).
Proof.
  intros Hv (H0 & H1 & H2 & H3 & H4 & H5) Hn0 Hs0 Hn1 Hs1 Hn3 Hs3 Hne.
  destruct w as [t N nn tr V nv AV rnd d u]. simpl in *.
  destruct v as [f a out att dec sus rel o o2 o2s o3 o3s e]. simpl in *. subst.
  destruct n0 as [k0 p0 ty0 st0 sp0 en0 h0 out0], n1 as [k1 p1 ty1 st1 sp1 en1 h1 out1],
    n3 as [k3 p3 ty3 st3 sp3 en3 h3 out3]. simpl in *. subst.
  unfold stop_effect, stop_calls, with_trace, with_nodes; simpl.
  rewrite <- (insert_id V this _ Hv).
  rewrite <- (insert_id N _ _ Hn3) at 1.
  rewrite <- (insert_id N _ _ Hn1) at 1.
  rewrite <- (insert_id N _ _ Hn0) at 1.
  rewrite <- (insert_id N _ _ Hne) at 1.
  unfold stop.
  repeat hstep.
  rewrite <- !app_assoc. simpl.
  do 2 f_equal.
  apply map_eq. intros i.
  destruct (decide (i = b)) as [->|]; [lookups; rewrite Hn0; reflexivity|].
  destruct (decide (i = 1 + b)) as [->|]; [lookups; rewrite Hn1; reflexivity|].
  destruct (decide (i = 3 + b)) as [->|]; [lookups; rewrite Hn3; reflexivity|].
  destruct (decide (i = 5 + b)) as [->|]; [lookups; rewrite Hne; reflexivity|].
  lookups. reflexivity.
Qed.

Lemma dispose_eq this b v w :
  voices w !! this = Some v → holding b v →
  (∀ k, k < 6 → is_Some (nodes w !! (k + b))) →
  dispose this w = (Ok tt, dispose_effect this b w).
Proof.
  intros Hv (H0 & H1 & H2 & H3 & H4 & H5) Hn.
  destruct (Hn 0) as [n0 Hn0]; [lia|]. destruct (Hn 1) as [n1 Hn1]; [lia|].
  destruct (Hn 2) as [n2 Hn2]; [lia|]. destruct (Hn 3) as [n3 Hn3]; [lia|].
  destruct (Hn 4) as [n4 Hn4]; [lia|]. destruct (Hn 5) as [n5 Hn5]; [lia|].
  clear Hn.
  destruct w as [t N nn tr V nv AV rnd d u]. simpl in *.
  destruct v as [f a out att dec sus rel o o2 o2s o3 o3s e]. simpl in *. subst.
  unfold dispose_effect, dispose_calls, with_trace, with_nodes, with_voices; simpl.
  rewrite <- (insert_id V this _ Hv).
  rewrite <- (insert_id N _ _ Hn5) at 1.
  rewrite <- (insert_id N _ _ Hn4) at 1.
  rewrite <- (insert_id N _ _ Hn3) at 1.
  rewrite <- (insert_id N _ _ Hn2) at 1.
  rewrite <- (insert_id N _ _ Hn1) at 1.
  rewrite <- (insert_id N _ _ Hn0) at 1.
  unfold dispose.
  repeat hstep.
  rewrite <- !app_assoc. simpl.
  do 2 f_equal.
  apply map_eq. intros i.
  destruct (decide (i = b)) as [->|]; [lookups; rewrite Hn0; reflexivity|].
  destruct (decide (i = 1 + b)) as [->|]; [lookups; rewrite Hn1; reflexivity|].
  destruct (decide (i = 2 + b)) as [->|]; [lookups; rewrite Hn2; reflexivity|].
  destruct (decide (i = 3 + b)) as [->|]; [lookups; rewrite Hn3; reflexivity|].
  destruct (decide (i = 4 + b)) as [->|]; [lookups; rewrite Hn4; reflexivity|].
  destruct (decide (i = 5 + b)) as [->|]; [lookups; rewrite Hn5; reflexivity|].
  lookups. reflexivity.
Qed.

(* failing derefs *)
Lemma stop_throws this v w :
  voices w !! this = Some v → ampEnv v = Undefined ∨ ampEnv v = Null →
  stop this w = (Throw TypeError, w).
Proof.
  intros Hv He. destruct w as [t N nn tr V nv AV rnd d u]. simpl in Hv.
  destruct v as [f a out att dec sus rel o o2 o2s o3 o3s e]. simpl in He.
  unfold stop. hred. rewrite Hv. hred.
  destruct He as [-> | ->]; reflexivity.
Qed.
(** ** Counting the calls to [disconnect] *)

Lemma disconnects_app id tr1 tr2 :
  disconnects id (tr1 ++ tr2) = disconnects id tr1 + disconnects id tr2.
Proof. unfold disconnects. rewrite List.filter_app, length_app. reflexivity. Qed.

Lemma disconnects_start_calls id v now b : disconnects id (start_calls v now b) = 0.
Proof. reflexivity. Qed.

Lemma disconnects_stop_calls id b rel v0 now : disconnects id (stop_calls b rel v0 now) = 0.
Proof. reflexivity. Qed.

Lemma is_disconnect_eq id : is_disconnect id (Disconnect id) = true.
Proof. simpl. apply Nat.eqb_refl. Qed.

Lemma is_disconnect_ne id j : j ≠ id → is_disconnect id (Disconnect j) = false.
Proof. intros H. simpl. apply Nat.eqb_neq. exact H. Qed.

Lemma disconnects_dispose_calls_out id b :
  id < b ∨ 6 + b ≤ id → disconnects id (dispose_calls b) = 0.
Proof.
  intros H. unfold disconnects, dispose_calls. cbn [List.filter].
  rewrite !is_disconnect_ne by lia. reflexivity.
Qed.

Lemma disconnects_dispose_calls_in k b :
  k < 6 → disconnects (k + b) (dispose_calls b) = 1.
Proof.
  intros H. unfold disconnects, dispose_calls.
  destruct k as [|[|[|[|[|[|k]]]]]]; try lia; cbn [List.filter];
    rewrite is_disconnect_eq, !is_disconnect_ne by lia; reflexivity.
Qed.

(** ** Frames *)

Lemma holding_inj b b' v : holding b v → holding b' v → b = b'.
Proof. intros (H & _) (H' & _). congruence. Qed.

Lemma holding_not_null b v : holding b v → all_null v → False.
Proof. intros (H & _) (H' & _). congruence. Qed.

Lemma holding_held b v : holding b (held b v).
Proof. repeat split. Qed.

Lemma all_null_nulled v : all_null (nulled v).
Proof. repeat split. Qed.

Lemma agree_refl vid b w : agree vid b w w.
Proof. split; [|split; [|split]]; auto. Qed.

Lemma agree_trans vid b w1 w2 w3 :
  agree vid b w1 w2 → agree vid b w2 w3 → agree vid b w1 w3.
Proof.
  intros (A1 & A2 & A3 & A4) (B1 & B2 & B3 & B4). split; [|split; [|split]].
  - congruence.
  - intros k Hk. rewrite B2, A2 by exact Hk. reflexivity.
  - lia.
  - intros k Hk. rewrite B4, A4 by exact Hk. reflexivity.
Qed.

Lemma source_state_agree w w' id h e st :
  nodes w' !! id = nodes w !! id → source_state w id h e st → source_state w' id h e st.
Proof. intros H (n & Hn & Hs). exists n. rewrite H. auto. Qed.

Lemma gain_state_agree w w' id :
  nodes w' !! id = nodes w !! id → gain_state w id → gain_state w' id.
Proof. intros H (n & Hn & Hs). exists n. rewrite H. auto. Qed.

Lemma owns_agree vid b w w' e st :
  agree vid b w w' → owns w vid b e st → owns w' vid b e st.
Proof.
  intros (A1 & A2 & A3 & A4) [Hv Hb H0 H1 H3 H2 H4 H5 Hq].
  split.
  - rewrite A1. exact Hv.
  - lia.
  - eapply source_state_agree; [|exact H0]. apply (A2 0). lia.
  - eapply source_state_agree; [|exact H1]. apply (A2 1). lia.
  - eapply source_state_agree; [|exact H3]. apply (A2 3). lia.
  - eapply gain_state_agree; [|exact H2]. apply (A2 2). lia.
  - eapply gain_state_agree; [|exact H4]. apply (A2 4). lia.
  - eapply gain_state_agree; [|exact H5]. apply (A2 5). lia.
  - intros k Hk. rewrite A4 by exact Hk. auto.
Qed.

Lemma Live_agree vid b w w' st :
  agree vid b w w' → currentTime w' = currentTime w →
  Live w vid b st → Live w' vid b st.
Proof.
  intros A T (Ho & Hp). split; [eapply owns_agree; eauto|].
  rewrite T. exact Hp.
Qed.

Lemma agree_start vid b this v w :
  vid ≠ this → 6 + b ≤ nextNode w → agree vid b w (start_effect this v w).
Proof.
  intros Hne Hb. unfold agree, start_effect. simpl. split; [|split; [|split]].
  - rewrite lookup_insert_ne by auto. reflexivity.
  - intros k Hk. lookups. reflexivity.
  - lia.
  - intros k Hk. rewrite disconnects_app, disconnects_start_calls. lia.
Qed.

Lemma agree_stop vid b b0 rel v0 w :
  6 + b ≤ b0 ∨ 6 + b0 ≤ b → agree vid b w (stop_effect b0 rel v0 w).
Proof.
  intros Hd. unfold agree, stop_effect. simpl. split; [|split; [|split]].
  - reflexivity.
  - intros k Hk. lookups. reflexivity.
  - lia.
  - intros k Hk. rewrite disconnects_app, disconnects_stop_calls. lia.
Qed.

Lemma agree_dispose vid b this b0 w :
  vid ≠ this → 6 + b ≤ b0 ∨ 6 + b0 ≤ b → agree vid b w (dispose_effect this b0 w).
Proof.
  intros Hne Hd. unfold agree, dispose_effect. simpl. split; [|split; [|split]].
  - rewrite lookup_alter_ne by auto. reflexivity.
  - intros k Hk. lookups. reflexivity.
  - lia.
  - intros k Hk. rewrite disconnects_app, disconnects_dispose_calls_out by lia. lia.
Qed.

Lemma owns_holding w vid b e st v :
  owns w vid b e st → voices w !! vid = Some v → holding b v ∧ adsr v.
Proof. intros [(v' & Hv' & Hh & Ha) _ _ _ _ _ _ _ _] Hv. split; congruence. Qed.

Lemma owns_inj w vid b b' e e' st st' :
  owns w vid b e st → owns w vid b' e' st' → b = b' ∧ e = e' ∧ st = st'.
Proof.
  intros H H'. destruct (owns_voice _ _ _ _ _ H) as (v & Hv & Hh & _).
  destruct (owns_holding _ _ _ _ _ _ H' Hv) as (Hh' & _).
  assert (b = b') as <- by (eapply holding_inj; eauto).
  destruct (owns_osc _ _ _ _ _ H) as (n & Hn & _ & He & Hs & _).
  destruct (owns_osc _ _ _ _ _ H') as (n' & Hn' & _ & He' & Hs' & _).
  assert (n = n') by congruence. subst n'. repeat split; congruence.
Qed.
(** ** The registry handlers in closed form *)

Lemma startNote_noop note vid w :
  activeVoices w !! note = Some vid → startNote note w = (Ok tt, w).
Proof. intros H. unfold startNote, bind, gets. rewrite H. reflexivity. Qed.

Lemma startNote_eq note w :
  activeVoices w !! note = None →
  startNote note w = (Ok tt, startNote_effect note w).
Proof.
  intros H. unfold startNote, bind at 1, gets at 1. rewrite H.
  unfold startNote_effect.
  unfold Math_random, constructor, active_voice, bind, gets, modify, ret. simpl.
  rewrite lookup_insert_eq.
  apply (start_eq (nextVoice w) (new_voice note w) (registered note w)).
  simpl. apply lookup_insert_eq.
Qed.

Lemma stopNote_noop note w :
  activeVoices w !! note = None → stopNote note w = (Ok tt, w).
Proof. intros H. unfold stopNote, bind, gets. rewrite H. reflexivity. Qed.

Lemma stopNote_step note vid w :
  activeVoices w !! note = Some vid →
  stopNote note w =
  match stop vid w with
  | (Ok _, w') => (Ok tt, with_activeVoices (delete note) w')
  | (Throw e, w') => (Throw e, w')
  end.
Proof.
  intros H. unfold stopNote, bind at 1, gets at 1. rewrite H.
  unfold active_voice, bind, gets, ret. rewrite H.
  destruct (stop vid w) as [[[]|e] w']; reflexivity.
Qed.
(** ** The invariant is kept by [startNote] *)

Lemma adsr_new_voice note w : adsr (new_voice note w).
Proof. repeat split. Qed.

Lemma owns_start this v w :
  adsr v →
  (∀ id, nextNode w ≤ id → disconnects id (trace w) = 0) →
  owns (start_effect this v w) this (nextNode w) false None.
Proof.
  intros Ha Hf. split.
  - exists (held (nextNode w) v). split; [apply lookup_insert_eq|].
    split; [apply holding_held | exact Ha].
  - simpl. lia.
  - eexists. split; [simpl; lookups; reflexivity|]. repeat split.
  - eexists. split; [simpl; lookups; reflexivity|]. repeat split.
  - eexists. split; [simpl; lookups; reflexivity|]. repeat split.
  - eexists. split; [simpl; lookups; reflexivity|]. repeat split.
  - eexists. split; [simpl; lookups; reflexivity|]. repeat split.
  - eexists. split; [simpl; lookups; reflexivity|]. repeat split.
  - intros k Hk. simpl. rewrite disconnects_app, disconnects_start_calls.
    rewrite Hf by lia. reflexivity.
Qed.

Lemma agree_registered vid b note w :
  vid ≠ nextVoice w → agree vid b w (registered note w).
Proof.
  intros Hne. unfold agree, registered. simpl. split; [|split; [|split]]; auto.
  rewrite lookup_insert_ne by auto. reflexivity.
Qed.

Lemma Live_bound w vid b st : Live w vid b st → 6 + b ≤ nextNode w.
Proof. intros (H & _). apply (owns_bound _ _ _ _ _ H). Qed.

Lemma Live_voice w vid b st :
  Live w vid b st → ∃ v, voices w !! vid = Some v ∧ holding b v ∧ adsr v.
Proof. intros (H & _). apply (owns_voice _ _ _ _ _ H). Qed.

Lemma Live_startNote note w vid b st :
  vid ≠ nextVoice w → Live w vid b st → Live (startNote_effect note w) vid b st.
Proof.
  intros Hne HL. eapply Live_agree; [| |exact HL].
  - eapply agree_trans; [apply agree_registered; exact Hne|].
    apply agree_start; [exact Hne|]. simpl. eapply Live_bound; eauto.
  - reflexivity.
Qed.

(** In a world between two actions, a voice that refers to nodes is live. *)
Lemma Inv_holding w vid v b :
  Inv w → voices w !! vid = Some v → holding b v → ∃ st, Live w vid b st.
Proof.
  intros HI Hv Hh. destruct (inv_voices _ _ HI vid v Hv) as (_ & [Hn|[H|[H|H]]]).
  - destruct (holding_not_null _ _ Hh Hn).
  - destruct H as (b' & HL & _). destruct (Live_voice _ _ _ _ HL) as (v' & Hv' & Hh' & _).
    assert (v' = v) by congruence. subst v'.
    rewrite (holding_inj _ _ _ Hh Hh'). eauto.
  - destruct H as (b' & s & HL). destruct (Live_voice _ _ _ _ HL) as (v' & Hv' & Hh' & _).
    assert (v' = v) by congruence. subst v'.
    rewrite (holding_inj _ _ _ Hh Hh'). eauto.
  - destruct H as (b' & s & _ & Hin). apply elem_of_nil in Hin. destruct Hin.
Qed.

Lemma Inv_startNote note w :
  Inv w → activeVoices w !! note = None → Inv (startNote_effect note w).
Proof.
  intros HI Hnone.
  pose proof HI as [Hv Hr Hi Hd Hh Hf Hrem Hu].
  set (vid := nextVoice w). set (b := nextNode w).
  assert (Hlt : ∀ vid' v', voices w !! vid' = Some v' → vid' ≠ vid).
  { intros vid' v' H. destruct (Hv vid' v' H) as (Hlt & _). unfold vid. lia. }
  assert (Hnew : Live (startNote_effect note w) vid b None).
  { split; [|intros s Hs; discriminate].
    apply (owns_start vid (new_voice note w) (registered note w)).
    - apply adsr_new_voice.
    - exact Hf. }
  assert (Hvo : ∀ vid', vid' ≠ vid →
            voices (startNote_effect note w) !! vid' = voices w !! vid').
  { intros vid' Hne. simpl. rewrite !lookup_insert_ne by auto. reflexivity. }
  assert (Hvn : voices (startNote_effect note w) !! vid =
                Some (held b (new_voice note w))).
  { simpl. apply lookup_insert_eq. }
  split.
  - (* voices *)
    intros vid' v' Hlook. destruct (decide (vid' = vid)) as [->|Hne].
    + split; [simpl; unfold vid; lia|]. right; left. exists b. split; [exact Hnew|].
      exists note. simpl. apply lookup_insert_eq.
    + rewrite Hvo in Hlook by exact Hne.
      destruct (Hv vid' v' Hlook) as (Hlt' & Hc). split; [simpl; lia|].
      destruct Hc as [Hn|[H|[H|H]]].
      * left. exact Hn.
      * right; left. destruct H as (b' & HL & n & Hn). exists b'.
        split; [apply Live_startNote; assumption|].
        exists n. simpl. rewrite lookup_insert_ne; [exact Hn|congruence].
      * right; right; left. destruct H as (b' & s & HL). exists b', s.
        apply Live_startNote; assumption.
      * destruct H as (b' & s & _ & Hin). apply elem_of_nil in Hin. destruct Hin.
  - (* registry *)
    intros n vid' Hn. simpl in Hn. destruct (decide (n = note)) as [->|Hne].
    + rewrite lookup_insert_eq in Hn. injection Hn as <-.
      exists b, (held b (new_voice note w)).
      split; [exact Hnew|split; [exact Hvn|reflexivity]].
    + rewrite lookup_insert_ne in Hn by congruence.
      destruct (Hr n vid' Hn) as (b' & v' & HL & Hlook & Hfreq).
      exists b', v'. split; [|split; [|exact Hfreq]].
      * apply Live_startNote; [eapply Hlt; eauto|exact HL].
      * rewrite Hvo; [exact Hlook|eapply Hlt; eauto].
  - (* injectivity *)
    intros n1 n2 vid' H1 H2. simpl in H1, H2.
    destruct (decide (n1 = note)) as [->|Hne1], (decide (n2 = note)) as [->|Hne2];
      [reflexivity| | |].
    + rewrite lookup_insert_eq in H1. injection H1 as <-.
      rewrite lookup_insert_ne in H2 by congruence.
      destruct (Hr n2 _ H2) as (b' & v' & _ & Hlook & _).
      destruct (Hlt _ _ Hlook). reflexivity.
    + rewrite lookup_insert_eq in H2. injection H2 as <-.
      rewrite lookup_insert_ne in H1 by congruence.
      destruct (Hr n1 _ H1) as (b' & v' & _ & Hlook & _).
      destruct (Hlt _ _ Hlook). reflexivity.
    + rewrite lookup_insert_ne in H1, H2 by congruence. eapply Hi; eauto.
  - (* disjointness *)
    assert (Hold : ∀ vid' v' b', vid' ≠ vid →
              voices (startNote_effect note w) !! vid' = Some v' → holding b' v' →
              6 + b' ≤ b).
    { intros vid' v' b' Hne Hlook Hhold. rewrite Hvo in Hlook by exact Hne.
      destruct (Inv_holding _ _ _ _ HI Hlook Hhold) as (st & HL).
      apply (Live_bound _ _ _ _ HL). }
    intros vid1 vid2 v1 v2 b1 b2 H1 H2 Hh1 Hh2 Hne.
    destruct (decide (vid1 = vid)) as [->|Hne1], (decide (vid2 = vid)) as [->|Hne2].
    + congruence.
    + rewrite Hvn in H1. injection H1 as <-.
      rewrite (holding_inj _ _ _ Hh1 (holding_held b _)).
      right. eapply Hold; eauto.
    + rewrite Hvn in H2. injection H2 as <-.
      rewrite (holding_inj _ _ _ Hh2 (holding_held b _)).
      left. eapply Hold; eauto.
    + rewrite Hvo in H1, H2 by assumption.
      exact (Hd _ _ _ _ _ _ H1 H2 Hh1 Hh2 Hne).
  - (* handlers *)
    intros id n vid' Hn Hon. split; [|intros Hin; apply elem_of_nil in Hin; destruct Hin].
    intros Hend. simpl in Hn. fold b in Hn.
    destruct (decide (id = 5 + b)) as [->|]; [revert Hn; lookups; intros [= <-]; discriminate|].
    destruct (decide (id = 4 + b)) as [->|]; [revert Hn; lookups; intros [= <-]; discriminate|].
    destruct (decide (id = 3 + b)) as [->|]; [revert Hn; lookups; intros [= <-]; discriminate|].
    destruct (decide (id = 2 + b)) as [->|]; [revert Hn; lookups; intros [= <-]; discriminate|].
    destruct (decide (id = 1 + b)) as [->|]; [revert Hn; lookups; intros [= <-]; discriminate|].
    destruct (decide (id = b)) as [->|].
    + revert Hn; lookups; intros [= <-]. simpl in Hon. injection Hon as <-.
      exists None. exact Hnew.
    + revert Hn; lookups; intros Hn.
      destruct (Hh id n vid' Hn Hon) as (HL & _). destruct (HL Hend) as (st & HL').
      exists st. apply Live_startNote; [|exact HL'].
      destruct (Live_voice _ _ _ _ HL') as (v' & Hlook & _). eapply Hlt; eauto.
  - (* fresh *)
    intros id Hid. simpl in *. rewrite disconnects_app, disconnects_start_calls.
    rewrite Hf by lia. reflexivity.
  - constructor.
  - exact Hu.
Qed.
(** ** The invariant is kept by [stopNote] *)

Lemma halt_live s n : ended n = false → halt s n = set_stopTime s n.
Proof. intros H. unfold halt. rewrite H. reflexivity. Qed.

Lemma halt_fields s n :
  started (halt s n) = started n ∧ ended (halt s n) = ended n ∧
  onended (halt s n) = onended n ∧ outputs (halt s n) = outputs n ∧
  param (halt s n) = param n.
Proof. unfold halt. destruct (ended n) eqn:E; repeat split; simpl; auto. Qed.

(** [stop] on a live voice: it returns, and the voice is releasing. *)
Lemma stop_Live w vid b st :
  Live w vid b st →
  ∃ ne, nodes w !! (5 + b) = Some ne ∧
        stop vid w = (Ok tt, stop_effect b 0.5 (value (param ne)) w).
Proof.
  intros ([(v & Hv & Hh & Ha) _ (n0 & Hn0 & Hs0 & _) (n1 & Hn1 & Hs1 & _)
           (n3 & Hn3 & Hs3 & _) _ _ (ne & Hne & _) _] & _).
  exists ne. split; [exact Hne|].
  destruct Ha as (_ & _ & _ & Hrel). rewrite <- Hrel.
  eapply stop_eq; eauto.
Qed.

Lemma Live_stop w vid b st v0 :
  Live w vid b st →
  Live (stop_effect b 0.5 v0 w) vid b (Some (currentTime w + 0.5 + 0.01)%R).
Proof.
  intros ([Hv Hb (n0 & Hn0 & Hs0 & He0 & _ & Hh0) (n1 & Hn1 & Hs1 & He1 & _ & Hh1)
           (n3 & Hn3 & Hs3 & He3 & _ & Hh3) (n2 & Hn2 & Hg2) (n4 & Hn4 & Hg4)
           (ne & Hne & Hge) Hq] & _).
  split; [split|].
  - exact Hv.
  - exact Hb.
  - exists (set_stopTime (currentTime w + 0.5 + 0.01) n0). unfold stop_effect; wsimpl. lookups.
    rewrite Hn0. simpl. rewrite halt_live by exact He0. repeat split; auto.
  - exists (set_stopTime (currentTime w + 0.5 + 0.01) n1). unfold stop_effect; wsimpl. lookups.
    rewrite Hn1. simpl. rewrite halt_live by exact He1. repeat split; auto.
  - exists (set_stopTime (currentTime w + 0.5 + 0.01) n3). unfold stop_effect; wsimpl. lookups.
    rewrite Hn3. simpl. rewrite halt_live by exact He3. repeat split; auto.
  - exists n2. unfold stop_effect; wsimpl. lookups. auto.
  - exists n4. unfold stop_effect; wsimpl. lookups. auto.
  - eexists. unfold stop_effect; wsimpl. lookups. rewrite Hne. simpl. split; [reflexivity|]. exact Hge.
  - intros k Hk. unfold stop_effect; wsimpl. rewrite disconnects_app, disconnects_stop_calls.
    rewrite Hq by exact Hk. reflexivity.
  - intros s [= <-]. simpl. lra.
Qed.

Lemma stop_effect_node b rel v0 w id n' :
  nodes (stop_effect b rel v0 w) !! id = Some n' →
  ∃ n, nodes w !! id = Some n ∧ onended n' = onended n ∧ ended n' = ended n.
Proof.
  unfold stop_effect; wsimpl. intros H.
  destruct (decide (id = 3 + b)) as [->|].
  { revert H; lookups. destruct (nodes w !! (3 + b)) as [m|]; [|discriminate].
    intros [= <-]. exists m.
    destruct (halt_fields (currentTime w + rel + 0.01) m) as (_ & ? & ? & _); auto. }
  destruct (decide (id = 1 + b)) as [->|].
  { revert H; lookups. destruct (nodes w !! (1 + b)) as [m|]; [|discriminate].
    intros [= <-]. exists m.
    destruct (halt_fields (currentTime w + rel + 0.01) m) as (_ & ? & ? & _); auto. }
  destruct (decide (id = b)) as [->|].
  { revert H; lookups. destruct (nodes w !! b) as [m|]; [|discriminate].
    intros [= <-]. exists m.
    destruct (halt_fields (currentTime w + rel + 0.01) m) as (_ & ? & ? & _); auto. }
  destruct (decide (id = 5 + b)) as [->|].
  { revert H; lookups. destruct (nodes w !! (5 + b)) as [m|]; [|discriminate].
    intros [= <-]. exists m. auto. }
  revert H; lookups. intros H. exists n'. auto.
Qed.

Lemma Inv_registered w note vid :
  Inv w → activeVoices w !! note = Some vid → ∃ b, Live w vid b None.
Proof.
  intros HI H. destruct (inv_registry _ _ HI note vid H) as (b & v & HL & _). eauto.
Qed.

Lemma Inv_disjoint_Live w vid1 vid2 b1 b2 st1 st2 :
  Inv w → Live w vid1 b1 st1 → Live w vid2 b2 st2 → vid1 ≠ vid2 →
  6 + b1 ≤ b2 ∨ 6 + b2 ≤ b1.
Proof.
  intros HI H1 H2 Hne.
  destruct (Live_voice _ _ _ _ H1) as (v1 & Hv1 & Hh1 & _).
  destruct (Live_voice _ _ _ _ H2) as (v2 & Hv2 & Hh2 & _).
  exact (inv_disjoint _ _ HI _ _ _ _ _ _ Hv1 Hv2 Hh1 Hh2 Hne).
Qed.

Lemma Live_stopNote w note vid b v0 vid' b' st :
  Inv w → Live w vid b None → Live w vid' b' st → vid' ≠ vid →
  Live (stopNote_effect note b 0.5 v0 w) vid' b' st.
Proof.
  intros HI HL HL' Hne. eapply Live_agree; [| |exact HL'].
  - apply (agree_trans _ _ _ (stop_effect b 0.5 v0 w)).
    + apply agree_stop. eapply Inv_disjoint_Live; eauto.
    + split; [|split; [|split]]; auto.
  - reflexivity.
Qed.

Lemma Inv_stopNote w note vid b v0 :
  Inv w → activeVoices w !! note = Some vid → Live w vid b None →
  Inv (stopNote_effect note b 0.5 v0 w).
Proof.
  intros HI Hnote HL.
  pose proof HI as [Hv Hr Hi Hd Hh Hf Hrem Hu].
  set (s := (currentTime w + 0.5 + 0.01)%R).
  assert (Hrel : Live (stopNote_effect note b 0.5 v0 w) vid b (Some s)).
  { eapply Live_agree; [| |apply (Live_stop w vid b None v0 HL)].
    - split; [|split; [|split]]; auto.
    - reflexivity. }
  split.
  - (* voices *)
    intros vid' v' Hlook. simpl in Hlook.
    destruct (Hv vid' v' Hlook) as (Hlt & Hc). split; [exact Hlt|].
    destruct (decide (vid' = vid)) as [->|Hne].
    { right; right; left. exists b, s. exact Hrel. }
    destruct Hc as [Hn|[H|[H|H]]].
    + left. exact Hn.
    + right; left. destruct H as (b' & HL' & n & Hn). exists b'.
      split; [apply (Live_stopNote w note vid b v0); assumption|].
      exists n. simpl. rewrite lookup_delete_ne; [exact Hn|].
      intros <-. congruence.
    + right; right; left. destruct H as (b' & s' & HL'). exists b', s'.
      apply (Live_stopNote w note vid b v0); assumption.
    + destruct H as (b' & s' & _ & Hin). apply elem_of_nil in Hin. destruct Hin.
  - (* registry *)
    intros n vid' Hn. simpl in Hn.
    destruct (decide (n = note)) as [->|Hne]; [rewrite lookup_delete_eq in Hn; discriminate|].
    rewrite lookup_delete_ne in Hn by congruence.
    destruct (Hr n vid' Hn) as (b' & v' & HL' & Hlook & Hfreq).
    exists b', v'. split; [|split; [exact Hlook|exact Hfreq]].
    apply (Live_stopNote w note vid b v0); try assumption.
    intros ->. apply Hne. eapply Hi; eauto.
  - (* injectivity *)
    intros n1 n2 vid' H1 H2. simpl in H1, H2.
    apply lookup_delete_Some in H1 as (_ & H1).
    apply lookup_delete_Some in H2 as (_ & H2). eapply Hi; eauto.
  - (* disjointness *)
    exact Hd.
  - (* handlers *)
    intros id n' vid' Hn Hon. split; [|intros Hin; apply elem_of_nil in Hin; destruct Hin].
    intros Hend.
    destruct (stop_effect_node _ _ _ _ _ _ Hn) as (n & Hn0 & Hon0 & Hend0).
    rewrite Hon0 in Hon. rewrite Hend0 in Hend.
    destruct (Hh id n vid' Hn0 Hon) as (HL' & _). destruct (HL' Hend) as (st & HL'').
    destruct (decide (vid' = vid)) as [->|Hne].
    + destruct HL as (Ho & _), HL'' as (Ho' & _).
      destruct (owns_inj _ _ _ _ _ _ _ _ Ho Ho') as (<- & _). eauto.
    + exists st. apply (Live_stopNote w note vid b v0); assumption.
  - (* fresh *)
    intros id Hid. simpl in *. rewrite disconnects_app, disconnects_stop_calls.
    rewrite Hf by lia. reflexivity.
  - constructor.
  - exact Hu.
Qed.
(** ** The invariant is kept by the clock *)

Lemma advance_eq dt w :
  advance dt w =
  for_each fire_ended (ending (currentTime w + dt) w) (ticked (currentTime w + dt) w).
Proof. reflexivity. Qed.

Lemma render_node_fields t n :
  started (render_node t n) = started n ∧
  stopTime (render_node t n) = stopTime n ∧
  onended (render_node t n) = onended n ∧
  outputs (render_node t n) = outputs n ∧
  ended (render_node t n) = ended n || due t n.
Proof.
  unfold render_node. destruct (due t n) eqn:E; simpl; repeat split.
  - rewrite orb_true_r. reflexivity.
  - rewrite orb_false_r. reflexivity.
Qed.

Lemma source_state_ticked t w id h st :
  source_state w id h false st → source_state (ticked t w) id h (is_due t st) st.
Proof.
  intros (n & Hn & Hs & He & Hst & Hh). exists (render_node t n).
  destruct (render_node_fields t n) as (F1 & F2 & F3 & _ & F5).
  unfold ticked; wsimpl. rewrite lookup_fmap, Hn. split; [reflexivity|].
  rewrite F1, F2, F3, F5. repeat split; auto.
  unfold due. rewrite Hs, He, Hst. reflexivity.
Qed.

Lemma gain_state_ticked t w id : gain_state w id → gain_state (ticked t w) id.
Proof.
  intros (n & Hn & Hs & Hh). exists (render_node t n).
  destruct (render_node_fields t n) as (F1 & _ & F3 & _).
  unfold ticked; wsimpl. rewrite lookup_fmap, Hn. split; [reflexivity|].
  rewrite F1, F3. auto.
Qed.

Lemma owns_ticked t w vid b st :
  owns w vid b false st → owns (ticked t w) vid b (is_due t st) st.
Proof.
  intros [Hv Hb H0 H1 H3 H2 H4 H5 Hq]. split.
  - exact Hv.
  - exact Hb.
  - apply source_state_ticked; exact H0.
  - apply source_state_ticked; exact H1.
  - apply source_state_ticked; exact H3.
  - apply gain_state_ticked; exact H2.
  - apply gain_state_ticked; exact H4.
  - apply gain_state_ticked; exact H5.
  - exact Hq.
Qed.

Lemma is_due_false t st :
  is_due t st = false → ∀ s, st = Some s → (t < s)%R.
Proof.
  intros H s ->. simpl in H. destruct (Rle_dec s t); [discriminate|lra].
Qed.

Lemma is_due_true t st :
  is_due t st = true → ∃ s, st = Some s ∧ (s <= t)%R.
Proof.
  destruct st as [s|]; [|discriminate]. simpl.
  destruct (Rle_dec s t); [eauto|discriminate].
Qed.

Lemma Live_ticked t w vid b st :
  Live w vid b st → is_due t st = false → Live (ticked t w) vid b st.
Proof.
  intros (Ho & _) Hd. split.
  - rewrite <- Hd. apply owns_ticked. exact Ho.
  - apply is_due_false. exact Hd.
Qed.

Lemma elem_of_ending t w id :
  id ∈ ending t w ↔ id < nextNode w ∧ ∃ n, nodes w !! id = Some n ∧ due t n = true.
Proof.
  unfold ending. rewrite list_elem_of_In, List.filter_In, List.in_seq. split.
  - intros (Hr & Hd). split; [lia|].
    destruct (nodes w !! id) as [n|]; [eauto|discriminate].
  - intros (Hr & n & Hn & Hd). split; [lia|]. rewrite Hn. exact Hd.
Qed.

Lemma NoDup_ending t w : NoDup (ending t w).
Proof.
  unfold ending. apply NoDup_ListNoDup, List.NoDup_filter, NoDup_ListNoDup, NoDup_seq.
Qed.

Lemma Live_due t w vid b s :
  Live w vid b (Some s) → (s <= t)%R →
  owns (ticked t w) vid b true (Some s) ∧ b ∈ ending t w.
Proof.
  intros (Ho & _) Hs.
  assert (Hd : is_due t (Some s) = true).
  { simpl. destruct (Rle_dec s t); [reflexivity|contradiction]. }
  split.
  - rewrite <- Hd. apply owns_ticked. exact Ho.
  - apply elem_of_ending. pose proof (owns_bound _ _ _ _ _ Ho).
    destruct (owns_osc _ _ _ _ _ Ho) as (n & Hn & Hst & He & Hsp & _).
    split; [lia|]. exists n. split; [exact Hn|].
    unfold due. rewrite Hst, He, Hsp. exact Hd.
Qed.

Lemma Live_node w vid b st n :
  Live w vid b st → nodes w !! b = Some n →
  started n = true ∧ ended n = false ∧ stopTime n = st ∧ onended n = Some vid.
Proof.
  intros (Ho & _) Hn. destruct (owns_osc _ _ _ _ _ Ho) as (n' & Hn' & H).
  assert (n' = n) by congruence. subst. exact H.
Qed.

Lemma Inv_ticked t w : Inv w → InvP (ending t w) (ticked t w).
Proof.
  intros HI. pose proof HI as [Hv Hr Hi Hd Hh Hf Hrem Hu].
  split.
  - (* voices *)
    intros vid v Hlook. destruct (Hv vid v Hlook) as (Hlt & Hc).
    split; [exact Hlt|]. destruct Hc as [Hn|[H|[H|H]]].
    + left. exact Hn.
    + right; left. destruct H as (b & HL & Hreg). exists b.
      split; [apply Live_ticked; [exact HL|reflexivity]|exact Hreg].
    + destruct H as (b & s & HL). destruct (is_due t (Some s)) eqn:E.
      * right; right; right. exists b, s. apply Live_due; [exact HL|].
        destruct (is_due_true _ _ E) as (s' & [= <-] & Hs). exact Hs.
      * right; right; left. exists b, s. apply Live_ticked; assumption.
    + destruct H as (b & s & _ & Hin). apply elem_of_nil in Hin. destruct Hin.
  - (* registry *)
    intros n vid Hn. destruct (Hr n vid Hn) as (b & v & HL & Hlook & Hfreq).
    exists b, v. split; [apply Live_ticked; [exact HL|reflexivity]|]. auto.
  - exact Hi.
  - exact Hd.
  - (* handlers *)
    intros id n' vid Hn' Hon. unfold ticked, with_nodes, with_time in Hn'; cbn [nodes] in Hn'.
    rewrite lookup_fmap in Hn'. destruct (nodes w !! id) as [n|] eqn:Hn; [|discriminate].
    injection Hn' as <-.
    destruct (render_node_fields t n) as (_ & _ & F3 & _ & F5).
    rewrite F3 in Hon. destruct (Hh id n vid Hn Hon) as (HL & _). split.
    + rewrite F5. intros He. apply orb_false_iff in He as (He & Hdue).
      destruct (HL He) as (st & HL'). exists st. apply Live_ticked; [exact HL'|].
      destruct (Live_node _ _ _ _ _ HL' Hn) as (Hs & _ & Hst & _).
      unfold due in Hdue. rewrite Hs, He, Hst in Hdue. exact Hdue.
    + intros Hin. apply elem_of_ending in Hin as (_ & n0 & Hn0 & Hdue).
      assert (n0 = n) by congruence. subst n0.
      assert (He : ended n = false).
      { unfold due in Hdue. destruct (ended n); [|reflexivity].
        rewrite andb_false_r in Hdue. discriminate. }
      destruct (HL He) as (st & HL').
      destruct (Live_node _ _ _ _ _ HL' Hn) as (Hs & _ & Hst & _).
      unfold due in Hdue. rewrite Hs, He, Hst in Hdue.
      destruct (is_due_true _ _ Hdue) as (s & -> & Hle).
      exists s. apply Live_due; assumption.
  - exact Hf.
  - apply NoDup_ending.
  - exact Hu.
Qed.
Lemma fire_ended_eq id w :
  fire_ended id w =
  match nodes w !! id ≫= onended with
  | Some vid =>
      match dispose vid w with
      | (Ok _, w') => (Ok tt, w')
      | (Throw e, w') => (Ok tt, with_uncaught (λ l, l ++ [e]) w')
      end
  | None => (Ok tt, w)
  end.
Proof.
  unfold fire_ended, bind, gets. destruct (nodes w !! id ≫= onended); reflexivity.
Qed.

Lemma fire_ended_ok id w : (fire_ended id w).1 = Ok tt.
Proof.
  rewrite fire_ended_eq. destruct (nodes w !! id ≫= onended); [|reflexivity].
  destruct (dispose n w) as [[[]|e] w']; reflexivity.
Qed.

Lemma lookup_alter_flags (f : AudioNode → AudioNode) (m : gmap nat AudioNode) i id n' :
  (∀ n, onended (f n) = onended n ∧ ended (f n) = ended n) →
  alter f i m !! id = Some n' →
  ∃ n, m !! id = Some n ∧ onended n' = onended n ∧ ended n' = ended n.
Proof.
  intros Hf H. destruct (decide (i = id)) as [->|Hne].
  - rewrite lookup_alter_eq in H. destruct (m !! id) as [n|]; [|discriminate].
    injection H as <-. exists n. split; [reflexivity|]. apply Hf.
  - rewrite lookup_alter_ne in H by exact Hne. exists n'. auto.
Qed.

Lemma dispose_effect_node this b w id n' :
  nodes (dispose_effect this b w) !! id = Some n' →
  ∃ n, nodes w !! id = Some n ∧ onended n' = onended n ∧ ended n' = ended n.
Proof.
  unfold dispose_effect; wsimpl. intros H.
  assert (Hf : ∀ n, onended (clear_outputs n) = onended n ∧
                    ended (clear_outputs n) = ended n) by (intros n; split; reflexivity).
  apply (lookup_alter_flags _ _ _ _ _ Hf) in H as (n5 & H & E5 & F5).
  apply (lookup_alter_flags _ _ _ _ _ Hf) in H as (n4 & H & E4 & F4).
  apply (lookup_alter_flags _ _ _ _ _ Hf) in H as (n3 & H & E3 & F3).
  apply (lookup_alter_flags _ _ _ _ _ Hf) in H as (n2 & H & E2 & F2).
  apply (lookup_alter_flags _ _ _ _ _ Hf) in H as (n1 & H & E1 & F1).
  apply (lookup_alter_flags _ _ _ _ _ Hf) in H as (n0 & H & E0 & F0).
  exists n0. split; [exact H|]. split; congruence.
Qed.

Lemma owns_nodes w vid b e st k :
  owns w vid b e st → k < 6 → is_Some (nodes w !! (k + b)).
Proof.
  intros [_ _ (n0 & H0 & _) (n1 & H1 & _) (n3 & H3 & _) (n2 & H2 & _)
          (n4 & H4 & _) (n5 & H5 & _) _] Hk.
  destruct k as [|[|[|[|[|[|k]]]]]]; try lia; eauto.
Qed.

Lemma dispose_owns w vid b e st :
  owns w vid b e st → dispose vid w = (Ok tt, dispose_effect vid b w).
Proof.
  intros Ho. destruct (owns_voice _ _ _ _ _ Ho) as (v & Hv & Hh & _).
  eapply dispose_eq; eauto. intros k Hk. eapply owns_nodes; eauto.
Qed.

(** One [ended] event is delivered. *)
Lemma InvP_fire id rem w :
  InvP (id :: rem) w → InvP rem (fire_ended id w).2.
Proof.
  intros HI. pose proof HI as [Hv Hr Hi Hd Hh Hf Hrem Hu].
  apply NoDup_cons in Hrem as (Hnotin & Hrem).
  rewrite fire_ended_eq.
  destruct (nodes w !! id) as [n|] eqn:Hn; simpl;
    [destruct (onended n) as [vid|] eqn:Hon|].
  - (* the handler runs *)
    destruct (Hh id n vid Hn Hon) as (_ & Ho). destruct Ho as (s & Ho); [left|].
    rewrite (dispose_owns _ _ _ _ _ Ho). simpl.
    destruct (owns_voice _ _ _ _ _ Ho) as (v & Hlook & Hhold & _).
    assert (Hdis : ∀ vid' v' b', vid' ≠ vid → voices w !! vid' = Some v' →
              holding b' v' → 6 + b' ≤ id ∨ 6 + id ≤ b').
    { intros vid' v' b' Hne Hlook' Hhold'.
      exact (Hd _ _ _ _ _ _ Hlook' Hlook Hhold' Hhold Hne). }
    assert (Hown : ∀ vid' b' e st, vid' ≠ vid → owns w vid' b' e st →
              owns (dispose_effect vid id w) vid' b' e st).
    { intros vid' b' e st Hne Ho'. eapply owns_agree; [|exact Ho'].
      destruct (owns_voice _ _ _ _ _ Ho') as (v' & Hlook' & Hhold' & _).
      apply agree_dispose; [exact Hne|]. eapply Hdis; eauto. }
    assert (Hlive : ∀ vid' b' st, vid' ≠ vid → Live w vid' b' st →
              Live (dispose_effect vid id w) vid' b' st).
    { intros vid' b' st Hne (Ho' & Ht). split; [apply Hown; assumption|exact Ht]. }
    assert (Hnl : ∀ vid' b' st, Live w vid' b' st → vid' ≠ vid).
    { intros vid' b' st (Ho' & _) ->.
      destruct (owns_inj _ _ _ _ _ _ _ _ Ho Ho') as (_ & ? & _). discriminate. }
    split.
    + (* voices *)
      intros vid' v' Hlook'. unfold dispose_effect in Hlook'; cbn [voices with_voices with_trace with_nodes] in Hlook'.
      destruct (decide (vid' = vid)) as [->|Hne].
      * rewrite lookup_alter_eq, Hlook in Hlook'. injection Hlook' as <-.
        split; [apply (Hv vid v Hlook)|]. left. apply all_null_nulled.
      * rewrite lookup_alter_ne in Hlook' by auto.
        destruct (Hv vid' v' Hlook') as (Hlt & Hc). split; [exact Hlt|].
        destruct Hc as [Hnull|[H|[H|H]]].
        -- left. exact Hnull.
        -- right; left. destruct H as (b' & HL & Hreg). exists b'. split; [|exact Hreg].
           apply Hlive; assumption.
        -- right; right; left. destruct H as (b' & s' & HL). exists b', s'.
           apply Hlive; assumption.
        -- right; right; right. destruct H as (b' & s' & Ho' & Hin). exists b', s'.
           split; [apply Hown; assumption|].
           apply elem_of_cons in Hin as [->|Hin]; [|exact Hin].
           destruct (owns_voice _ _ _ _ _ Ho') as (v'' & Hlook'' & Hhold'' & _).
           destruct (Hdis vid' v'' id Hne Hlook'' Hhold''); lia.
    + (* registry *)
      intros m vid' Hm. destruct (Hr m vid' Hm) as (b' & v' & HL & Hlook' & Hfreq).
      pose proof (Hnl _ _ _ HL) as Hne.
      exists b', v'. split; [apply Hlive; assumption|]. split; [|exact Hfreq].
      unfold dispose_effect; wsimpl. rewrite lookup_alter_ne by auto. exact Hlook'.
    + exact Hi.
    + (* disjointness *)
      intros vid1 vid2 v1 v2 b1 b2 H1 H2 Hh1 Hh2 Hne.
      unfold dispose_effect in H1, H2; cbn [voices with_voices with_trace with_nodes] in H1, H2.
      destruct (decide (vid1 = vid)) as [->|Hne1].
      { rewrite lookup_alter_eq, Hlook in H1. injection H1 as <-.
        destruct (holding_not_null _ _ Hh1 (all_null_nulled v)). }
      destruct (decide (vid2 = vid)) as [->|Hne2].
      { rewrite lookup_alter_eq, Hlook in H2. injection H2 as <-.
        destruct (holding_not_null _ _ Hh2 (all_null_nulled v)). }
      rewrite lookup_alter_ne in H1, H2 by auto.
      exact (Hd _ _ _ _ _ _ H1 H2 Hh1 Hh2 Hne).
    + (* handlers *)
      intros id' n' vid' Hn' Hon'.
      destruct (dispose_effect_node _ _ _ _ _ Hn') as (n0 & Hn0 & E & F).
      rewrite E in Hon'. rewrite F. destruct (Hh id' n0 vid' Hn0 Hon') as (HL & HE).
      split.
      * intros He. destruct (HL He) as (st & HL'). exists st.
        apply Hlive; [eapply Hnl; eauto|exact HL'].
      * intros Hin. destruct HE as (s' & Ho'); [right; exact Hin|].
        exists s'. apply Hown; [|exact Ho']. intros ->.
        destruct (owns_inj _ _ _ _ _ _ _ _ Ho Ho') as (<- & _). contradiction.
    + (* fresh *)
      intros id' Hid'. unfold dispose_effect; wsimpl. unfold dispose_effect in Hid'; wsimpl.
      cbn [nextNode with_voices with_trace with_nodes] in Hid'.
      pose proof (owns_bound _ _ _ _ _ Ho).
      rewrite disconnects_app, disconnects_dispose_calls_out by lia.
      rewrite Hf by lia. reflexivity.
    + exact Hrem.
    + exact Hu.
  - (* a node without handler *)
    split; auto.
    + intros vid v Hlook. destruct (Hv vid v Hlook) as (Hlt & Hc). split; [exact Hlt|].
      destruct Hc as [Hnull|[H|[H|H]]]; auto.
      right; right; right. destruct H as (b & s & Ho & Hin). exists b, s.
      split; [exact Ho|]. apply elem_of_cons in Hin as [->|Hin]; [|exact Hin].
      destruct (owns_osc _ _ _ _ _ Ho) as (n' & Hn' & _ & _ & _ & Hon').
      congruence.
    + intros id' n' vid' Hn' Hon'. destruct (Hh id' n' vid' Hn' Hon') as (HL & HE).
      split; [exact HL|]. intros Hin. apply HE. right. exact Hin.
  - (* no node *)
    split; auto.
    + intros vid v Hlook. destruct (Hv vid v Hlook) as (Hlt & Hc). split; [exact Hlt|].
      destruct Hc as [Hnull|[H|[H|H]]]; auto.
      right; right; right. destruct H as (b & s & Ho & Hin). exists b, s.
      split; [exact Ho|]. apply elem_of_cons in Hin as [->|Hin]; [|exact Hin].
      destruct (owns_osc _ _ _ _ _ Ho) as (n' & Hn' & _). congruence.
    + intros id' n' vid' Hn' Hon'. destruct (Hh id' n' vid' Hn' Hon') as (HL & HE).
      split; [exact HL|]. intros Hin. apply HE. right. exact Hin.
Qed.

Lemma for_each_cons {A} (f : A → M unit) x l w :
  (f x w).1 = Ok tt → for_each f (x :: l) w = for_each f l (f x w).2.
Proof.
  intros H. simpl. unfold bind. destruct (f x w) as [[[]|e] w']; [reflexivity|discriminate].
Qed.

Lemma InvP_deliver rem w :
  InvP rem w →
  (for_each fire_ended rem w).1 = Ok tt ∧ Inv (for_each fire_ended rem w).2.
Proof.
  revert w. induction rem as [|id rem IH]; intros w HI.
  - split; [reflexivity|exact HI].
  - rewrite for_each_cons by apply fire_ended_ok. apply IH, InvP_fire, HI.
Qed.

Lemma Inv_advance dt w :
  Inv w → (advance dt w).1 = Ok tt ∧ Inv (advance dt w).2.
Proof. intros HI. rewrite advance_eq. apply InvP_deliver, Inv_ticked, HI. Qed.
(** ** Every reachable world satisfies the invariant *)

Lemma initial_eq rnd :
  initial rnd =
  mkWorld 0%R
    (<[masterGain := mkNode GainNode (mkParam 0.125%R [SetValue 0.125%R 0%R]) Sine
                            false None false None [destination]]>
       {[destination := destination_node]})
    2 [CreateGain masterGain; Connect masterGain destination] ∅ 0 ∅ rnd 0 [].
Proof.
  unfold initial, load_module, fresh_context, masterGain, destination.
  repeat hstep. reflexivity.
Qed.

Lemma Inv_initial rnd : Inv (initial rnd).
Proof.
  rewrite initial_eq. split; simpl.
  - intros vid v H. rewrite lookup_empty in H. discriminate.
  - intros n vid H. rewrite lookup_empty in H. discriminate.
  - intros n1 n2 vid H. rewrite lookup_empty in H. discriminate.
  - intros vid1 vid2 v1 v2 b1 b2 H. rewrite lookup_empty in H. discriminate.
  - intros id n vid Hn Hon. exfalso.
    apply lookup_insert_Some in Hn as [(_ & <-)|(_ & Hn)]; [discriminate|].
    apply lookup_singleton_Some in Hn as (_ & <-). discriminate.
  - reflexivity.
  - constructor.
  - reflexivity.
Qed.

Lemma stopNote_eq w note vid :
  Inv w → activeVoices w !! note = Some vid →
  ∃ b ne, Live w vid b None ∧ nodes w !! (5 + b) = Some ne ∧
    stopNote note w = (Ok tt, stopNote_effect note b 0.5 (value (param ne)) w).
Proof.
  intros HI Hn. destruct (Inv_registered _ _ _ HI Hn) as (b & HL).
  destruct (stop_Live _ _ _ _ HL) as (ne & Hne & Hs).
  exists b, ne. split; [exact HL|]. split; [exact Hne|].
  rewrite (stopNote_step _ _ _ Hn), Hs. reflexivity.
Qed.

Lemma Inv_perform a w :
  Inv w → (perform a w).1 = Ok tt ∧ Inv (perform a w).2.
Proof.
  intros HI. destruct a as [n|n|dt]; simpl.
  - destruct (activeVoices w !! n) as [vid|] eqn:E.
    + rewrite (startNote_noop _ _ _ E). auto.
    + rewrite (startNote_eq _ _ E). split; [reflexivity|]. apply Inv_startNote; assumption.
  - destruct (activeVoices w !! n) as [vid|] eqn:E.
    + destruct (stopNote_eq _ _ _ HI E) as (b & ne & HL & _ & ->).
      split; [reflexivity|]. eapply Inv_stopNote; eauto.
    + rewrite (stopNote_noop _ _ E). auto.
  - apply Inv_advance. exact HI.
Qed.

Lemma run_cons a acts w : run (a :: acts) w = run acts (perform a w).2.
Proof. reflexivity. Qed.

Lemma Inv_run acts w : Inv w → Inv (run acts w).
Proof.
  revert w. induction acts as [|a acts IH]; intros w HI; [exact HI|].
  rewrite run_cons. apply IH, Inv_perform, HI.
Qed.

Lemma Inv_reachable rnd acts : Inv (run acts (initial rnd)).
Proof. apply Inv_run, Inv_initial. Qed.
(** ** A disposed voice stays disposed *)

Lemma Disposed_agree w w' vid b :
  agree vid b w w' → apart w' b → Disposed w vid b → Disposed w' vid b.
Proof.
  intros (A1 & A2 & A3 & A4) Hap [Hv Hb Hn Ho _]. split.
  - rewrite A1. exact Hv.
  - lia.
  - intros k Hk. rewrite A2 by exact Hk. auto.
  - intros k Hk. rewrite A4 by exact Hk. auto.
  - exact Hap.
Qed.

Lemma Disposed_not_holding w vid b v b' :
  Disposed w vid b → voices w !! vid = Some v → holding b' v → False.
Proof.
  intros [(v' & Hv' & Hnull) _ _ _ _] Hv Hh.
  assert (v' = v) by congruence. subst. eapply holding_not_null; eauto.
Qed.

Lemma Disposed_startNote note w vid b :
  Inv w → Disposed w vid b → Disposed (startNote_effect note w) vid b.
Proof.
  intros HI HD. pose proof HD as [(v & Hv & Hnull) Hb _ _ Hap].
  destruct (inv_voices _ _ HI vid v Hv) as (Hlt & _).
  apply (Disposed_agree w); [| |exact HD].
  - eapply agree_trans; [apply agree_registered; lia|].
    apply agree_start; [lia|exact Hb].
  - intros vid' v' b' Hlook Hhold. simpl in Hlook.
    destruct (decide (vid' = nextVoice w)) as [->|Hne].
    + rewrite lookup_insert_eq in Hlook. injection Hlook as <-.
      rewrite (holding_inj _ _ _ Hhold (holding_held (nextNode w) _)). lia.
    + rewrite !lookup_insert_ne in Hlook by auto. eapply Hap; eauto.
Qed.

Lemma Disposed_stopNote note w vid b vid0 b0 st rel v0 :
  Disposed w vid b → Live w vid0 b0 st →
  Disposed (stopNote_effect note b0 rel v0 w) vid b.
Proof.
  intros HD HL. pose proof HD as [_ _ _ _ Hap].
  destruct (Live_voice _ _ _ _ HL) as (v & Hv & Hh & _).
  apply (Disposed_agree w); [| |exact HD].
  - apply (agree_trans _ _ _ (stop_effect b0 rel v0 w)).
    + apply agree_stop. destruct (Hap _ _ _ Hv Hh); lia.
    + split; [|split; [|split]]; auto.
  - exact Hap.
Qed.

Lemma spent_render t n : spent n → spent (render_node t n).
Proof.
  intros (Ho & Hs). destruct (render_node_fields t n) as (F1 & _ & _ & F4 & F5).
  split; [congruence|]. destruct Hs as [He|Hs].
  - left. rewrite F5, He. reflexivity.
  - right. congruence.
Qed.

Lemma Disposed_ticked t w vid b : Disposed w vid b → Disposed (ticked t w) vid b.
Proof.
  intros [Hv Hb Hn Ho Hap]. split; auto.
  intros k Hk. destruct (Hn k Hk) as (n & Hlook & Hs).
  exists (render_node t n). unfold ticked; wsimpl.
  rewrite lookup_fmap, Hlook. split; [reflexivity|]. apply spent_render, Hs.
Qed.

(** The effect of one [ended] event, when it has any. *)
Lemma fire_ended_cases id rem w :
  InvP (id :: rem) w →
  (fire_ended id w).2 = w ∧ (∀ vid b e st, owns w vid b e st → b ≠ id) ∨
  ∃ vid s, owns w vid id true (Some s) ∧ (fire_ended id w).2 = dispose_effect vid id w.
Proof.
  intros HI. rewrite fire_ended_eq.
  destruct (nodes w !! id) as [n|] eqn:Hn; simpl;
    [destruct (onended n) as [vid|] eqn:Hon|].
  - right. destruct (inv_handlers _ _ HI id n vid Hn Hon) as (_ & Ho).
    destruct Ho as (s & Ho); [left|]. exists vid, s. split; [exact Ho|].
    rewrite (dispose_owns _ _ _ _ _ Ho). reflexivity.
  - left. split; [reflexivity|]. intros vid b e st Ho ->.
    destruct (owns_osc _ _ _ _ _ Ho) as (n' & Hn' & _ & _ & _ & Hon'). congruence.
  - left. split; [reflexivity|]. intros vid b e st Ho ->.
    destruct (owns_osc _ _ _ _ _ Ho) as (n' & Hn' & _). congruence.
Qed.

Lemma apart_dispose w this b0 b :
  apart w b → apart (dispose_effect this b0 w) b.
Proof.
  intros Hap vid v b' Hlook Hhold.
  unfold dispose_effect in Hlook; cbn [voices with_voices with_trace with_nodes] in Hlook.
  destruct (decide (vid = this)) as [->|Hne].
  - rewrite lookup_alter_eq in Hlook. destruct (voices w !! this) as [v0|]; [|discriminate].
    injection Hlook as <-. destruct (holding_not_null _ _ Hhold (all_null_nulled v0)).
  - rewrite lookup_alter_ne in Hlook by auto. eapply Hap; eauto.
Qed.

Lemma Disposed_fire id rem w vid b :
  InvP (id :: rem) w → Disposed w vid b → Disposed (fire_ended id w).2 vid b.
Proof.
  intros HI HD. destruct (fire_ended_cases _ _ _ HI) as [(-> & _)|(vid0 & s & Ho & ->)];
    [exact HD|].
  pose proof HD as [_ _ _ _ Hap].
  destruct (owns_voice _ _ _ _ _ Ho) as (v0 & Hv0 & Hh0 & _).
  apply (Disposed_agree w); [| |exact HD].
  - apply agree_dispose.
    + intros ->. eapply Disposed_not_holding; eauto.
    + destruct (Hap _ _ _ Hv0 Hh0); lia.
  - apply apart_dispose, Hap.
Qed.

Lemma owns_fire id rem w vid b e st :
  InvP (id :: rem) w → owns w vid b e st → (b = id → e = false) →
  owns (fire_ended id w).2 vid b e st.
Proof.
  intros HI Hown Hne.
  destruct (fire_ended_cases _ _ _ HI) as [(-> & _)|(vid0 & s & Ho & ->)];
    [exact Hown|].
  destruct (owns_voice _ _ _ _ _ Ho) as (v0 & Hv0 & Hh0 & _).
  destruct (owns_voice _ _ _ _ _ Hown) as (v & Hv & Hh & _).
  assert (Hvid : vid ≠ vid0).
  { intros ->. destruct (owns_inj _ _ _ _ _ _ _ _ Ho Hown) as (Hb & He & _).
    rewrite Hne in He by congruence. discriminate. }
  eapply owns_agree; [|exact Hown]. apply agree_dispose; [exact Hvid|].
  exact (inv_disjoint _ _ HI _ _ _ _ _ _ Hv Hv0 Hh Hh0 Hvid).
Qed.

Lemma currentTime_fire id rem w :
  InvP (id :: rem) w → currentTime (fire_ended id w).2 = currentTime w.
Proof.
  intros HI.
  destruct (fire_ended_cases _ _ _ HI) as [(-> & _)|(vid0 & s & Ho & ->)]; reflexivity.
Qed.

Lemma Live_fire id rem w vid b st :
  InvP (id :: rem) w → Live w vid b st → Live (fire_ended id w).2 vid b st.
Proof.
  intros HI (Ho & Ht). split.
  - eapply owns_fire; eauto.
  - rewrite (currentTime_fire _ _ _ HI). exact Ht.
Qed.

(** The [ended] event of the fundamental source of an ended voice disposes
    the voice. *)
Lemma Disposed_fire_own rem w vid b s :
  InvP (b :: rem) w → owns w vid b true (Some s) →
  Disposed (fire_ended b w).2 vid b.
Proof.
  intros HI Ho.
  destruct (fire_ended_cases _ _ _ HI) as [(_ & Hno)|(vid0 & s0 & Ho0 & ->)].
  { destruct (Hno _ _ _ _ Ho). reflexivity. }
  assert (vid0 = vid) as ->.
  { destruct (owns_osc _ _ _ _ _ Ho) as (n & Hn & _ & _ & _ & Hon).
    destruct (owns_osc _ _ _ _ _ Ho0) as (n0 & Hn0 & _ & _ & _ & Hon0). congruence. }
  clear Ho0 s0.
  pose proof Ho as [(v & Hv & Hh & _) Hb (n0 & Hn0 & _ & He0 & _)
    (n1 & Hn1 & _ & He1 & _) (n3 & Hn3 & _ & He3 & _) (n2 & Hn2 & Hs2 & _)
    (n4 & Hn4 & Hs4 & _) (n5 & Hn5 & Hs5 & _) Hq].
  split.
  - exists (nulled v). split; [|apply all_null_nulled].
    unfold dispose_effect; wsimpl. rewrite lookup_alter_eq, Hv. reflexivity.
  - exact Hb.
  - intros k Hk. unfold dispose_effect; wsimpl.
    destruct k as [|[|[|[|[|[|k]]]]]]; try lia.
    + exists (clear_outputs n0). split; [lookups; rewrite Hn0; reflexivity|].
      split; [reflexivity|left; exact He0].
    + exists (clear_outputs n1). split; [lookups; rewrite Hn1; reflexivity|].
      split; [reflexivity|left; exact He1].
    + exists (clear_outputs n2). split; [lookups; rewrite Hn2; reflexivity|].
      split; [reflexivity|right; exact Hs2].
    + exists (clear_outputs n3). split; [lookups; rewrite Hn3; reflexivity|].
      split; [reflexivity|left; exact He3].
    + exists (clear_outputs n4). split; [lookups; rewrite Hn4; reflexivity|].
      split; [reflexivity|right; exact Hs4].
    + exists (clear_outputs n5). split; [lookups; rewrite Hn5; reflexivity|].
      split; [reflexivity|right; exact Hs5].
  - intros k Hk. unfold dispose_effect; wsimpl.
    rewrite disconnects_app, disconnects_dispose_calls_in, Hq by exact Hk. reflexivity.
  - intros vid' v' b' Hv' Hh'.
    unfold dispose_effect in Hv'; cbn [voices with_voices with_trace with_nodes] in Hv'.
    destruct (decide (vid' = vid)) as [->|Hne].
    + rewrite lookup_alter_eq, Hv in Hv'. injection Hv' as <-.
      destruct (holding_not_null _ _ Hh' (all_null_nulled v)).
    + rewrite lookup_alter_ne in Hv' by auto.
      destruct (inv_disjoint _ _ HI _ _ _ _ _ _ Hv Hv' Hh Hh'); [auto|lia|lia].
Qed.

(** ** From the scheduled stop to the disposal *)

Lemma TrackedP_fire id rem w vid b s :
  InvP (id :: rem) w → TrackedP (id :: rem) w vid b s →
  TrackedP rem (fire_ended id w).2 vid b s.
Proof.
  intros HI [HL|[(Ho & Hin & Ht)|(HD & Ht)]].
  - left. eapply Live_fire; eauto.
  - destruct (decide (b = id)) as [->|Hne].
    + right; right. split; [eapply Disposed_fire_own; eauto|].
      rewrite (currentTime_fire _ _ _ HI). exact Ht.
    + right; left. split; [eapply owns_fire; eauto; intros; contradiction|].
      split; [|rewrite (currentTime_fire _ _ _ HI); exact Ht].
      apply elem_of_cons in Hin as [->|Hin]; [contradiction|exact Hin].
  - right; right. split; [eapply Disposed_fire; eauto|].
    rewrite (currentTime_fire _ _ _ HI). exact Ht.
Qed.

Lemma TrackedP_deliver rem w vid b s :
  InvP rem w → TrackedP rem w vid b s →
  Tracked (for_each fire_ended rem w).2 vid b s.
Proof.
  revert w. induction rem as [|id rem IH]; intros w HI HT.
  - destruct HT as [HL|[(_ & Hin & _)|HD]].
    + left. exact HL.
    + apply elem_of_nil in Hin. destruct Hin.
    + right. exact HD.
  - rewrite for_each_cons by apply fire_ended_ok.
    apply IH; [apply InvP_fire, HI|apply TrackedP_fire; assumption].
Qed.

Lemma Tracked_ticked t w vid b s :
  Tracked w vid b s → (currentTime w <= t)%R →
  TrackedP (ending t w) (ticked t w) vid b s.
Proof.
  intros [HL|(HD & Hs)] Ht.
  - destruct (Rle_dec s t) as [Hle|Hgt].
    + right; left. destruct (Live_due t _ _ _ _ HL Hle) as (Ho & Hin).
      split; [exact Ho|]. split; [exact Hin|exact Hle].
    + left. apply Live_ticked; [exact HL|]. simpl.
      destruct (Rle_dec s t); [contradiction|reflexivity].
  - right; right. split; [apply Disposed_ticked, HD|]. simpl. lra.
Qed.

Lemma Tracked_perform a w vid b s :
  Inv w → forward a → Tracked w vid b s → Tracked (perform a w).2 vid b s.
Proof.
  intros HI Hf HT. destruct a as [n|n|dt]; simpl.
  - destruct (activeVoices w !! n) as [vid0|] eqn:E.
    + rewrite (startNote_noop _ _ _ E). exact HT.
    + rewrite (startNote_eq _ _ E). simpl. destruct HT as [HL|(HD & Hs)].
      * left. apply Live_startNote; [|exact HL].
        destruct (Live_voice _ _ _ _ HL) as (v & Hv & _).
        destruct (inv_voices _ _ HI vid v Hv). lia.
      * right. split; [apply Disposed_startNote; assumption|exact Hs].
  - destruct (activeVoices w !! n) as [vid0|] eqn:E.
    + destruct (stopNote_eq _ _ _ HI E) as (b0 & ne & HL0 & _ & ->). simpl.
      destruct HT as [HL|(HD & Hs)].
      * left. apply (Live_stopNote w n vid0 b0); try assumption.
        intros ->. destruct HL as (Ho & _), HL0 as (Ho0 & _).
        destruct (owns_inj _ _ _ _ _ _ _ _ Ho Ho0) as (_ & _ & ?). discriminate.
      * right. split; [eapply Disposed_stopNote; eauto|exact Hs].
    + rewrite (stopNote_noop _ _ E). exact HT.
  - rewrite advance_eq. simpl in Hf.
    apply TrackedP_deliver; [apply Inv_ticked, HI|].
    apply Tracked_ticked; [exact HT|lra].
Qed.

Lemma Tracked_run acts w vid b s :
  Inv w → Forall forward acts → Tracked w vid b s → Tracked (run acts w) vid b s.
Proof.
  revert w. induction acts as [|a acts IH]; intros w HI Hf HT; [exact HT|].
  apply Forall_cons in Hf as (Ha & Hf). rewrite run_cons.
  apply IH; [apply Inv_perform, HI|exact Hf|apply Tracked_perform; assumption].
Qed.
(** ** Time, and the world with one note *)

Lemma Live_stopNote_self w note vid b st v0 :
  Live w vid b st →
  Live (stopNote_effect note b 0.5 v0 w) vid b (Some (currentTime w + 0.5 + 0.01)%R).
Proof.
  intros HL. eapply Live_agree; [| |apply (Live_stop w vid b st v0 HL)].
  - split; [|split; [|split]]; auto.
  - reflexivity.
Qed.

Lemma currentTime_deliver rem w :
  InvP rem w → currentTime (for_each fire_ended rem w).2 = currentTime w.
Proof.
  revert w. induction rem as [|id rem IH]; intros w HI; [reflexivity|].
  rewrite for_each_cons by apply fire_ended_ok.
  rewrite IH by apply InvP_fire, HI. apply (currentTime_fire _ _ _ HI).
Qed.

Lemma currentTime_perform a w :
  Inv w →
  currentTime (perform a w).2 =
  match a with
  | Advance dt => (currentTime w + dt)%R
  | _ => currentTime w
  end.
Proof.
  intros HI. destruct a as [n|n|dt]; simpl.
  - destruct (activeVoices w !! n) as [vid|] eqn:E.
    + rewrite (startNote_noop _ _ _ E). reflexivity.
    + rewrite (startNote_eq _ _ E). reflexivity.
  - destruct (activeVoices w !! n) as [vid|] eqn:E.
    + destruct (stopNote_eq _ _ _ HI E) as (b & ne & _ & _ & ->). reflexivity.
    + rewrite (stopNote_noop _ _ E). reflexivity.
  - rewrite advance_eq, currentTime_deliver by apply Inv_ticked, HI. reflexivity.
Qed.

Lemma one_note_registry : activeVoices one_note !! 60%Z = Some 0.
Proof.
  unfold one_note. rewrite run_cons. simpl.
  rewrite startNote_eq by (rewrite initial_eq; apply lookup_empty).
  rewrite initial_eq. apply lookup_insert_eq.
Qed.

(** ** Timelines *)

Open Scope R_scope.

Lemma insert_event_last e es :
  Forall (λ x, ev_time x < ev_time e) es → insert_event e es = es ++ [e].
Proof.
  induction 1 as [|x xs Hx _ IH]; [reflexivity|]. simpl.
  destruct (Rlt_dec (ev_time e) (ev_time x)); [lra|].
  destruct (Req_dec_T (ev_time e) (ev_time x)); [lra|].
  rewrite IH. reflexivity.
Qed.

Lemma cancel_from_before t es : Forall (λ x, ev_time x < t) (cancel_from t es).
Proof.
  induction es as [|x xs IH]; simpl; [constructor|].
  destruct (Rlt_dec (ev_time x) t); [constructor; assumption|exact IH].
Qed.

Lemma release_env_events v0 now rel p :
  0 < rel →
  events (release_env v0 now rel p) =
  cancel_from now (events p) ++ [SetValue v0 now; LinearRamp 0 (now + rel)].
Proof.
  intros Hrel. unfold release_env, schedule, cancel. simpl.
  rewrite (insert_event_last (SetValue v0 now)) by apply cancel_from_before.
  rewrite insert_event_last.
  - rewrite <- app_assoc. reflexivity.
  - apply Forall_app. split.
    + eapply Forall_impl; [apply cancel_from_before|]. simpl. intros x Hx. lra.
    + constructor; [simpl; lra|constructor].
Qed.

Lemma attack_decay_events v now :
  adsr v →
  attack_decay v now =
  [SetValue 0 now; LinearRamp (maxAmp v) (now + 0.02);
   LinearRamp (0.5 * maxAmp v) (now + 0.02 + 0.01)].
Proof.
  unfold attack_decay. intros (-> & -> & -> & _).
  rewrite (insert_event_last (LinearRamp (maxAmp v) (now + 0.02)) [SetValue 0 now]).
  - rewrite insert_event_last; [reflexivity|].
    repeat constructor; simpl; lra.
  - repeat constructor; simpl; lra.
Qed.

Close Scope R_scope.

(** ** The shape of the envelope *)

Open Scope R_scope.

Lemma interpolate_span v0 t0 v1 d t :
  interpolate v0 t0 v1 (t0 + d) t = v0 + (v1 - v0) * ((t - t0) / d).
Proof. unfold interpolate. replace (t0 + d - t0) with d by lra. reflexivity. Qed.

Lemma start_curve slot a t0 t :
  t0 <= t →
  param_value_at (mkParam slot (start_events a t0)) t =
  if Rlt_dec t (t0 + 0.02) then a * (t - t0) / 0.02
  else if Rlt_dec t (t0 + 0.02 + 0.01) then a - 0.5 * a * (t - (t0 + 0.02)) / 0.01
  else 0.5 * a.
Proof.
  intros Ht. unfold param_value_at, start_events. simpl.
  destruct (Rlt_dec t t0); [lra|].
  destruct (Rlt_dec t (t0 + 0.02)).
  - rewrite interpolate_span. lra.
  - destruct (Rlt_dec t (t0 + 0.02 + 0.01)); [|reflexivity].
    rewrite interpolate_span. lra.
Qed.




Lemma start_curve_bounds slot a t0 t :
  0 <= a → t0 <= t →
  0 <= param_value_at (mkParam slot (start_events a t0)) t <= a.
Proof.
  intros Ha Ht. rewrite start_curve by exact Ht.
  destruct (Rlt_dec t (t0 + 0.02)); [|destruct (Rlt_dec t (t0 + 0.02 + 0.01))].
  - split; nra.
  - split; nra.
  - split; nra.
Qed.




(** The timeline after [stop]. *)
Lemma value_from_skip v0 t0 es v ts rest t :
  Forall (λ x, ev_time x <= t) es → ts <= t →
  value_from v0 t0 (es ++ SetValue v ts :: rest) t = value_from v ts rest t.
Proof.
  intros Hes Hts. revert v0 t0. induction Hes as [|x xs Hx _ IH]; intros v0 t0; simpl.
  - destruct (Rlt_dec t ts); [lra|reflexivity].
  - destruct (Rlt_dec t (ev_time x)); [lra|]. apply IH.
Qed.

Lemma release_curve slot es v ts t :
  Forall (λ x, ev_time x < ts) es → ts <= t →
  param_value_at (mkParam slot (es ++ [SetValue v ts; LinearRamp 0 (ts + 0.5)])) t =
  if Rlt_dec t (ts + 0.5) then v * (1 - (t - ts) / 0.5) else 0.
Proof.
  intros Hes Ht.
  assert (Hes' : Forall (λ x, ev_time x <= t) es).
  { eapply Forall_impl; [exact Hes|]. simpl. intros x Hx. lra. }
  assert (Hr : value_from v ts [LinearRamp 0 (ts + 0.5)] t =
             if Rlt_dec t (ts + 0.5) then v * (1 - (t - ts) / 0.5) else 0).
  { simpl. destruct (Rlt_dec t (ts + 0.5)); [|reflexivity].
    rewrite interpolate_span. lra. }
  unfold param_value_at. destruct es as [|e es]; cbn [events app].
  - cbn [ev_time ev_value]. destruct (Rlt_dec t ts); [lra|]. exact Hr.
  - apply Forall_cons in Hes' as (He & Hes').
    destruct (Rlt_dec t (ev_time e)); [lra|].
    rewrite value_from_skip by assumption. exact Hr.
Qed.



Lemma release_env_curve slot es v now t :
  (now <= t)%R →
  param_value_at (release_env v now 0.5 (mkParam slot es)) t =
  if Rlt_dec t (now + 0.5) then (v * (1 - (t - now) / 0.5))%R else 0%R.
Proof.
  intros Ht.
  replace (release_env v now 0.5 (mkParam slot es))
    with (mkParam slot (cancel_from now es ++ [SetValue v now; LinearRamp 0 (now + 0.5)])).
  - apply release_curve; [apply cancel_from_before|exact Ht].
  - transitivity (mkParam slot (events (release_env v now 0.5 (mkParam slot es))));
      [|reflexivity].
    rewrite release_env_events by lra. reflexivity.
Qed.


Close Scope R_scope.

(** ** A sounding voice and its envelope, up to the call of [stop] *)

Lemma Sounding_startNote note w :
  Inv w → activeVoices w !! note = None →
  Sounding (startNote_effect note w) note (nextVoice w) (nextNode w)
           (randoms w (draws w)) (currentTime w).
Proof.
  intros HI Hnone. split.
  - simpl. apply lookup_insert_eq.
  - split; [|intros s Hs; discriminate].
    apply (owns_start (nextVoice w) (new_voice note w) (registered note w)).
    + apply adsr_new_voice.
    + apply (inv_fresh _ _ HI).
  - simpl. lra.
  - exists (envelope_node (new_voice note w) (currentTime w)).
    split; [simpl; lookups; reflexivity|]. split.
    + simpl. apply attack_decay_events, adsr_new_voice.
    + left. split; reflexivity.
Qed.

Lemma envelope_startNote note w t :
  activeVoices w !! note = None →
  envelope_at (startNote note w).2 (nextNode w) t =
  param_value_at (mkParam 1%R (start_events (randoms w (draws w)) (currentTime w))) t.
Proof.
  intros H. rewrite (startNote_eq _ _ H). cbn [snd].
  unfold envelope_at, startNote_effect, start_effect. cbn [nodes registered with_activeVoices
    with_nextVoice with_voices with_draws nextNode currentTime].
  rewrite lookup_insert_eq. unfold envelope_node. cbn [param].
  rewrite attack_decay_events by apply adsr_new_voice. reflexivity.
Qed.

(** The envelope after [stop] on a live voice: from the current time on it
    falls linearly from the value read from the gain to 0, in half a second. *)
Lemma envelope_stop w vid b st ne t :
  Live w vid b st → nodes w !! (5 + b) = Some ne → (currentTime w <= t)%R →
  (stop vid w).1 = Ok tt ∧
  envelope_at (stop vid w).2 b t =
  if Rlt_dec t (currentTime w + 0.5)
  then (value (param ne) * (1 - (t - currentTime w) / 0.5))%R else 0%R.
Proof.
  intros HL Hne Ht. destruct (stop_Live _ _ _ _ HL) as (ne' & Hne' & Hs).
  assert (ne' = ne) by congruence. subst ne'. rewrite Hs. cbn [fst snd].
  split; [reflexivity|].
  unfold envelope_at, stop_effect; wsimpl.
  rewrite !lookup_alter_ne by lia. rewrite lookup_alter_eq, Hne.
  cbn [fmap option_fmap option_map param map_param].
  destruct (param ne) as [slot es]. cbn [value].
  apply release_env_curve. exact Ht.
Qed.

(** The world [one_note]. *)
Lemma one_note_eq : one_note = startNote_effect 60 (initial (constantly 0.25%R)).
Proof.
  unfold one_note. rewrite run_cons. simpl.
  rewrite startNote_eq by (rewrite initial_eq; apply lookup_empty). reflexivity.
Qed.

Lemma one_note_Live : Live one_note 0 2 None.
Proof.
  destruct (Inv_registered one_note 60 0 (Inv_reachable _ _) one_note_registry)
    as (b & HL).
  destruct (Live_voice _ _ _ _ HL) as (v & Hv & Hh & _).
  rewrite one_note_eq, initial_eq in Hv. simpl in Hv.
  rewrite lookup_insert_eq in Hv. injection Hv as <-.
  destruct Hh as (Hh & _). simpl in Hh. injection Hh as <-. exact HL.
Qed.

Lemma one_note_envelope :
  currentTime one_note = 0%R ∧
  nodes one_note !! 7 =
  Some (mkNode GainNode (mkParam 1%R (start_events 0.25%R 0%R)) Sine
               false None false None [masterGain]).
Proof.
  rewrite one_note_eq, initial_eq. split; [reflexivity|].
  unfold startNote_effect, start_effect. simpl. lookups.
  unfold envelope_node. rewrite attack_decay_events by apply adsr_new_voice.
  reflexivity.
Qed.




Lemma Rabs_bound x y : (Rabs x <= y → - y <= x <= y)%R.
Proof. unfold Rabs. destruct (Rcase_abs x); lra. Qed.

(** * The claims *)

(** ** The frequency of a note *)

Open Scope R_scope.

Lemma mtof_A4 : mtof 69 = 440.
Proof.
  unfold mtof. replace ((69 - 69) / 12) with 0 by lra. rewrite Rpower_O; lra.
Qed.

Lemma square_lt a b : 0 <= a → 0 < b → a * a < b * b → a < b.
Proof. intros. nra. Qed.

Lemma fourth_root_eighth y :
  0 < y → (y * y) * (y * y) = 1 / 8 → 0.59459091 < y < 0.59463636.
Proof.
  intros Hy H4. split.
  - apply square_lt; [lra|lra|]. apply square_lt; [nra|nra|]. rewrite H4. lra.
  - apply square_lt; [lra|lra|]. apply square_lt; [nra|nra|]. rewrite H4. lra.
Qed.

Lemma mtof_C4 : 261.62 < mtof 60 < 261.64.
Proof.
  unfold mtof. set (y := Rpower 2 ((60 - 69) / 12)).
  assert (Hy : 0 < y) by (unfold y, Rpower; apply exp_pos).
  assert (H4 : (y * y) * (y * y) = 1 / 8).
  { unfold y. rewrite <- !Rpower_plus.
    replace ((60 - 69) / 12 + (60 - 69) / 12 + ((60 - 69) / 12 + (60 - 69) / 12))
      with (- INR 3) by (simpl; lra).
    rewrite Rpower_Ropp, Rpower_pow by lra. simpl. lra. }
  destruct (fourth_root_eighth y Hy H4). lra.
Qed.

(** *** The arithmetic of the engine *)

Lemma near_bounds u x r : 0 <= r → near u x r → r * (1 - u) <= x <= r * (1 + u).
Proof.
  unfold near. intros Hr H. rewrite (Rabs_pos_eq r) in H by exact Hr.
  apply Rabs_bound in H. lra.
Qed.

Lemma near_zero u x : near u x 0 → x = 0.
Proof.
  unfold near. rewrite Rabs_R0, Rmult_0_r. intros H.
  apply Rabs_bound in H. lra.
Qed.

Lemma Accurate_exact : Accurate 0 exact.
Proof.
  split; simpl.
  - intros m k _ _ _. symmetry. apply minus_IZR.
  - intros m k _ _ _. symmetry. apply mult_IZR.
  - intros x y _ _. unfold near. rewrite Rminus_diag, Rabs_R0. lra.
  - intros x y _. unfold near. rewrite Rminus_diag, Rabs_R0. lra.
  - apply Rpower_O. lra.
  - intros y _. unfold near. rewrite Rminus_diag, Rabs_R0. lra.
Qed.

Lemma Accurate_skewed : Accurate (/ 100000000) skewed.
Proof.
  assert (Hn : ∀ r, near (/ 100000000) (r * (1 + / 100000000)) r).
  { intros r. unfold near.
    replace (r * (1 + / 100000000) - r) with (/ 100000000 * r) by lra.
    rewrite Rabs_mult, (Rabs_pos_eq (/ 100000000)) by lra. lra. }
  assert (Hn' : ∀ r, near (/ 100000000) (r * (1 - / 100000000)) r).
  { intros r. unfold near.
    replace (r * (1 - / 100000000) - r) with (- / 100000000 * r) by lra.
    rewrite Rabs_mult, Rabs_Ropp, (Rabs_pos_eq (/ 100000000)) by lra. lra. }
  split; simpl.
  - intros m k _ _ _. symmetry. apply minus_IZR.
  - intros m k _ _ _. symmetry. apply mult_IZR.
  - intros x y _ _. apply Hn.
  - intros x y _. unfold near. rewrite Rminus_diag, Rabs_R0.
    pose proof (Rabs_pos (x * y)). lra.
  - destruct (Req_dec_T 0 0); [reflexivity|lra].
  - intros y _. destruct (Req_dec_T y 0) as [->|_]; [|apply Hn'].
    rewrite Rpower_O by lra. unfold near. rewrite Rminus_diag, Rabs_R0, Rabs_R1. lra.
Qed.

Lemma ln2_bounds : / 2 < ln 2 < 1.
Proof.
  split; [exact ln_lt_2|].
  rewrite <- (ln_exp 1). apply ln_increasing; [lra|].
  pose proof (exp_ineq1 1 ltac:(lra)). lra.
Qed.

Lemma Rpower2_pos x : 0 < Rpower 2 x.
Proof. unfold Rpower. apply exp_pos. Qed.

Lemma Rpower2_le x y : x <= y → Rpower 2 x <= Rpower 2 y.
Proof.
  intros [H| ->]; [|lra]. left. apply Rpower_lt; lra.
Qed.

(** [2^e] for a small exponent [e]. *)
Lemma Rpower2_small e : Rabs e <= / 2 → 1 - Rabs e <= Rpower 2 e <= 1 + 2 * Rabs e.
Proof.
  intros He. pose proof ln2_bounds as (Hl & Hu).
  pose proof (Rabs_pos e) as Hpos.
  assert (Hx : - Rabs e <= e * ln 2 <= Rabs e).
  { unfold Rabs in *. destruct (Rcase_abs e); nra. }
  unfold Rpower. split.
  - pose proof (exp_ineq1_le (e * ln 2)). lra.
  - pose proof (exp_ineq1_le (- (e * ln 2))) as H.
    rewrite exp_Ropp in H.
    pose proof (exp_pos (e * ln 2)) as Hp.
    assert (H1 : exp (e * ln 2) * (1 - e * ln 2) <= 1).
    { apply (Rmult_le_compat_l (exp (e * ln 2))) in H; [|lra].
      rewrite Rinv_r in H by lra. lra. }
    nra.
Qed.

Lemma Rpower2_growth d : 0 <= d → 1 + d / 2 <= Rpower 2 d.
Proof.
  intros Hd. pose proof ln2_bounds as (Hl & _). unfold Rpower.
  pose proof (exp_ineq1_le (d * ln 2)). nra.
Qed.

Lemma Rpower2_nat (n : nat) : Rpower 2 (INR n) = 2 ^ n.
Proof. apply Rpower_pow. lra. Qed.

Lemma mtof_shift m d : mtof (m + d) = mtof m * Rpower 2 (d / 12).
Proof.
  unfold mtof. replace ((m + d - 69) / 12) with ((m - 69) / 12 + d / 12) by lra.
  rewrite Rpower_plus. lra.
Qed.

Lemma mtof_pos m : 0 < mtof m.
Proof. unfold mtof. pose proof (Rpower2_pos ((m - 69) / 12)). lra. Qed.

Lemma Rpower2_m6 : Rpower 2 (-6) = / 64.
Proof.
  replace (-6) with (- INR 6) by (simpl; lra).
  rewrite Rpower_Ropp, Rpower2_nat. simpl. lra.
Qed.

Lemma Rpower2_5 : Rpower 2 5 = 32.
Proof.
  replace 5 with (INR 5) by (simpl; lra). rewrite Rpower2_nat. simpl. lra.
Qed.

(** The exponent [mtof] computes for a MIDI note. *)
Lemma midi_exponent n :
  (0 ≤ n ≤ 127)%Z → n ≠ 69%Z →
  / 12 <= Rabs (IZR (n - 69) / 12) <= 69 / 12 ∧ IZR (n - 69) / 12 <= 58 / 12.
Proof.
  intros Hn Hne.
  assert (H1 : (n - 69 ≤ -1 ∨ 1 ≤ n - 69)%Z) by lia.
  assert (H2 : (-69 ≤ n - 69 ≤ 58)%Z) by lia.
  destruct H2 as (H2 & H3). apply IZR_le in H2, H3.
  unfold Rabs. destruct (Rcase_abs (IZR (n - 69) / 12)); destruct H1 as [H1|H1];
    apply IZR_le in H1; lra.
Qed.

(** In an accurate arithmetic, [mtof] is close to the equal-tempered
    frequency on the MIDI notes. *)
Lemma mtof_in_A4 u A : Accurate u A → mtof_in A 69 = 440.
Proof.
  intros HA. unfold mtof_in.
  rewrite (acc_sub u A HA 69 69) by (unfold safe_integer; simpl; lia).
  replace (69 - 69)%Z with 0%Z by lia.
  assert (Hq : js_div A 0 12 = 0).
  { apply (near_zero u). replace 0 with (0 / 12) at 2 by lra.
    apply (acc_div u A HA); [lra|]. left. lra. }
  rewrite Hq, (acc_pow_zero u A HA).
  rewrite (acc_mul_int u A HA 440 1) by (unfold safe_integer; simpl; lia).
  reflexivity.
Qed.

Lemma mtof_in_close u A n :
  Accurate u A → 0 <= u <= / 10000000 → (0 ≤ n ≤ 127)%Z →
  mtof (IZR n) * (1 - 16 * u) <= mtof_in A (IZR n) <= mtof (IZR n) * (1 + 16 * u).
Proof.
  intros HA Hu Hn. destruct (Z.eq_dec n 69%Z) as [->|Hne].
  { rewrite (mtof_in_A4 u A HA), mtof_A4. lra. }
  unfold mtof_in.
  rewrite (acc_sub u A HA n 69) by (unfold safe_integer; simpl; lia).
  destruct (midi_exponent n Hn Hne) as (Hq & Hq').
  set (q := IZR (n - 69) / 12) in *.
  assert (Hmq : moderate q) by (right; lra).
  pose proof (acc_div u A HA (IZR (n - 69)) 12 ltac:(lra) Hmq) as Hd.
  fold q in Hd. set (q' := js_div A (IZR (n - 69)) 12) in *.
  unfold near in Hd.
  assert (He : Rabs (q' - q) <= 6 * u) by nra.
  assert (He' : Rabs (q' - q) <= / 2) by lra.
  pose proof (Rpower2_small (q' - q) He') as Hs.
  assert (HP : Rpower 2 q' = Rpower 2 q * Rpower 2 (q' - q)).
  { rewrite <- Rpower_plus. f_equal. lra. }
  pose proof (Rpower2_pos q) as Hpq.
  pose proof (Rabs_pos (q' - q)) as Hpos.
  assert (Hqr : -6 <= q' <= 5).
  { apply Rabs_bound in He. unfold Rabs in Hq. destruct (Rcase_abs q); lra. }
  assert (HPr : / 64 <= Rpower 2 q' <= 32).
  { rewrite <- Rpower2_m6, <- Rpower2_5. split; apply Rpower2_le; lra. }
  assert (HmP : moderate (Rpower 2 q')).
  { right. rewrite Rabs_pos_eq by lra. lra. }
  pose proof (near_bounds _ _ _ (Rlt_le _ _ (Rpower2_pos q')) (acc_pow u A HA q' HmP)) as Hp.
  set (p' := Math_pow A 2 q') in *.
  assert (HPu : 0 <= Rpower 2 q' * u <= 32 * u).
  { split; [apply Rmult_le_pos; lra|apply Rmult_le_compat_r; lra]. }
  assert (Hp'r : / 128 <= p' <= 64) by lra.
  assert (Hmf : moderate (440 * p')).
  { right. rewrite Rabs_pos_eq by lra. lra. }
  assert (Hf0 : 0 <= 440 * p') by lra.
  pose proof (near_bounds _ _ _ Hf0 (acc_mul u A HA 440 p' Hmf)) as Hf.
  set (f' := js_mul A 440 p') in *.
  assert (Hm : mtof (IZR n) = 440 * Rpower 2 q).
  { unfold mtof, q. rewrite minus_IZR. reflexivity. }
  rewrite Hm. set (P := Rpower 2 q) in *. set (P' := Rpower 2 q') in *.
  assert (HA1 : P * (1 - 6 * u) <= P' <= P * (1 + 12 * u)).
  { rewrite HP. split.
    - apply Rmult_le_compat_l; lra.
    - apply Rmult_le_compat_l; lra. }
  assert (HPu' : 0 <= P * u) by (apply Rmult_le_pos; lra).
  assert (HPuu : 0 <= P * u * u <= P * u * / 10000000).
  { split; [apply Rmult_le_pos; lra|apply Rmult_le_compat_l; lra]. }
  assert (HA2 : P * (1 - 7 * u) <= p' <= P * (1 + 14 * u)).
  { split.
    - apply Rle_trans with (P * (1 - 6 * u) * (1 - u)); [lra|].
      apply Rle_trans with (P' * (1 - u)); [apply Rmult_le_compat_r; lra|lra].
    - apply Rle_trans with (P' * (1 + u)); [lra|].
      apply Rle_trans with (P * (1 + 12 * u) * (1 + u)); [apply Rmult_le_compat_r; lra|lra]. }
  assert (Hpu : p' * (1 - u) <= f' / 440 <= p' * (1 + u)) by lra.
  split.
  - apply Rle_trans with (440 * (P * (1 - 7 * u) * (1 - u))); [lra|].
    apply Rle_trans with (440 * (p' * (1 - u))); [|lra].
    apply Rmult_le_compat_l; [lra|]. apply Rmult_le_compat_r; lra.
  - apply Rle_trans with (440 * (p' * (1 + u))); [lra|].
    apply Rle_trans with (440 * (P * (1 + 14 * u) * (1 + u))); [|lra].
    apply Rmult_le_compat_l; [lra|]. apply Rmult_le_compat_r; lra.
Qed.

Lemma fourth_root_eighth_close y :
  0 < y → (y * y) * (y * y) = 1 / 8 → 0.594603 < y < 0.594604.
Proof.
  intros Hy H4. split.
  - apply square_lt; [lra|lra|]. apply square_lt; [nra|nra|]. rewrite H4. lra.
  - apply square_lt; [lra|lra|]. apply square_lt; [nra|nra|]. rewrite H4. lra.
Qed.

Lemma mtof_C4_close : 261.625 < mtof 60 < 261.626.
Proof.
  unfold mtof. set (y := Rpower 2 ((60 - 69) / 12)).
  assert (Hy : 0 < y) by apply Rpower2_pos.
  assert (H4 : (y * y) * (y * y) = 1 / 8).
  { unfold y. rewrite <- !Rpower_plus.
    replace ((60 - 69) / 12 + (60 - 69) / 12 + ((60 - 69) / 12 + (60 - 69) / 12))
      with (- INR 3) by (simpl; lra).
    rewrite Rpower_Ropp, Rpower_pow by lra. simpl. lra. }
  destruct (fourth_root_eighth_close y Hy H4). lra.
Qed.

Lemma mtof_midi_range n : (0 ≤ n ≤ 127)%Z → 6.8 < mtof (IZR n) < 14080.
Proof.
  intros (H0 & H1). apply IZR_le in H0, H1.
  unfold mtof.
  assert (H : / 64 < Rpower 2 ((IZR n - 69) / 12) < 32).
  { rewrite <- Rpower2_m6, <- Rpower2_5. split; apply Rpower_lt; lra. }
  lra.
Qed.

Lemma mtof_semitone m n : (m < n)%Z → mtof (IZR m) * (1 + / 24) <= mtof (IZR n).
Proof.
  intros H. assert (H' : (m + 1 ≤ n)%Z) by lia. apply IZR_le in H'.
  rewrite plus_IZR in H'.
  replace (IZR n) with (IZR m + (IZR n - IZR m)) by lra. rewrite mtof_shift.
  pose proof (mtof_pos (IZR m)) as Hp.
  pose proof (Rpower2_growth ((IZR n - IZR m) / 12) ltac:(lra)) as Hg.
  apply Rmult_le_compat_l; lra.
Qed.

(** C10.  In every arithmetic that is accurate with a relative error of at
    most 10^-7 ([Accurate]: exact on safe integers, [Math.pow(2, 0)] is 1,
    and a quotient, a product and a power of 2 of moderate size are within
    that relative error; IEEE doubles round with the relative error 2^-53),
    [mtof(69)] is exactly 440, [mtof(60)] is within 0.01 of 261.63, and
    [mtof] is strictly increasing on the MIDI note numbers, 0 to 127. *)
Theorem mtof_spec (u : R) (A : Arith) :
  Accurate u A → 0 <= u <= / 10000000 →
  mtof_in A 69 = 440 ∧ Rabs (mtof_in A 60 - 261.63) < 0.01 ∧
  ∀ m n : Z, (0 ≤ m)%Z → (m < n)%Z → (n ≤ 127)%Z →
    mtof_in A (IZR m) < mtof_in A (IZR n).
Proof.
  intros HA Hu. split; [exact (mtof_in_A4 u A HA)|]. split.
  - pose proof (mtof_in_close u A 60 HA Hu ltac:(lia)) as Hc.
    pose proof mtof_C4_close as Hi.
    assert (Hx : 0 <= mtof 60 * u <= 262 * / 10000000).
    { split; [apply Rmult_le_pos; lra|].
      apply Rle_trans with (262 * u); [apply Rmult_le_compat_r; lra|lra]. }
    apply Rabs_def1; lra.
  - intros m n H0 Hlt H1.
    pose proof (mtof_in_close u A m HA Hu ltac:(lia)) as (_ & Hm).
    pose proof (mtof_in_close u A n HA Hu ltac:(lia)) as (Hn & _).
    pose proof (mtof_semitone m n Hlt) as Hs.
    pose proof (mtof_pos (IZR m)) as Hp.
    assert (Hmu : 0 <= mtof (IZR m) * u <= mtof (IZR m) * / 10000000).
    { split; [apply Rmult_le_pos; lra|apply Rmult_le_compat_l; lra]. }
    apply Rle_lt_trans with (mtof (IZR m) * (1 + 16 * u)); [exact Hm|].
    apply Rlt_le_trans with (mtof (IZR m) * (1 + / 24) * (1 - 16 * u)).
    + lra.
    + apply Rle_trans with (mtof (IZR n) * (1 - 16 * u)); [|exact Hn].
      apply Rmult_le_compat_r; lra.
Qed.

Lemma mtof_spec_witness :
  (mtof_in exact 69 = 440 ∧ mtof_in exact 60 < mtof_in exact 69) ∧
  (mtof_in skewed 69 = 440 ∧ mtof_in skewed 60 < mtof_in skewed 69).
Proof.
  assert (Hu : 0 <= 0 <= / 10000000) by lra.
  assert (Hu' : 0 <= / 100000000 <= / 10000000) by lra.
  destruct (mtof_spec 0 exact Accurate_exact Hu) as (H1 & _ & H3).
  destruct (mtof_spec _ skewed Accurate_skewed Hu') as (H1' & _ & H3').
  split; (split; [assumption|]).
  - apply (H3 60%Z 69%Z); lia.
  - apply (H3' 60%Z 69%Z); lia.
Defined.

Close Scope R_scope.

(** ** Construction *)

(** C7, as stated, fails: a voice with the frequency -10 and the
    amplitude 1.5 is constructed without any error, and both values are
    stored as they are. *)
Lemma constructor_accepts_invalid :
  let r := constructor (-10)%R 1.5%R masterGain (initial (constantly 0%R)) in
  r.1 = Ok 0 ∧
  frequency <$> voices r.2 !! 0 = Some (-10)%R ∧
  maxAmp <$> voices r.2 !! 0 = Some 1.5%R.
Proof.
  rewrite constructor_eq, initial_eq. simpl.
  rewrite lookup_insert_eq. repeat split.
Qed.

(** C7, amended.  The constructor validates nothing: for every frequency
    and every amplitude it returns a new voice that stores both arguments
    unchanged, together with the fixed envelope constants, and holds no
    node yet. *)
Theorem constructor_stores_arguments (freq amp : R) (out : nat) (w : World) :
  let r := constructor freq amp out w in
  r.1 = Ok (nextVoice w) ∧
  voices r.2 !! nextVoice w =
    Some (mkVoice freq amp out 0.02%R 0.01%R 0.5%R 0.5%R
                  Undefined Undefined Undefined Undefined Undefined Undefined) ∧
  nodes r.2 = nodes w ∧ trace r.2 = trace w.
Proof.
  rewrite constructor_eq. simpl. rewrite lookup_insert_eq. repeat split.
Qed.

(** ** The registry *)

(** C9, as stated, fails: the frequency and the amplitude given to the
    call are ignored.  With a random source that returns 0.25, the voice
    stored for note 60 after [noteOn(60, 440, 0.8)] has neither the
    frequency 440 nor the amplitude 0.8. *)
Lemma noteOn_ignores_arguments :
  let w := (noteOn 60 440%R 0.8%R (initial (constantly 0.25%R))).2 in
  ∃ v, activeVoices w !! 60%Z = Some 0 ∧ voices w !! 0 = Some v ∧
       frequency v ≠ 440%R ∧ maxAmp v ≠ 0.8%R.
Proof.
  unfold noteOn. rewrite startNote_eq by (rewrite initial_eq; apply lookup_empty).
  rewrite initial_eq. simpl. eexists. split; [apply lookup_insert_eq|].
  split; [apply lookup_insert_eq|]. simpl. split.
  - pose proof mtof_C4. lra.
  - unfold constantly. lra.
Qed.

(** C9, amended.  [startNote] takes the note number only: when the note
    has no entry, the voice stored for it has the frequency [mtof(note)]
    and, as peak amplitude, the next value of [Math.random()]. *)
Theorem startNote_voice_parameters (note : Z) (w : World) :
  activeVoices w !! note = None →
  let w' := (startNote note w).2 in
  activeVoices w' !! note = Some (nextVoice w) ∧
  ∃ v, voices w' !! nextVoice w = Some v ∧
       frequency v = mtof (IZR note) ∧
       maxAmp v = randoms w (draws w) ∧
       draws w' = S (draws w).
Proof.
  intros H. rewrite (startNote_eq _ _ H). simpl.
  split; [apply lookup_insert_eq|]. eexists. split; [apply lookup_insert_eq|].
  repeat split.
Qed.

Lemma startNote_voice_parameters_witness :
  let w := initial (constantly 0.25%R) in
  let w' := (startNote 60 w).2 in
  activeVoices w' !! 60%Z = Some (nextVoice w) ∧
  ∃ v, voices w' !! nextVoice w = Some v ∧
       frequency v = mtof (IZR 60) ∧
       maxAmp v = randoms w (draws w) ∧
       draws w' = S (draws w).
Proof.
  apply (startNote_voice_parameters 60 (initial (constantly 0.25%R))).
  rewrite initial_eq. apply lookup_empty.
Defined.

(** In a reachable world, the sounding voices are the registered ones. *)
Lemma Inv_sounding w vid b :
  Inv w → Live w vid b None → ∃ n, activeVoices w !! n = Some vid.
Proof.
  intros HI HL. destruct (Live_voice _ _ _ _ HL) as (v & Hv & _).
  destruct (inv_voices _ _ HI vid v Hv) as (_ & [Hn|[H|[H|H]]]).
  - destruct (Live_voice _ _ _ _ HL) as (v' & Hv' & Hh & _).
    assert (v' = v) by congruence. subst. destruct (holding_not_null _ _ Hh Hn).
  - destruct H as (_ & _ & Hreg). exact Hreg.
  - destruct H as (b' & s & (Ho' & _)). destruct HL as (Ho & _).
    destruct (owns_inj _ _ _ _ _ _ _ _ Ho Ho') as (_ & _ & ?). discriminate.
  - destruct H as (b' & s & _ & Hin). apply elem_of_nil in Hin. destruct Hin.
Qed.

Lemma startNote_registers note w : is_Some (activeVoices (startNote note w).2 !! note).
Proof.
  destruct (activeVoices w !! note) as [vid|] eqn:E.
  - rewrite (startNote_noop _ _ _ E). simpl. rewrite E. eauto.
  - rewrite (startNote_eq _ _ E). simpl. rewrite lookup_insert_eq. eauto.
Qed.

(** In a reachable world, a sounding voice is registered under exactly one
    note. *)
Lemma Inv_sounding_note w vid b :
  Inv w → Live w vid b None →
  ∃ n, activeVoices w !! n = Some vid ∧ ∀ n', activeVoices w !! n' = Some vid → n' = n.
Proof.
  intros HI HL. destruct (Inv_sounding _ _ _ HI HL) as (n & Hn).
  exists n. split; [exact Hn|]. intros n' Hn'.
  exact (inv_injective _ _ HI _ _ _ Hn' Hn).
Qed.

(** C4.  A [startNote] for a note that has an entry changes nothing at
    all: no voice is constructed and the stored voice is untouched; so
    after [startNote] the note has an entry, and a second [startNote] in a
    row is without effect.  In every reachable world, the voice of the
    entry after [startNote] is sounding (its six nodes exist, its sources
    are started and no stop is scheduled) with the frequency [mtof(note)];
    it is the voice that was registered before, if there was one.  It is
    the only sounding voice of the note: every sounding voice is
    registered, under exactly one note, whose frequency it has, and the
    registry has one entry per note. *)
Theorem at_most_one_voice_per_note :
  (∀ (w : World) (note : Z) (vid : nat),
     activeVoices w !! note = Some vid → startNote note w = (Ok tt, w)) ∧
  (∀ (w : World) (note : Z),
     let w1 := (startNote note w).2 in
     is_Some (activeVoices w1 !! note) ∧ startNote note w1 = (Ok tt, w1)) ∧
  (∀ (rnd : nat → R) (acts : list action) (note : Z),
     let w := run acts (initial rnd) in
     let w1 := (startNote note w).2 in
     (startNote note w).1 = Ok tt ∧
     startNote note w1 = (Ok tt, w1) ∧
     (∃ vid b v,
        activeVoices w1 !! note = Some vid ∧ voices w1 !! vid = Some v ∧
        frequency v = mtof (IZR note) ∧ Live w1 vid b None ∧
        (∀ vid', activeVoices w !! note = Some vid' → vid' = vid ∧ w1 = w)) ∧
     (∀ vid' b', Live w1 vid' b' None →
        ∃ n v', activeVoices w1 !! n = Some vid' ∧
                voices w1 !! vid' = Some v' ∧ frequency v' = mtof (IZR n) ∧
                ∀ n', activeVoices w1 !! n' = Some vid' → n' = n)).
Proof.
  split; [intros w note vid; apply startNote_noop|]. split.
  { intros w note w1. pose proof (startNote_registers note w) as Hreg.
    split; [exact Hreg|]. destruct Hreg as (vid & Hvid).
    exact (startNote_noop _ _ _ Hvid). }
  intros rnd acts note w w1.
  pose proof (Inv_reachable rnd acts) as HI. fold w in HI.
  pose proof (Inv_perform (StartNote note) w HI) as (Hok & HI1).
  change (perform (StartNote note) w) with (startNote note w) in Hok, HI1.
  fold w1 in HI1.
  destruct (startNote_registers note w) as (vid & Hvid). fold w1 in Hvid.
  split; [exact Hok|]. split; [exact (startNote_noop _ _ _ Hvid)|]. split.
  - destruct (inv_registry _ _ HI1 note vid Hvid) as (b & v & HL & Hv & Hf).
    exists vid, b, v. split; [exact Hvid|]. split; [exact Hv|].
    split; [exact Hf|]. split; [exact HL|].
    intros vid' H'. assert (Hw : w1 = w).
    { unfold w1. rewrite (startNote_noop _ _ _ H'). reflexivity. }
    split; [|exact Hw]. rewrite Hw in Hvid. congruence.
  - intros vid' b' HL'.
    destruct (Inv_sounding_note _ _ _ HI1 HL') as (n & Hn & Huniq).
    destruct (inv_registry _ _ HI1 n vid' Hn) as (_ & v' & _ & Hv' & Hf').
    exists n, v'. auto.
Qed.

Lemma at_most_one_voice_per_note_witness :
  let w := initial (constantly 0.25%R) in
  let w1 := (startNote 60 w).2 in
  activeVoices w1 !! 60%Z = Some 0 ∧ startNote 60 w1 = (Ok tt, w1).
Proof.
  assert (H : activeVoices (startNote 60 (initial (constantly 0.25%R))).2 !! 60%Z = Some 0).
  { rewrite startNote_eq by (rewrite initial_eq; apply lookup_empty).
    rewrite initial_eq. apply lookup_insert_eq. }
  split; [exact H|].
  exact (proj1 at_most_one_voice_per_note _ 60%Z 0 H).
Defined.

(** C5.  [stopNote] for a note without entry changes nothing.  For a note
    with an entry, in every reachable world, the [stop] of the stored voice
    returns normally and the entry is removed at once: the registry is the
    former one without that note, while the voice is still releasing, its
    sources being scheduled to stop 0.51 s later. *)
Theorem stopNote_removes_entry :
  (∀ (w : World) (note : Z),
     activeVoices w !! note = None → stopNote note w = (Ok tt, w)) ∧
  (∀ (rnd : nat → R) (acts : list action) (note : Z) (vid : nat),
     let w := run acts (initial rnd) in
     activeVoices w !! note = Some vid →
     let w' := (stopNote note w).2 in
     (stop vid w).1 = Ok tt ∧
     stopNote note w = (Ok tt, with_activeVoices (delete note) (stop vid w).2) ∧
     activeVoices w' = delete note (activeVoices w) ∧
     activeVoices w' !! note = None ∧
     (∀ n, n ≠ note → activeVoices w' !! n = activeVoices w !! n) ∧
     ∃ b, Live w' vid b (Some (currentTime w + 0.5 + 0.01)%R)).
Proof.
  split; [intros w note; apply stopNote_noop|].
  intros rnd acts note vid w Hreg w'.
  pose proof (Inv_reachable rnd acts) as HI. fold w in HI.
  destruct (Inv_registered _ _ _ HI Hreg) as (b & HL).
  destruct (stop_Live _ _ _ _ HL) as (ne & Hne & Hs).
  assert (Hw' : w' = stopNote_effect note b 0.5 (value (param ne)) w).
  { unfold w'. rewrite (stopNote_step _ _ _ Hreg), Hs. reflexivity. }
  split; [rewrite Hs; reflexivity|].
  split; [rewrite (stopNote_step _ _ _ Hreg), Hs; reflexivity|].
  rewrite Hw'. split; [reflexivity|]. simpl.
  split; [apply lookup_delete_eq|].
  split; [intros n Hn; apply lookup_delete_ne; congruence|].
  exists b. apply (Live_stopNote_self w note vid b None). exact HL.
Qed.

Lemma stopNote_removes_entry_witness :
  activeVoices (stopNote 60 one_note).2 !! 60%Z = None.
Proof.
  destruct (proj2 stopNote_removes_entry (constantly 0.25%R) [StartNote 60] 60%Z 0
              one_note_registry) as (_ & _ & _ & H & _).
  exact H.
Defined.

(** C8, as stated, fails: [stop] on a voice that has not been started
    raises a [TypeError], the envelope stage being undefined. *)
Lemma stop_before_start_throws :
  let r := constructor 440%R 0.5%R masterGain (initial (constantly 0%R)) in
  r.1 = Ok 0 ∧ stop 0 r.2 = (Throw TypeError, r.2).
Proof.
  split; [reflexivity|]. eapply stop_throws.
  - rewrite constructor_eq. simpl. apply lookup_insert_eq.
  - left. reflexivity.
Qed.

(** C8, amended.  [stop] returns normally, as often as it is called, on a
    voice that has been started and is not yet disposed; the voice is then
    releasing.  On a voice that has not been started, and on a disposed
    voice, it raises a [TypeError] and changes nothing. *)
Theorem stop_outside_life_cycle :
  (∀ (w : World) (vid b : nat) (st : option R),
     Live w vid b st →
     (stop vid w).1 = Ok tt ∧
     Live (stop vid w).2 vid b (Some (currentTime w + 0.5 + 0.01)%R)) ∧
  (∀ (freq amp : R) (out : nat) (w : World),
     let r := constructor freq amp out w in
     stop (nextVoice w) r.2 = (Throw TypeError, r.2)) ∧
  (∀ (w : World) (vid b : nat),
     Disposed w vid b → stop vid w = (Throw TypeError, w)).
Proof.
  split; [|split].
  - intros w vid b st HL. destruct (stop_Live _ _ _ _ HL) as (ne & _ & ->).
    split; [reflexivity|]. apply (Live_stop w vid b st). exact HL.
  - intros freq amp out w r. eapply stop_throws.
    + unfold r. rewrite constructor_eq. simpl. apply lookup_insert_eq.
    + left. reflexivity.
  - intros w vid b [(v & Hv & Hn) _ _ _ _]. eapply stop_throws; [exact Hv|].
    right. apply Hn.
Qed.

Lemma stop_outside_life_cycle_witness : (stop 0 one_note).1 = Ok tt.
Proof.
  destruct (Inv_registered one_note 60 0 (Inv_reachable _ _) one_note_registry)
    as (b & HL).
  exact (proj1 (proj1 stop_outside_life_cycle one_note 0 b None HL)).
Defined.

(** C1.  In every reachable world, once [stopNote] has called [stop] on the
    voice of a note, and whatever happens afterwards while time moves
    forward: before 0.51 s (release and guard interval) have elapsed the
    voice still holds its six nodes, none of which has been disconnected;
    from then on the voice is disposed: [dispose] has run as the [ended]
    handler of the fundamental source, every one of the six nodes has been
    disconnected exactly once and has no outgoing connection, the six
    references are null, and no handler has raised an exception. *)
Theorem dispose_exactly_once (rnd : nat → R) (acts0 : list action) (note : Z)
    (vid : nat) (acts : list action) :
  let w := run acts0 (initial rnd) in
  activeVoices w !! note = Some vid →
  Forall forward acts →
  let s := (currentTime w + 0.5 + 0.01)%R in
  let w' := run acts (stopNote note w).2 in
  ∃ b, (∃ v, voices w !! vid = Some v ∧ holding b v) ∧
       ((currentTime w' < s)%R → Live w' vid b (Some s)) ∧
       ((s <= currentTime w')%R → Disposed w' vid b) ∧
       uncaught w' = [].
Proof.
  intros w Hreg Hfw s w'.
  pose proof (Inv_reachable rnd acts0) as HI. fold w in HI.
  destruct (stopNote_eq _ _ _ HI Hreg) as (b & ne & HL & _ & Hstop).
  assert (HI1 : Inv (stopNote note w).2).
  { rewrite Hstop. eapply Inv_stopNote; eauto. }
  assert (HT : Tracked w' vid b s).
  { apply Tracked_run; [exact HI1|exact Hfw|]. left. rewrite Hstop.
    apply (Live_stopNote_self w note vid b None). exact HL. }
  exists b. split; [|split; [|split]].
  - destruct (Live_voice _ _ _ _ HL) as (v & Hv & Hh & _). eauto.
  - intros Ht. destruct HT as [HL'|(_ & Hs)]; [exact HL'|lra].
  - intros Ht. destruct HT as [(_ & Hp)|(HD & _)]; [|exact HD].
    specialize (Hp s eq_refl). lra.
  - apply (inv_uncaught _ _ (Inv_run acts _ HI1)).
Qed.

Lemma dispose_exactly_once_witness :
  ∃ b, (∃ v, voices one_note !! 0 = Some v ∧ holding b v) ∧
       Disposed (run [Advance 1%R] (stopNote 60 one_note).2) 0 b.
Proof.
  assert (Hfw : Forall forward [Advance 1%R]).
  { constructor; [simpl; lra|constructor]. }
  destruct (dispose_exactly_once (constantly 0.25%R) [StartNote 60] 60%Z 0
              [Advance 1%R] one_note_registry Hfw) as (b & Hv & _ & HD & _).
  exists b. split; [exact Hv|]. apply HD.
  assert (HI : Inv one_note) by apply Inv_reachable.
  pose proof (Inv_perform (StopNote 60) _ HI) as (_ & HI1).
  change (currentTime one_note + 0.5 + 0.01 <=
          currentTime (perform (Advance 1) (perform (StopNote 60) one_note).2).2)%R.
  rewrite (currentTime_perform (Advance 1) _ HI1).
  rewrite (currentTime_perform (StopNote 60) _ HI). lra.
Defined.




(** C3.  The constructor fixes attack = 0.02, decay = 0.01, sustain = 0.5
    and release = 0.5.  On a voice with these constants, [start] returns
    normally and leaves exactly three events on the gain of the new
    envelope stage: the value 0 at the current time, a linear ramp to the
    peak amplitude 0.02 s later, and a linear ramp to half the peak
    amplitude 0.01 s after that. *)
Theorem start_schedules_attack_decay :
  (∀ (freq amp : R) (out : nat) (w : World),
     ∃ v, voices (constructor freq amp out w).2 !! nextVoice w = Some v ∧
          maxAmp v = amp ∧ adsr v) ∧
  (∀ (w : World) (vid : nat) (v : Voice),
     voices w !! vid = Some v → adsr v →
     let now := currentTime w in
     let e := 5 + nextNode w in
     let w' := (start vid w).2 in
     (start vid w).1 = Ok tt ∧
     (ampEnv <$> voices w' !! vid) = Some (Obj e) ∧
     ∃ ne, nodes w' !! e = Some ne ∧
           events (param ne) =
             [SetValue 0 now; LinearRamp (maxAmp v) (now + 0.02);
              LinearRamp (0.5 * maxAmp v) (now + 0.02 + 0.01)]%R).
Proof.
  split.
  - intros freq amp out w. rewrite constructor_eq. simpl.
    eexists. split; [apply lookup_insert_eq|]. repeat split.
  - intros w vid v Hv Ha now e w'. unfold w'. rewrite (start_eq _ _ _ Hv).
    cbn [fst snd]. split; [reflexivity|].
    split; [simpl; rewrite lookup_insert_eq; reflexivity|].
    exists (envelope_node v now). split; [simpl; lookups; reflexivity|].
    apply attack_decay_events. exact Ha.
Qed.

Lemma start_schedules_attack_decay_witness :
  let w := (constructor 440%R 0.8%R masterGain (initial (constantly 0%R))).2 in
  (start 0 w).1 = Ok tt.
Proof.
  intros w.
  destruct (proj1 start_schedules_attack_decay 440%R 0.8%R masterGain
              (initial (constantly 0%R))) as (v & Hv & _ & Ha).
  exact (proj1 (proj2 start_schedules_attack_decay w 0 v Hv Ha)).
Defined.


Open Scope R_scope.



Close Scope R_scope.

(** * Further properties of the code *)

(** ** [mtof] *)

Open Scope R_scope.

(** X1.  In every arithmetic that is accurate with a relative error [u] of
    at most 10^-7, and for every MIDI note number from 0 to 127, the
    frequency computed by [mtof] is positive, between 6 and 15000; it
    differs from the equal-tempered frequency [440 * 2^((n - 69) / 12)],
    which is [mtof] in the arithmetic without rounding, by at most [16 u]
    times that frequency; and the frequency computed for the note an octave
    higher is twice the frequency computed for the note, up to [64 u] times
    the frequency. *)
Theorem mtof_transposition (u : R) (A : Arith) (n : Z) :
  Accurate u A → 0 <= u <= / 10000000 → (0 ≤ n ≤ 127)%Z →
  6 < mtof_in A (IZR n) < 15000 ∧
  Rabs (mtof_in A (IZR n) - mtof (IZR n)) <= 16 * u * mtof (IZR n) ∧
  mtof (IZR n) = mtof_in exact (IZR n) ∧
  ((n + 12 ≤ 127)%Z →
   Rabs (mtof_in A (IZR (n + 12)) - 2 * mtof_in A (IZR n)) <= 64 * u * mtof (IZR n)).
Proof.
  intros HA Hu Hn.
  pose proof (mtof_in_close u A n HA Hu Hn) as Hc.
  pose proof (mtof_midi_range n Hn) as Hr.
  assert (Hmu : 0 <= mtof (IZR n) * u <= 14080 * / 10000000).
  { split; [apply Rmult_le_pos; lra|].
    apply Rle_trans with (14080 * u); [|lra].
    apply Rmult_le_compat; lra. }
  split; [lra|]. split; [apply Rabs_le; lra|]. split; [reflexivity|].
  intros H12.
  pose proof (mtof_in_close u A (n + 12) HA Hu ltac:(lia)) as Hc'.
  assert (H2 : mtof (IZR (n + 12)) = 2 * mtof (IZR n)).
  { rewrite plus_IZR, mtof_shift. replace (12 / 12) with 1 by lra.
    rewrite Rpower_1 by lra. lra. }
  rewrite H2 in Hc'. apply Rabs_le. lra.
Qed.

Lemma mtof_transposition_witness :
  Rabs (mtof_in skewed (IZR (57 + 12)) - 2 * mtof_in skewed (IZR 57))
  <= 64 * / 100000000 * mtof (IZR 57).
Proof.
  assert (Hu : 0 <= / 100000000 <= / 10000000) by lra.
  apply (mtof_transposition _ skewed 57 Accurate_skewed Hu); lia.
Defined.

Close Scope R_scope.

(** ** [Voice.start], [Voice.stop] and [Voice.dispose] outside the registry *)

(** X2.  On every voice object, whatever its state, whose output is a
    node of the context and for which the host accepts the arguments of the
    calls ([accepted]: the three frequencies and the two amplitudes fit a
    32-bit float, and no time is negative), [start] returns normally.  It creates six nodes and no more: the
    fundamental, a sine at the frequency of the voice, whose [ended]
    handler is the [dispose] of this voice, connected to the envelope; two
    sawtooth sources at twice and three times the frequency, each connected
    to its own gain of 0.5, which is connected to the envelope; and the
    envelope, connected to the output of the voice.  The three sources are
    started, no stop is scheduled.  The voice refers to the six new nodes;
    no other node is touched. *)
Theorem start_builds_chain (w : World) (this : nat) (v : Voice) :
  voices w !! this = Some v →
  is_Some (nodes w !! output v) →
  accepted v (currentTime w) →
  let now := currentTime w in
  let b := nextNode w in
  let f := frequency v in
  let w' := (start this w).2 in
  (start this w).1 = Ok tt ∧
  nextNode w' = 6 + b ∧
  voices w' !! this = Some (held b v) ∧
  nodes w' !! b =
    Some (mkNode OscillatorNode (mkParam 440%R [SetValue f now]) Sine
                 true None false (Some this) [5 + b]) ∧
  nodes w' !! (1 + b) =
    Some (mkNode OscillatorNode (mkParam 440%R [SetValue (f * 2)%R now]) Sawtooth
                 true None false None [2 + b]) ∧
  nodes w' !! (2 + b) =
    Some (mkNode GainNode (mkParam 0.5%R [SetValue 0.5%R now]) Sine
                 false None false None [5 + b]) ∧
  nodes w' !! (3 + b) =
    Some (mkNode OscillatorNode (mkParam 440%R [SetValue (f * 3)%R now]) Sawtooth
                 true None false None [4 + b]) ∧
  nodes w' !! (4 + b) =
    Some (mkNode GainNode (mkParam 0.5%R [SetValue 0.5%R now]) Sine
                 false None false None [5 + b]) ∧
  (∃ n, nodes w' !! (5 + b) = Some n ∧ kind n = GainNode ∧
        outputs n = [output v] ∧ started n = false) ∧
  (∀ id, id < b → nodes w' !! id = nodes w !! id) ∧
  (∀ vid, vid ≠ this → voices w' !! vid = voices w !! vid) ∧
  activeVoices w' = activeVoices w ∧ currentTime w' = now.
Proof.
  intros Hv _ _ now b f w'. unfold w'. rewrite (start_eq _ _ _ Hv). cbn [fst snd].
  unfold start_effect; wsimpl. fold b now.
  split; [reflexivity|]. split; [reflexivity|].
  split; [apply lookup_insert_eq|].
  split; [lookups; reflexivity|]. split; [lookups; reflexivity|].
  split; [lookups; reflexivity|]. split; [lookups; reflexivity|].
  split; [lookups; reflexivity|].
  split; [exists (envelope_node v now); split; [lookups; reflexivity|repeat split]|].
  split; [intros id Hid; lookups; reflexivity|].
  split; [intros vid Hne; rewrite lookup_insert_ne by auto; reflexivity|].
  split; reflexivity.
Qed.

Lemma start_builds_chain_witness :
  let w := (constructor 440%R 0.8%R masterGain (initial (constantly 0%R))).2 in
  nextNode (start 0 w).2 = 6 + nextNode w.
Proof.
  intros w.
  assert (Hv : voices w !! 0 =
               Some (mkVoice 440%R 0.8%R masterGain 0.02%R 0.01%R 0.5%R 0.5%R
                       Undefined Undefined Undefined Undefined Undefined Undefined)).
  { unfold w. rewrite constructor_eq, initial_eq. simpl. apply lookup_insert_eq. }
  assert (Ht : currentTime w = 0%R).
  { unfold w. rewrite constructor_eq, initial_eq. reflexivity. }
  assert (Ha : accepted (mkVoice 440%R 0.8%R masterGain 0.02%R 0.01%R 0.5%R 0.5%R
                       Undefined Undefined Undefined Undefined Undefined Undefined)
                 (currentTime w)).
  { rewrite Ht. unfold accepted, fits_float. simpl.
    repeat split; try (apply Rabs_le); lra. }
  assert (Ho : is_Some (nodes w !! masterGain)).
  { unfold w. rewrite constructor_eq, initial_eq. simpl.
    rewrite lookup_insert_eq. eauto. }
  exact (proj1 (proj2 (start_builds_chain w 0 _ Hv Ho Ha))).
Defined.

Lemma dispose_throws this v w :
  voices w !! this = Some v → osc v = Undefined ∨ osc v = Null →
  dispose this w = (Throw TypeError, w).
Proof.
  intros Hv He. destruct w as [t N nn tr V nv AV rnd d u]. simpl in Hv.
  destruct v as [f a out att dec sus rel o o2 o2s o3 o3s e]. simpl in He.
  unfold dispose. hred. rewrite Hv. hred.
  destruct He as [-> | ->]; reflexivity.
Qed.

(** X3.  [dispose] is not idempotent: on a voice that has been disposed,
    and on a voice that has not been started, it raises a [TypeError] at
    its first statement and changes nothing. *)
Theorem dispose_outside_life_cycle :
  (∀ (w : World) (vid b : nat),
     Disposed w vid b → dispose vid w = (Throw TypeError, w)) ∧
  (∀ (freq amp : R) (out : nat) (w : World),
     let r := constructor freq amp out w in
     dispose (nextVoice w) r.2 = (Throw TypeError, r.2)).
Proof.
  split.
  - intros w vid b [(v & Hv & Hn) _ _ _ _]. eapply dispose_throws; [exact Hv|].
    right. apply Hn.
  - intros freq amp out w r. eapply dispose_throws.
    + unfold r. rewrite constructor_eq. simpl. apply lookup_insert_eq.
    + left. reflexivity.
Qed.

Lemma dispose_outside_life_cycle_witness :
  dispose 0 (run [Advance 1%R] (stopNote 60 one_note).2) =
  (Throw TypeError, run [Advance 1%R] (stopNote 60 one_note).2).
Proof.
  assert (Hfw : Forall forward [Advance 1%R]).
  { constructor; [simpl; lra|constructor]. }
  assert (HI : Inv one_note) by apply Inv_reachable.
  destruct (stopNote_eq _ _ _ HI one_note_registry) as (b & ne & HL & _ & Hstop).
  pose proof (Inv_perform (StopNote 60) _ HI) as (_ & HI1).
  assert (HT : Tracked (run [Advance 1%R] (stopNote 60 one_note).2) 0 b
                 (currentTime one_note + 0.5 + 0.01)%R).
  { apply Tracked_run; [exact HI1|exact Hfw|]. left. rewrite Hstop.
    apply (Live_stopNote_self one_note 60 0 b None). exact HL. }
  destruct HT as [(_ & Hp)|(HD & _)].
  - exfalso. specialize (Hp _ eq_refl). revert Hp.
    change (¬ (currentTime (perform (Advance 1) (perform (StopNote 60) one_note).2).2
               < currentTime one_note + 0.5 + 0.01)%R).
    rewrite (currentTime_perform (Advance 1) _ HI1).
    rewrite (currentTime_perform (StopNote 60) _ HI). lra.
  - exact (proj1 dispose_outside_life_cycle _ 0 b HD).
Defined.

(** X4.  [dispose] called on a voice that is still sounding returns
    normally: the references are null and the six nodes disconnected, but
    the three sources are still running and no stop is scheduled for them;
    the voice cannot stop them any more, for [stop] now raises a
    [TypeError]. *)
Theorem dispose_before_stop (w : World) (vid b : nat) :
  Live w vid b None →
  let w' := (dispose vid w).2 in
  (dispose vid w).1 = Ok tt ∧
  (∃ v, voices w' !! vid = Some v ∧ all_null v) ∧
  (∀ k, k < 6 → ∃ n, nodes w' !! (k + b) = Some n ∧ outputs n = []) ∧
  (∀ k, k = 0 ∨ k = 1 ∨ k = 3 →
     ∃ n, nodes w' !! (k + b) = Some n ∧ started n = true ∧ ended n = false ∧
          stopTime n = None ∧ ∀ t, due t n = false) ∧
  stop vid w' = (Throw TypeError, w').
Proof.
  intros (Ho & _) w'. unfold w'. rewrite (dispose_owns _ _ _ _ _ Ho). cbn [fst snd].
  pose proof Ho as [(v & Hv & Hh & _) Hb (n0 & Hn0 & Hs0 & He0 & Ht0 & _)
    (n1 & Hn1 & Hs1 & He1 & Ht1 & _) (n3 & Hn3 & Hs3 & He3 & Ht3 & _)
    (n2 & Hn2 & _) (n4 & Hn4 & _) (n5 & Hn5 & _) _].
  assert (Hvoice : voices (dispose_effect vid b w) !! vid = Some (nulled v)).
  { unfold dispose_effect; wsimpl. rewrite lookup_alter_eq, Hv. reflexivity. }
  split; [reflexivity|].
  split; [exists (nulled v); split; [exact Hvoice|apply all_null_nulled]|].
  split; [|split].
  - intros k Hk. unfold dispose_effect; wsimpl.
    destruct k as [|[|[|[|[|[|k]]]]]]; try lia.
    + exists (clear_outputs n0). split; [lookups; rewrite Hn0|]; reflexivity.
    + exists (clear_outputs n1). split; [lookups; rewrite Hn1|]; reflexivity.
    + exists (clear_outputs n2). split; [lookups; rewrite Hn2|]; reflexivity.
    + exists (clear_outputs n3). split; [lookups; rewrite Hn3|]; reflexivity.
    + exists (clear_outputs n4). split; [lookups; rewrite Hn4|]; reflexivity.
    + exists (clear_outputs n5). split; [lookups; rewrite Hn5|]; reflexivity.
  - intros k Hk. unfold dispose_effect; wsimpl. destruct Hk as [-> | [-> | ->]].
    + exists (clear_outputs n0). split; [lookups; rewrite Hn0; reflexivity|].
      repeat split; auto. intros t. unfold due. simpl. rewrite Ht0.
      apply andb_false_r.
    + exists (clear_outputs n1). split; [lookups; rewrite Hn1; reflexivity|].
      repeat split; auto. intros t. unfold due. simpl. rewrite Ht1.
      apply andb_false_r.
    + exists (clear_outputs n3). split; [lookups; rewrite Hn3; reflexivity|].
      repeat split; auto. intros t. unfold due. simpl. rewrite Ht3.
      apply andb_false_r.
  - eapply stop_throws; [exact Hvoice|]. right. reflexivity.
Qed.

Lemma dispose_before_stop_witness : (dispose 0 one_note).1 = Ok tt.
Proof.
  destruct (Inv_registered one_note 60 0 (Inv_reachable _ _) one_note_registry)
    as (b & HL).
  exact (proj1 (dispose_before_stop one_note 0 b HL)).
Defined.



(** ** Properties of all reachable worlds *)

(** What an action does in a world between two actions. *)
Lemma perform_cases a w :
  Inv w →
  (perform a w).2 = w ∨
  (∃ n, a = StartNote n ∧ activeVoices w !! n = None ∧
        (perform a w).2 = startNote_effect n w) ∨
  (∃ n vid b ne, a = StopNote n ∧ activeVoices w !! n = Some vid ∧
        Live w vid b None ∧ nodes w !! (5 + b) = Some ne ∧
        (perform a w).2 = stopNote_effect n b 0.5 (value (param ne)) w) ∨
  (∃ dt, a = Advance dt ∧
        (perform a w).2 =
        (for_each fire_ended (ending (currentTime w + dt) w)
           (ticked (currentTime w + dt) w)).2).
Proof.
  intros HI. destruct a as [n|n|dt]; simpl.
  - destruct (activeVoices w !! n) as [vid|] eqn:E.
    + left. rewrite (startNote_noop _ _ _ E). reflexivity.
    + right; left. exists n. rewrite (startNote_eq _ _ E). auto.
  - destruct (activeVoices w !! n) as [vid|] eqn:E.
    + right; right; left.
      destruct (stopNote_eq _ _ _ HI E) as (b & ne & HL & Hne & ->).
      exists n, vid, b, ne. auto.
    + left. rewrite (stopNote_noop _ _ E). reflexivity.
  - right; right; right. exists dt. rewrite advance_eq. auto.
Qed.

Lemma deliver_ind (P : World → Prop) :
  (∀ w vid b s, owns w vid b true (Some s) → P w → P (dispose_effect vid b w)) →
  ∀ rem w, InvP rem w → P w → P (for_each fire_ended rem w).2.
Proof.
  intros Hd rem. induction rem as [|id rem IH]; intros w HI HP; [exact HP|].
  rewrite for_each_cons by apply fire_ended_ok.
  apply IH; [apply InvP_fire, HI|].
  destruct (fire_ended_cases _ _ _ HI) as [(-> & _)|(vid & s & Ho & ->)];
    [exact HP|]. eapply Hd; eauto.
Qed.

(** A property kept by the four ways in which the world changes holds in
    every reachable world. *)
Lemma reachable_ind (P : World → Prop) (rnd : nat → R) :
  P (initial rnd) →
  (∀ w n, Inv w → P w → activeVoices w !! n = None → P (startNote_effect n w)) →
  (∀ w n vid b v0, Inv w → P w → activeVoices w !! n = Some vid →
     Live w vid b None → P (stopNote_effect n b 0.5 v0 w)) →
  (∀ w t, Inv w → P w → P (ticked t w)) →
  (∀ w vid b s, owns w vid b true (Some s) → P w → P (dispose_effect vid b w)) →
  ∀ acts, P (run acts (initial rnd)).
Proof.
  intros H0 Hstart Hstop Htick Hdisp acts.
  assert (H : ∀ w, Inv w → P w → P (run acts w)).
  { induction acts as [|a acts IH]; intros w HI HP; [exact HP|].
    rewrite run_cons. apply IH; [apply Inv_perform, HI|].
    destruct (perform_cases a w HI)
      as [->|[(n & _ & Hn & ->)|[(n & vid & b & ne & _ & Hn & HL & _ & ->)|(dt & _ & ->)]]].
    - exact HP.
    - apply Hstart; assumption.
    - eapply Hstop; eauto.
    - apply (deliver_ind P Hdisp); [apply Inv_ticked, HI|]. apply Htick; assumption. }
  apply H; [apply Inv_initial|exact H0].
Qed.

Lemma Live_not_registered w vid b s note :
  Inv w → Live w vid b (Some s) → activeVoices w !! note ≠ Some vid.
Proof.
  intros HI (Ho & _) Hreg. destruct (Inv_registered _ _ _ HI Hreg) as (b' & (Ho' & _)).
  destruct (owns_inj _ _ _ _ _ _ _ _ Ho Ho') as (_ & _ & ?). discriminate.
Qed.

Lemma null_not_registered w vid v note :
  Inv w → voices w !! vid = Some v → all_null v → activeVoices w !! note ≠ Some vid.
Proof.
  intros HI Hv Hn Hreg. destruct (Inv_registered _ _ _ HI Hreg) as (b' & HL).
  destruct (Live_voice _ _ _ _ HL) as (v' & Hv' & Hh & _).
  assert (v' = v) by congruence. subst. eapply holding_not_null; eauto.
Qed.

(** X6.  In every reachable world, every [Voice] object is in one of three
    states: sounding, registered under a note whose frequency it has;
    releasing, with a stop scheduled in the future, and not in the registry;
    or disposed, with null references, and not in the registry.  And every
    entry of the registry refers to a sounding voice. *)
Theorem voice_life_cycle (rnd : nat → R) (acts : list action) :
  let w := run acts (initial rnd) in
  (∀ vid v, voices w !! vid = Some v →
     (∃ b note, Live w vid b None ∧ activeVoices w !! note = Some vid ∧
                frequency v = mtof (IZR note)) ∨
     (∃ b s, Live w vid b (Some s) ∧ (currentTime w < s)%R ∧
             ∀ note, activeVoices w !! note ≠ Some vid) ∨
     (all_null v ∧ ∀ note, activeVoices w !! note ≠ Some vid)) ∧
  (∀ note vid, activeVoices w !! note = Some vid →
     ∃ b v, voices w !! vid = Some v ∧ Live w vid b None).
Proof.
  intros w. pose proof (Inv_reachable rnd acts) as HI. fold w in HI. split.
  - intros vid v Hv. destruct (inv_voices _ _ HI vid v Hv) as (_ & [Hn|[H|[H|H]]]).
    + right; right. split; [exact Hn|]. intros note.
      eapply null_not_registered; eauto.
    + left. destruct H as (b & HL & note & Hreg). exists b, note.
      split; [exact HL|]. split; [exact Hreg|].
      destruct (inv_registry _ _ HI note vid Hreg) as (_ & v' & _ & Hv' & Hf).
      congruence.
    + right; left. destruct H as (b & s & HL). exists b, s.
      split; [exact HL|]. split; [apply (proj2 HL s eq_refl)|].
      intros note. eapply Live_not_registered; eauto.
    + destruct H as (b & s & _ & Hin). apply elem_of_nil in Hin. destruct Hin.
  - intros note vid Hreg.
    destruct (inv_registry _ _ HI note vid Hreg) as (b & v & HL & Hv & _). eauto.
Qed.

Lemma voice_life_cycle_witness : ∃ b v, voices one_note !! 0 = Some v ∧ Live one_note 0 b None.
Proof.
  exact (proj2 (voice_life_cycle (constantly 0.25%R) [StartNote 60]) 60%Z 0
           one_note_registry).
Defined.

(** X7.  In every reachable world, a call of [startNote] or of [stopNote],
    for any note, returns normally, and so does a step of the clock; no
    [ended] handler has ever raised an exception. *)
Theorem handlers_never_throw (rnd : nat → R) (acts : list action) (a : action) :
  let w := run acts (initial rnd) in
  (perform a w).1 = Ok tt ∧ uncaught w = [] ∧ uncaught (perform a w).2 = [].
Proof.
  intros w. pose proof (Inv_reachable rnd acts) as HI. fold w in HI.
  destruct (Inv_perform a w HI) as (Hok & HI').
  split; [exact Hok|]. split; [apply (inv_uncaught _ _ HI)|apply (inv_uncaught _ _ HI')].
Qed.

(** X8.  A [startNote] followed at once by the [stopNote] of the same note,
    for a note without entry, leaves the registry as it was; one voice more
    has been constructed, and it is releasing, to be stopped 0.51 s later. *)
Theorem startNote_stopNote_round_trip (rnd : nat → R) (acts : list action) (note : Z) :
  let w := run acts (initial rnd) in
  activeVoices w !! note = None →
  let w' := run [StartNote note; StopNote note] w in
  activeVoices w' = activeVoices w ∧
  nextVoice w' = S (nextVoice w) ∧
  currentTime w' = currentTime w ∧
  ∃ b, Live w' (nextVoice w) b (Some (currentTime w + 0.5 + 0.01)%R).
Proof.
  intros w Hnone w'. pose proof (Inv_reachable rnd acts) as HI. fold w in HI.
  unfold w'. rewrite !run_cons. cbn [run foldl perform].
  rewrite (startNote_eq _ _ Hnone). cbn [snd].
  assert (HI1 : Inv (startNote_effect note w)) by (apply Inv_startNote; assumption).
  assert (Hreg : activeVoices (startNote_effect note w) !! note = Some (nextVoice w)).
  { simpl. apply lookup_insert_eq. }
  destruct (stopNote_eq _ _ _ HI1 Hreg) as (b & ne & HL & _ & ->). cbn [snd].
  split; [|split; [reflexivity|split; [reflexivity|]]].
  - simpl. rewrite delete_insert_eq. apply delete_id. exact Hnone.
  - exists b.
    apply (Live_stopNote_self (startNote_effect note w) note (nextVoice w) b None).
    exact HL.
Qed.

Lemma startNote_stopNote_round_trip_witness :
  activeVoices (run [StartNote 60; StopNote 60] (initial (constantly 0.25%R))) =
  activeVoices (initial (constantly 0.25%R)).
Proof.
  assert (H : activeVoices (run [] (initial (constantly 0.25%R))) !! 60%Z = None).
  { simpl. apply lookup_empty. }
  exact (proj1 (startNote_stopNote_round_trip (constantly 0.25%R) [] 60%Z H)).
Defined.

(** ** The master gain and the nodes of the voices *)

Lemma render_master t : render_node t master_node = master_node.
Proof.
  unfold render_node, due, master_node, map_param, render_param, param_value_at. simpl.
  destruct (Rlt_dec t 0); reflexivity.
Qed.

Lemma render_destination t : render_node t destination_node = destination_node.
Proof. reflexivity. Qed.

Lemma Wired_initial rnd : Wired (initial rnd).
Proof.
  rewrite initial_eq. split; simpl.
  - apply lookup_insert_eq.
  - rewrite lookup_insert_ne by (unfold masterGain, destination; lia).
    apply lookup_singleton_eq.
  - lia.
  - intros vid v H. rewrite lookup_empty in H. discriminate.
  - intros vid v b H. rewrite lookup_empty in H. discriminate.
Qed.

Lemma Wired_reachable rnd acts : Wired (run acts (initial rnd)).
Proof.
  apply reachable_ind.
  - apply Wired_initial.
  - intros w n HI [Hm Hd Hn Hv Hb] Hnone. split; unfold masterGain, destination in *.
    + simpl. lookups. exact Hm.
    + simpl. lookups. exact Hd.
    + simpl. lia.
    + intros vid v Hl. simpl in Hl. destruct (decide (vid = nextVoice w)) as [->|Hne].
      * rewrite lookup_insert_eq in Hl. injection Hl as <-. reflexivity.
      * rewrite !lookup_insert_ne in Hl by auto. eapply Hv; eauto.
    + intros vid v b Hl Hh. simpl in Hl. destruct (decide (vid = nextVoice w)) as [->|Hne].
      * rewrite lookup_insert_eq in Hl. injection Hl as <-.
        rewrite (holding_inj _ _ _ Hh (holding_held (nextNode w) _)). exact Hn.
      * rewrite !lookup_insert_ne in Hl by auto. eapply Hb; eauto.
  - intros w n vid b v0 HI [Hm Hd Hn Hv Hb] Hreg HL.
    destruct (Live_voice _ _ _ _ HL) as (v & Hl & Hh & _).
    pose proof (Hb _ _ _ Hl Hh) as Hb2. split; unfold masterGain, destination in *.
    + unfold stopNote_effect, stop_effect; wsimpl. lookups. exact Hm.
    + unfold stopNote_effect, stop_effect; wsimpl. lookups. exact Hd.
    + exact Hn.
    + exact Hv.
    + exact Hb.
  - intros w t HI [Hm Hd Hn Hv Hb]. split; auto.
    + unfold ticked; wsimpl. rewrite lookup_fmap, Hm. simpl. rewrite render_master.
      reflexivity.
    + unfold ticked; wsimpl. rewrite lookup_fmap, Hd. reflexivity.
  - intros w vid b s Ho [Hm Hd Hn Hv Hb].
    destruct (owns_voice _ _ _ _ _ Ho) as (v & Hl & Hh & _).
    pose proof (Hb _ _ _ Hl Hh) as Hb2. split; unfold masterGain, destination in *.
    + unfold dispose_effect; wsimpl. lookups. exact Hm.
    + unfold dispose_effect; wsimpl. lookups. exact Hd.
    + exact Hn.
    + intros vid' v' Hl'.
      unfold dispose_effect in Hl'; cbn [voices with_voices with_trace with_nodes] in Hl'.
      destruct (decide (vid' = vid)) as [->|Hne].
      * rewrite lookup_alter_eq, Hl in Hl'. injection Hl' as <-. simpl. eapply Hv; eauto.
      * rewrite lookup_alter_ne in Hl' by auto. eapply Hv; eauto.
    + intros vid' v' b' Hl' Hh'.
      unfold dispose_effect in Hl'; cbn [voices with_voices with_trace with_nodes] in Hl'.
      destruct (decide (vid' = vid)) as [->|Hne].
      * rewrite lookup_alter_eq, Hl in Hl'. injection Hl' as <-.
        destruct (holding_not_null _ _ Hh' (all_null_nulled v)).
      * rewrite lookup_alter_ne in Hl' by auto. eapply Hb; eauto.
Qed.

(** X9.  In every reachable world the master gain is as the module left
    it: a gain stage whose gain is 0.125 at every time, connected to the
    destination and to nothing else; the destination has no outgoing
    connection; and every voice is connected to the master gain. *)
Theorem master_gain_untouched (rnd : nat → R) (acts : list action) :
  let w := run acts (initial rnd) in
  (∃ n, nodes w !! masterGain = Some n ∧ kind n = GainNode ∧
        outputs n = [destination] ∧ value (param n) = 0.125%R ∧
        ∀ t, param_value_at (param n) t = 0.125%R) ∧
  (∃ d, nodes w !! destination = Some d ∧ kind d = DestinationNode ∧ outputs d = []) ∧
  (∀ vid v, voices w !! vid = Some v → output v = masterGain).
Proof.
  intros w. destruct (Wired_reachable rnd acts) as [Hm Hd _ Hv _]. fold w in Hm, Hd, Hv.
  split; [|split; [|exact Hv]].
  - exists master_node. split; [exact Hm|]. repeat split.
    intros t. unfold param_value_at. simpl. destruct (Rlt_dec t 0); reflexivity.
  - exists destination_node. split; [exact Hd|]. split; reflexivity.
Qed.

Lemma Counted_reachable rnd acts : Counted (run acts (initial rnd)).
Proof.
  apply reachable_ind.
  - rewrite initial_eq. split; [reflexivity|split; [reflexivity|]].
    intros vid. simpl. rewrite lookup_empty. split; [intros [? H]; discriminate|lia].
  - intros w n HI (Hn & Hd & Hv) Hnone. split; [simpl; lia|split; [simpl; lia|]].
    intros vid. simpl. destruct (decide (vid = nextVoice w)) as [->|Hne].
    + rewrite lookup_insert_eq. split; [lia|eauto].
    + rewrite !lookup_insert_ne by auto. rewrite Hv. lia.
  - intros w n vid b v0 HI HC Hreg HL. exact HC.
  - intros w t HI HC. exact HC.
  - intros w vid b s Ho (Hn & Hd & Hv). split; [exact Hn|split; [exact Hd|]].
    intros vid'. unfold dispose_effect; wsimpl. rewrite <- Hv.
    rewrite lookup_alter_is_Some. reflexivity.
Qed.

(** X10.  Nodes are created by [start] only, voices by [startNote] only: in
    every reachable world there are, besides the destination and the master
    gain, six nodes for every voice constructed, one random number has been
    drawn per voice, and the voices constructed are those numbered below
    [nextVoice]. *)
Theorem six_nodes_per_voice (rnd : nat → R) (acts : list action) :
  let w := run acts (initial rnd) in
  nextNode w = 2 + 6 * nextVoice w ∧ draws w = nextVoice w ∧
  ∀ vid, is_Some (voices w !! vid) ↔ vid < nextVoice w.
Proof. apply Counted_reachable. Qed.

(** X15.  Notes are independent.  In every reachable world, a [startNote],
    and a [stopNote] of another note, leave a live voice alone: its object,
    its six nodes with their timelines and connections, and its state are
    what they were. *)
Theorem notes_are_independent (rnd : nat → R) (acts : list action) (n : Z)
    (vid b : nat) (st : option R) :
  let w := run acts (initial rnd) in
  Live w vid b st →
  activeVoices w !! n ≠ Some vid →
  (agree vid b w (startNote n w).2 ∧ Live (startNote n w).2 vid b st) ∧
  (agree vid b w (stopNote n w).2 ∧ Live (stopNote n w).2 vid b st).
Proof.
  intros w HL Hn. pose proof (Inv_reachable rnd acts) as HI. fold w in HI.
  destruct (Live_voice _ _ _ _ HL) as (v & Hv & _).
  destruct (inv_voices _ _ HI vid v Hv) as (Hlt & _).
  split.
  - destruct (activeVoices w !! n) as [vid0|] eqn:E.
    + rewrite (startNote_noop _ _ _ E). split; [apply agree_refl|exact HL].
    + rewrite (startNote_eq _ _ E). cbn [snd].
      assert (Hag : agree vid b w (startNote_effect n w)).
      { eapply agree_trans; [apply agree_registered; lia|].
        apply agree_start; [lia|]. simpl. eapply Live_bound; eauto. }
      split; [exact Hag|]. eapply Live_agree; [exact Hag|reflexivity|exact HL].
  - destruct (activeVoices w !! n) as [vid0|] eqn:E.
    + destruct (stopNote_eq _ _ _ HI E) as (b0 & ne & HL0 & _ & ->). cbn [snd].
      assert (Hne : vid ≠ vid0) by congruence.
      assert (Hag : agree vid b w (stopNote_effect n b0 0.5 (value (param ne)) w)).
      { apply (agree_trans _ _ _ (stop_effect b0 0.5 (value (param ne)) w)).
        - apply agree_stop. eapply Inv_disjoint_Live; eauto.
        - split; [|split; [|split]]; auto. }
      split; [exact Hag|]. eapply Live_agree; [exact Hag|reflexivity|exact HL].
    + rewrite (stopNote_noop _ _ E). split; [apply agree_refl|exact HL].
Qed.

Lemma notes_are_independent_witness :
  ∃ b, Live (startNote 61 one_note).2 0 b None.
Proof.
  destruct (Inv_registered one_note 60 0 (Inv_reachable _ _) one_note_registry)
    as (b & HL).
  assert (Hn : activeVoices one_note !! 61%Z ≠ Some 0).
  { intros H.
    pose proof (inv_injective _ _ (Inv_reachable (constantly 0.25%R) [StartNote 60])
                  _ _ _ H one_note_registry). discriminate. }
  exists b.
  exact (proj2 (proj1 (notes_are_independent (constantly 0.25%R) [StartNote 60]
                         61%Z 0 b None HL Hn))).
Defined.

(** ** The keyboard *)

Lemma noteMap_elem key n :
  noteMap !! key = Some n →
  (key, n) ∈ [("a", 60); ("w", 61); ("s", 62); ("e", 63); ("d", 64); ("f", 65);
              ("t", 66); ("g", 67); ("y", 68); ("h", 69); ("u", 70); ("j", 71);
              ("k", 72); ("o", 73); ("l", 74); ("p", 75); (";", 76)]%Z.
Proof. intros H. apply elem_of_list_to_map_2 in H. exact H. Qed.

Lemma noteMap_range key n : noteMap !! key = Some n → (60 ≤ n ≤ 76)%Z.
Proof.
  intros H. apply noteMap_elem in H.
  repeat (apply elem_of_cons in H as [[= -> ->]|H]; [lia|]).
  apply elem_of_nil in H. destruct H.
Qed.

Lemma NoDup_snd_inj {A B} (l : list (A * B)) x1 x2 y :
  NoDup (l.*2) → (x1, y) ∈ l → (x2, y) ∈ l → x1 = x2.
Proof.
  induction l as [|[x0 y0] l IH]; intros Hnd H1 H2.
  - apply elem_of_nil in H1. destruct H1.
  - cbn in Hnd. apply NoDup_cons in Hnd as (Hnotin & Hnd).
    apply elem_of_cons in H1 as [H1|H1], H2 as [H2|H2].
    + congruence.
    + injection H1 as -> ->. exfalso. apply Hnotin.
      apply list_elem_of_fmap. exists (x2, y0). auto.
    + injection H2 as -> ->. exfalso. apply Hnotin.
      apply list_elem_of_fmap. exists (x1, y0). auto.
    + apply IH; assumption.
Qed.

Lemma noteMap_inj key1 key2 n :
  noteMap !! key1 = Some n → noteMap !! key2 = Some n → key1 = key2.
Proof.
  intros H1 H2. apply noteMap_elem in H1. apply noteMap_elem in H2.
  eapply NoDup_snd_inj; [|exact H1|exact H2].
  change (NoDup (seqZ 60 17)). apply NoDup_seqZ.
Qed.

Lemma noteMap_truthy key n : noteMap !! key = Some n → truthy n = true.
Proof.
  intros H. apply noteMap_range in H. unfold truthy.
  destruct (Z.eqb_spec n 0); [lia|reflexivity].
Qed.

Lemma noteMap_get_own key n : noteMap !! key = Some n → noteMap_get key = Note n.
Proof. intros H. unfold noteMap_get. rewrite H. reflexivity. Qed.

Lemma noteMap_get_missing key :
  noteMap !! key = None → key ∉ Object_prototype → noteMap_get key = Missing.
Proof.
  intros H Hk. unfold noteMap_get. rewrite H.
  rewrite bool_decide_eq_false_2 by exact Hk. reflexivity.
Qed.

Lemma noteMap_get_inherited key : key ∈ Object_prototype → noteMap_get key = Inherited.
Proof.
  intros Hk. unfold noteMap_get.
  assert (H : noteMap !! key = None).
  { unfold Object_prototype in Hk.
    repeat (apply elem_of_cons in Hk as [->|Hk]; [reflexivity|]).
    apply elem_of_nil in Hk. destruct Hk. }
  rewrite H, bool_decide_eq_true_2 by exact Hk. reflexivity.
Qed.

Lemma handle_eq i :
  ordinary i →
  handle i = Some (match action_of i with
                   | Some a => perform a
                   | None => ret tt
                   end).
Proof.
  destruct i as [key|key|dt]; unfold ordinary, handle, action_of; intros Ht;
    [| |reflexivity].
  - unfold keydown. destruct (noteMap !! key) as [n|] eqn:E.
    + rewrite (noteMap_get_own _ _ E), (noteMap_truthy _ _ E). reflexivity.
    + rewrite (noteMap_get_missing _ E Ht). reflexivity.
  - unfold keyup. destruct (noteMap !! key) as [n|] eqn:E.
    + rewrite (noteMap_get_own _ _ E), (noteMap_truthy _ _ E). reflexivity.
    + rewrite (noteMap_get_missing _ E Ht). reflexivity.
Qed.

Lemma play_run inputs w :
  Forall ordinary inputs → play inputs w = Some (run (omap action_of inputs) w).
Proof.
  intros H. revert w. induction H as [|i inputs Hi _ IH]; intros w; [reflexivity|].
  cbn [play]. rewrite (handle_eq i Hi). cbn [omap list_omap].
  destruct (action_of i) as [a|]; rewrite IH; reflexivity.
Qed.

(** X11.  For the name of a member every object inherits, the two
    listeners are outside the development.  For every other key that is
    not in [noteMap], they do nothing, neither down nor up.  A key of
    [noteMap] is no inherited name, has a note between 60 and 76, and no
    two keys have the same note; its [keydown] is the [startNote] of its
    note and its [keyup] the [stopNote].  So a [keydown] repeated while the
    key is held changes nothing, and a [keyup] for a note without entry
    changes nothing. *)
Theorem keyboard_events :
  (∀ key : string, key ∈ Object_prototype → keydown key = None ∧ keyup key = None) ∧
  (∀ key : string, noteMap !! key = None → key ∉ Object_prototype →
     keydown key = Some (ret tt) ∧ keyup key = Some (ret tt)) ∧
  (∀ (key : string) (n : Z), noteMap !! key = Some n →
     (60 ≤ n ≤ 76)%Z ∧ (key ∉ Object_prototype) ∧
     keydown key = Some (startNote n) ∧ keyup key = Some (stopNote n) ∧
     (∀ w, startNote n (startNote n w).2 = (Ok tt, (startNote n w).2)) ∧
     (∀ w, activeVoices w !! n = None → stopNote n w = (Ok tt, w))) ∧
  (∀ (key1 key2 : string) (n : Z),
     noteMap !! key1 = Some n → noteMap !! key2 = Some n → key1 = key2).
Proof.
  split; [|split; [|split]].
  - intros key Hk. unfold keydown, keyup.
    rewrite (noteMap_get_inherited _ Hk). auto.
  - intros key H Hk. unfold keydown, keyup.
    rewrite (noteMap_get_missing _ H Hk). auto.
  - intros key n H.
    split; [eapply noteMap_range; eauto|]. split.
    { intros Hk. apply noteMap_get_inherited in Hk.
      rewrite (noteMap_get_own _ _ H) in Hk. discriminate. }
    unfold keydown, keyup.
    rewrite (noteMap_get_own _ _ H), (noteMap_truthy _ _ H).
    split; [reflexivity|]. split; [reflexivity|]. split.
    + intros w. destruct (startNote_registers n w) as (vid & Hvid).
      apply (startNote_noop _ _ _ Hvid).
    + intros w Hnone. apply stopNote_noop. exact Hnone.
  - exact noteMap_inj.
Qed.

Lemma keyboard_events_witness :
  keydown "a" = Some (startNote 60) ∧ keydown "Shift" = Some (ret tt) ∧
  keydown "toString" = None.
Proof.
  assert (H : noteMap !! "a" = Some 60%Z) by reflexivity.
  assert (H1 : noteMap !! "Shift" = None) by reflexivity.
  assert (H2 : "Shift" ∉ Object_prototype).
  { apply (bool_decide_unpack _). reflexivity. }
  assert (H3 : "toString" ∈ Object_prototype).
  { apply (bool_decide_unpack _). reflexivity. }
  split; [|split].
  - exact (proj1 (proj2 (proj2 (proj1 (proj2 (proj2 keyboard_events)) "a" 60%Z H)))).
  - exact (proj1 (proj1 (proj2 keyboard_events) "Shift" H1 H2)).
  - exact (proj1 (proj1 keyboard_events "toString" H3)).
Defined.

Lemma activeVoices_perform a w :
  Inv w →
  activeVoices (perform a w).2 =
  match a with
  | StartNote n =>
      match activeVoices w !! n with
      | Some _ => activeVoices w
      | None => <[n := nextVoice w]> (activeVoices w)
      end
  | StopNote n => delete n (activeVoices w)
  | Advance _ => activeVoices w
  end.
Proof.
  intros HI. destruct a as [n|n|dt]; simpl.
  - destruct (activeVoices w !! n) as [vid|] eqn:E.
    + rewrite (startNote_noop _ _ _ E). reflexivity.
    + rewrite (startNote_eq _ _ E). reflexivity.
  - destruct (activeVoices w !! n) as [vid|] eqn:E.
    + destruct (stopNote_eq _ _ _ HI E) as (b & ne & _ & _ & ->). reflexivity.
    + rewrite (stopNote_noop _ _ E). simpl. symmetry. apply delete_id. exact E.
  - rewrite advance_eq.
    apply (deliver_ind (λ w', activeVoices w' = activeVoices w));
      [|apply Inv_ticked, HI|reflexivity].
    intros w' vid b s _ H. exact H.
Qed.

Lemma registry_notes acts w (P : Z → Prop) :
  Inv w →
  Forall (λ a, ∀ n, a = StartNote n → P n) acts →
  (∀ n vid, activeVoices w !! n = Some vid → P n) →
  ∀ n vid, activeVoices (run acts w) !! n = Some vid → P n.
Proof.
  revert w. induction acts as [|a acts IH]; intros w HI Hacts Hw; [exact Hw|].
  apply Forall_cons in Hacts as (Ha & Hacts). rewrite run_cons.
  apply IH; [apply Inv_perform, HI|exact Hacts|].
  intros n vid. rewrite (activeVoices_perform a w HI). destruct a as [m|m|dt].
  - destruct (activeVoices w !! m) as [vid0|] eqn:E; [apply Hw|].
    intros H. apply lookup_insert_Some in H as [(<- & _)|(_ & H)].
    + apply Ha. reflexivity.
    + eapply Hw; eauto.
  - intros H. apply lookup_delete_Some in H as (_ & H). eapply Hw; eauto.
  - apply Hw.
Qed.

Lemma keyboard_actions inputs :
  Forall (λ a, ∀ n, a = StartNote n → (60 ≤ n ≤ 76)%Z) (omap action_of inputs).
Proof.
  induction inputs as [|i inputs IH]; [constructor|]. cbn [omap list_omap].
  destruct (action_of i) as [a|] eqn:E; [|exact IH]. constructor; [|exact IH].
  intros n ->. destruct i as [key|key|dt]; unfold action_of in E.
  - destruct (noteMap !! key) as [m|] eqn:Hk; [|discriminate].
    injection E as <-. eapply noteMap_range; eauto.
  - destruct (noteMap !! key); discriminate.
  - discriminate.
Qed.

(** X12.  Whatever is played on a keyboard, that is for inputs none of
    whose keys is the name of an inherited member, every listener is
    defined and none ever raises an exception, the notes of the registry
    are notes of the keyboard, between 60 and 76, so that at most 17 voices
    are registered at a time, and a registered voice is sounding. *)
Theorem keyboard_polyphony (rnd : nat → R) (inputs : list input) (i : input) :
  Forall ordinary inputs → ordinary i →
  ∃ w m, play inputs (initial rnd) = Some w ∧ handle i = Some m ∧
    (m w).1 = Ok tt ∧ uncaught w = [] ∧
    (∀ n vid, activeVoices w !! n = Some vid →
       (60 ≤ n ≤ 76)%Z ∧ ∃ b, Live w vid b None) ∧
    size (activeVoices w) ≤ 17.
Proof.
  intros Hin Hi.
  set (acts := omap action_of inputs).
  exists (run acts (initial rnd)). eexists.
  split; [apply play_run; exact Hin|]. split; [apply handle_eq; exact Hi|].
  pose proof (Inv_reachable rnd acts) as HI.
  assert (Hnotes : ∀ n vid, activeVoices (run acts (initial rnd)) !! n = Some vid →
            (60 ≤ n ≤ 76)%Z).
  { apply registry_notes; [apply Inv_initial|apply keyboard_actions|].
    intros n vid H. rewrite initial_eq in H. simpl in H.
    rewrite lookup_empty in H. discriminate. }
  split; [|split; [apply (inv_uncaught _ _ HI)|split]].
  - destruct (action_of i) as [a|]; [|reflexivity].
    apply (Inv_perform a _ HI).
  - intros n vid H. split; [eapply Hnotes; eauto|eapply Inv_registered; eauto].
  - rewrite <- size_dom.
    assert (Hsub : dom (activeVoices (run acts (initial rnd))) ⊆
                   (list_to_set keyboard_notes : gset Z)).
    { intros n Hn. apply elem_of_dom in Hn as (vid & Hn).
      apply elem_of_list_to_set. unfold keyboard_notes.
      apply elem_of_seqZ. pose proof (Hnotes _ _ Hn). lia. }
    apply subseteq_size in Hsub. etrans; [exact Hsub|].
    rewrite size_list_to_set by apply NoDup_seqZ. reflexivity.
Qed.

Lemma keyboard_polyphony_witness :
  ∃ w, play [KeyDown "a"; KeyDown "Shift"; KeyDown "a"] (initial (constantly 0.25%R)) = Some w ∧
       size (activeVoices w) ≤ 17.
Proof.
  assert (Ha : ordinary (KeyDown "a")).
  { apply (bool_decide_unpack _). reflexivity. }
  assert (Hs : ordinary (KeyDown "Shift")).
  { apply (bool_decide_unpack _). reflexivity. }
  assert (Hin : Forall ordinary [KeyDown "a"; KeyDown "Shift"; KeyDown "a"]).
  { repeat constructor; assumption. }
  destruct (keyboard_polyphony (constantly 0.25%R) _ (KeyUp "a") Hin Ha)
    as (w & m & Hw & _ & _ & _ & _ & Hsz).
  exists w. split; [exact Hw|exact Hsz].
Defined.

(** ** The envelope: bounds, and the release of a note stopped at once *)


Open Scope R_scope.

(** X13.  The envelope of a voice started by [startNote] with a peak
    amplitude [a] that is not negative stays between 0 and [a] from the
    start on.  And after [stop] on a live voice, the envelope stays, from
    the time of the call on, between 0 and the value read from
    [gain.value] at the call, when this value is not negative. *)
Theorem envelope_bounded :
  (∀ (rnd : nat → R) (acts0 : list action) (note : Z),
     let w0 := run acts0 (initial rnd) in
     let a := randoms w0 (draws w0) in
     let t0 := currentTime w0 in
     activeVoices w0 !! note = None →
     0 <= a →
     let E1 := envelope_at (startNote note w0).2 (nextNode w0) in
     ∀ t, t0 <= t → 0 <= E1 t <= a) ∧
  (∀ (w : World) (vid b : nat) (st : option R) (n : AudioNode),
     Live w vid b st →
     nodes w !! (5 + b)%nat = Some n →
     let v := value (param n) in
     0 <= v →
     let E3 := envelope_at (stop vid w).2 b in
     ∀ t, currentTime w <= t → 0 <= E3 t <= v).
Proof.
  split.
  - intros rnd acts0 note w0 a t0 Hnone Ha E1 t Ht.
    unfold E1. rewrite envelope_startNote by exact Hnone.
    apply start_curve_bounds; assumption.
  - intros w vid b st n HL Hn v Hv E3 t Ht.
    destruct (envelope_stop w vid b st n t HL Hn Ht) as (_ & HE3).
    unfold E3. rewrite HE3. fold v.
    destruct (Rlt_dec t (currentTime w + 0.5)); [|lra]. split; nra.
Qed.

Lemma envelope_bounded_witness :
  0 <= envelope_at (stop 0 one_note).2 2 0.25 <= 1.
Proof.
  destruct one_note_envelope as (Ht & Hn).
  apply (proj2 envelope_bounded one_note 0%nat 2%nat None _ one_note_Live Hn).
  - simpl. lra.
  - rewrite Ht. lra.
Defined.

Close Scope R_scope.

(** X14.  When [stopNote] is called before the clock has moved since
    [startNote], the value read from the envelope gain is the default 1 of
    a gain stage that has not been rendered yet: whatever the peak amplitude
    of the voice, the release falls linearly from 1 at the current time to 0
    half a second later. *)
Theorem release_of_note_stopped_at_once (rnd : nat → R) (acts0 : list action)
    (note : Z) :
  let w0 := run acts0 (initial rnd) in
  let t0 := currentTime w0 in
  let b := nextNode w0 in
  activeVoices w0 !! note = None →
  let w1 := (startNote note w0).2 in
  let E3 := envelope_at (stopNote note w1).2 b in
  (stopNote note w1).1 = Ok tt ∧
  E3 t0 = 1%R ∧
  (∀ t, t0 <= t <= t0 + 0.5 → E3 t = 1 - (t - t0) / 0.5)%R ∧
  (∀ t, t0 + 0.5 <= t → E3 t = 0)%R.
Proof.
  intros w0 t0 b Hnone w1 E3.
  pose proof (Inv_reachable rnd acts0) as HI. fold w0 in HI.
  assert (Hw1 : w1 = startNote_effect note w0).
  { unfold w1. rewrite (startNote_eq _ _ Hnone). reflexivity. }
  assert (HI1 : Inv w1) by (rewrite Hw1; apply Inv_startNote; assumption).
  assert (HS : Sounding w1 note (nextVoice w0) b (randoms w0 (draws w0)) t0).
  { rewrite Hw1. apply Sounding_startNote; assumption. }
  pose proof (sounding_registry _ _ _ _ _ _ HS) as Hreg.
  destruct (stopNote_eq _ _ _ HI1 Hreg) as (b' & ne & HL' & Hne & Hstop).
  destruct (sounding_live _ _ _ _ _ _ HS) as (Ho & _). destruct HL' as (Ho' & _).
  destruct (owns_inj _ _ _ _ _ _ _ _ Ho Ho') as (<- & _).
  assert (Hnode : nodes w1 !! (5 + b) =
                  Some (envelope_node (new_voice note w0) t0)).
  { rewrite Hw1. simpl. lookups. reflexivity. }
  assert (ne = envelope_node (new_voice note w0) t0) by congruence. subst ne.
  assert (HE3 : ∀ t, (t0 <= t)%R → E3 t =
            if Rlt_dec t (t0 + 0.5) then (1 * (1 - (t - t0) / 0.5))%R else 0%R).
  { intros t Ht. unfold E3. rewrite Hstop. cbn [snd].
    unfold envelope_at, stopNote_effect, stop_effect; wsimpl.
    rewrite !lookup_alter_ne by lia. rewrite lookup_alter_eq, Hnode.
    cbn [fmap option_fmap option_map param map_param envelope_node value].
    assert (Ht1 : currentTime w1 = t0) by (rewrite Hw1; reflexivity).
    rewrite Ht1. apply release_env_curve. exact Ht. }
  split; [rewrite Hstop; reflexivity|]. split; [|split].
  - rewrite HE3 by lra. destruct (Rlt_dec t0 (t0 + 0.5)); lra.
  - intros t Ht. rewrite HE3 by lra. destruct (Rlt_dec t (t0 + 0.5)); lra.
  - intros t Ht. rewrite HE3 by lra. destruct (Rlt_dec t (t0 + 0.5)); lra.
Qed.

Lemma release_of_note_stopped_at_once_witness :
  let w1 := (startNote 60 (initial (constantly 0.25%R))).2 in
  envelope_at (stopNote 60 w1).2 2 0 = 1%R.
Proof.
  intros w1.
  assert (Hnone : activeVoices (run [] (initial (constantly 0.25%R))) !! 60%Z = None).
  { simpl. apply lookup_empty. }
  exact (proj1 (proj2 (release_of_note_stopped_at_once (constantly 0.25%R) [] 60%Z Hnone))).
Defined.
